(** * LOV mirror: ingestion and normalisation pipeline

    A shallow embedding of the TypeScript sources of the vocabulary mirror
    (the modules of [scripts/lov-mirror/] and the pass of the monolithic
    [scripts/fetch-lov.ts]) together with the properties its design
    document states about them.

    Conventions of the embedding.
    - A JavaScript string is a Rocq [string]; every character stands for one
      UTF-16 code unit below 256.  The URI encoder of [Module Encode] is the
      exception: it is modelled on arbitrary sequences of 16-bit code units.
    - [null] and [undefined] are both [None].
    - The file system is a finite map from normalised paths below the output
      root to file contents; every effect of a pipeline pass is also appended
      to a trace, so that "nothing was fetched, nothing was written" is a
      statement about that trace.  Calls of the file system and of the N3
      writer are taken not to fail.
    - The network, the N3 parser, store and writer, [Date.parse], the clock
      and [localeCompare] are platform services: they are fields of a
      [Platform] record that the pipeline takes as a parameter.
    - A pass over a vocabulary is given twice: as a function from world to
      world, which is the pass run alone, and as the sequence of the
      operations it awaits ([Module Pool]), between any two of which the
      other workers of the pool may act.

    The file has three parts: the embedding, module by module; the
    vocabulary of the statements ([Module Spec]) with a small registry to
    run the pipeline on ([Module Example]); the properties. *)

From Stdlib Require Import ZArith NArith Lia Bool Ascii String DecimalString.
From stdpp Require Import gmap strings list sorting.

Local Open Scope string_scope.
Local Open Scope list_scope.

(* ===================================================================== *)
(** * JavaScript strings                                                  *)
(* ===================================================================== *)

Module JsString.

Definition code (c : ascii) : N := N_of_ascii c.

(** The code units [String.prototype.trim] removes (WhiteSpace and
    LineTerminator), as far as they are below 256. *)
Definition is_ws (c : ascii) : bool :=
  let n := code c in
  ((9 <=? n) && (n <=? 13) || (n =? 32) || (n =? 160))%N.

Fixpoint trimStart (s : string) : string :=
  match s with
  | EmptyString => EmptyString
  | String c r => if is_ws c then trimStart r else s
  end.

Fixpoint trimEnd (s : string) : string :=
  match s with
  | EmptyString => EmptyString
  | String c r =>
      match trimEnd r with
      | EmptyString => if is_ws c then EmptyString else String c EmptyString
      | r' => String c r'
      end
  end.

Definition trim (s : string) : string := trimEnd (trimStart s).

(** [toLowerCase] on code units below 256: A-Z and the upper-case letters
    of Latin-1 (all of 0xC0-0xDE but the multiplication sign 0xD7). *)
Definition lower_char (c : ascii) : ascii :=
  let n := code c in
  if ((65 <=? n) && (n <=? 90)
      || (192 <=? n) && (n <=? 222) && negb (n =? 215))%N
  then ascii_of_N (n + 32) else c.

Fixpoint toLowerCase (s : string) : string :=
  match s with
  | EmptyString => EmptyString
  | String c r => String (lower_char c) (toLowerCase r)
  end.

(** [s.split(sep)[0]]: the part of [s] before the first [sep]. *)
Fixpoint split_head (sep : ascii) (s : string) : string :=
  match s with
  | EmptyString => EmptyString
  | String c r => if Ascii.eqb c sep then EmptyString
                  else String c (split_head sep r)
  end.

(** Truthiness of a string value. *)
Definition truthy (s : string) : bool :=
  match s with EmptyString => false | _ => true end.

(** [a === b] where [a] may be [null]/[undefined] and [b] is a string. *)
Definition strict_eq (a : option string) (b : string) : bool :=
  match a with Some x => String.eqb x b | None => false end.

(** The order of the default [Array.prototype.sort]: code unit by code
    unit, as a number that is negative, zero or positive. *)
Definition compare_units (a b : string) : Z :=
  match String.compare a b with Lt => (-1)%Z | Eq => 0%Z | Gt => 1%Z end.

End JsString.

(* ===================================================================== *)
(** * JavaScript arrays                                                   *)
(* ===================================================================== *)

Module JsArray.
Section Sort.
Context {A : Type} (cmp : A -> A -> Z).

(** [Array.prototype.sort(cmp)] is a stable sort: of two elements the
    comparator does not order strictly, the one that came first stays
    first.  [insert x l] puts [x], which preceded every element of [l]
    in the input, behind exactly the elements strictly smaller. *)
Fixpoint insert (x : A) (l : list A) : list A :=
  match l with
  | [] => [x]
  | y :: l' => if (0 <? cmp x y)%Z then y :: insert x l' else x :: l
  end.

Definition sort (l : list A) : list A := foldr insert [] l.

(** [a] may stand before [b] in an array sorted with [cmp]. *)
Definition before (a b : A) : Prop := (cmp a b <= 0)%Z.
End Sort.

(** A JavaScript [Set] of strings keeps insertion order. *)
Definition set_add (x : string) (s : list string) : list string :=
  if bool_decide (x ∈ s) then s else s ++ [x].
End JsArray.

(* ===================================================================== *)
(** * http.ts: content types and URL extensions                           *)
(* ===================================================================== *)

Module Http.
Import JsString.

(** [contentTypeBase]: [null] and the empty string give [null]; otherwise
    the part before the first semicolon, trimmed and lower-cased. *)
Definition contentTypeBase (ct : option string) : option string :=
  match ct with
  | None => None
  | Some s => if truthy s
              then Some (toLowerCase (trim (split_head ";" s)))
              else None
  end.

Definition is_alnum (c : ascii) : bool :=
  let n := code c in
  ((48 <=? n) && (n <=? 57) || (65 <=? n) && (n <=? 90)
   || (97 <=? n) && (n <=? 122))%N.

(** The longest run of [[a-z0-9]] (case-insensitive) at the head of [s],
    and what follows it. *)
Fixpoint alnum_run (s : string) : string * string :=
  match s with
  | EmptyString => (EmptyString, EmptyString)
  | String c r =>
      if is_alnum c
      then let '(run, rest) := alnum_run r in (String c run, rest)
      else (EmptyString, s)
  end.

(** What may follow the extension: [?], [#] or the end of the input. *)
Definition ext_end (rest : string) : bool :=
  match rest with
  | EmptyString => true
  | String c _ => Ascii.eqb c "?" || Ascii.eqb c "#"
  end.

(** The leftmost match of [/\.([a-z0-9]+)(?:\?|#|$)/i] in [s], as its
    capture group.  The greedy run cannot be shortened by backtracking:
    after a shorter run comes a letter or digit, never [?], [#] or the
    end. *)
Fixpoint ext_match (s : string) : option string :=
  match s with
  | EmptyString => None
  | String c r =>
      if Ascii.eqb c "."
      then let '(run, rest) := alnum_run r in
           if truthy run && ext_end rest then Some run else ext_match r
      else ext_match r
  end.

Definition urlExt (url : string) : string :=
  toLowerCase (default EmptyString (ext_match url)).

End Http.

(* ===================================================================== *)
(** * rdf.ts: the format detector                                         *)
(* ===================================================================== *)

Module Rdf.
Import JsString Http.

Inductive N3Format := Turtle | N3 | NTriples | TriG.

Definition format_name (f : N3Format) : string :=
  match f with
  | Turtle => "turtle" | N3 => "n3" | NTriples => "ntriples" | TriG => "trig"
  end.

(** [n3FormatFor] of [lov-mirror/rdf.ts]. *)
Definition n3FormatFor (contentType : option string) (sourceUrl : string)
  : option N3Format :=
  let ct := contentTypeBase contentType in
  if strict_eq ct "text/turtle" || strict_eq ct "application/x-turtle"
  then Some Turtle
  else if strict_eq ct "text/n3" || strict_eq ct "text/rdf+n3" then Some N3
  else if strict_eq ct "application/n-triples" then Some NTriples
  else if strict_eq ct "application/trig" || strict_eq ct "text/trig"
  then Some TriG
  else
    let ext := urlExt sourceUrl in
    if String.eqb ext "ttl" then Some Turtle
    else if String.eqb ext "n3" then Some N3
    else if String.eqb ext "nt" then Some NTriples
    else if String.eqb ext "trig" then Some TriG
    else if strict_eq ct "application/rdf+xml" || String.eqb ext "rdf"
            || String.eqb ext "owl" || String.eqb ext "xml"
    then None
    else if strict_eq ct "application/ld+json" || String.eqb ext "jsonld"
            || String.eqb ext "json"
    then None
    else Some Turtle.

(** [n3FormatFor] of the monolithic [fetch-lov.ts]; it differs in the
    last test only, which does not list the extension [json]. *)
Definition n3FormatFor_monolith (contentType : option string)
  (sourceUrl : string) : option N3Format :=
  let ct := contentTypeBase contentType in
  if strict_eq ct "text/turtle" || strict_eq ct "application/x-turtle"
  then Some Turtle
  else if strict_eq ct "text/n3" || strict_eq ct "text/rdf+n3" then Some N3
  else if strict_eq ct "application/n-triples" then Some NTriples
  else if strict_eq ct "application/trig" || strict_eq ct "text/trig"
  then Some TriG
  else
    let ext := urlExt sourceUrl in
    if String.eqb ext "ttl" then Some Turtle
    else if String.eqb ext "n3" then Some N3
    else if String.eqb ext "nt" then Some NTriples
    else if String.eqb ext "trig" then Some TriG
    else if strict_eq ct "application/rdf+xml" || String.eqb ext "rdf"
            || String.eqb ext "owl" || String.eqb ext "xml"
    then None
    else if strict_eq ct "application/ld+json" || String.eqb ext "jsonld"
    then None
    else Some Turtle.

End Rdf.

(* ===================================================================== *)
(** * encode.ts: path segments                                            *)
(* ===================================================================== *)

Module Encode.
Local Open Scope N_scope.

(** ** [encodeURIComponent] and [decodeURIComponent]

    Both are modelled on sequences of UTF-16 code units, after the
    abstract operations Encode and Decode of ECMA-262; [None] stands for
    a thrown [URIError]. *)

(** uriUnreserved: letters, digits and [- _ . ! ~ * ' ( )]. *)
Definition is_unreserved (u : N) : bool :=
  (48 <=? u) && (u <=? 57) || (65 <=? u) && (u <=? 90)
  || (97 <=? u) && (u <=? 122)
  || (u =? 45) || (u =? 95) || (u =? 46) || (u =? 33) || (u =? 126)
  || (u =? 42) || (u =? 39) || (u =? 40) || (u =? 41).

Definition is_lead (u : N) : bool := (0xD800 <=? u) && (u <=? 0xDBFF).
Definition is_trail (u : N) : bool := (0xDC00 <=? u) && (u <=? 0xDFFF).

Definition hex_digit (d : N) : N := if d <? 10 then 48 + d else 55 + d.

(** One octet as [%XX], upper-case. *)
Definition pct (b : N) : list N :=
  [37; hex_digit (b / 16); hex_digit (b mod 16)].

Definition pct_all (bs : list N) : list N := concat (map pct bs).

(** The UTF-8 octets of a code point. *)
Definition utf8 (cp : N) : list N :=
  if cp <? 0x80 then [cp]
  else if cp <? 0x800 then [0xC0 + cp / 64; 0x80 + cp mod 64]
  else if cp <? 0x10000
  then [0xE0 + cp / 4096; 0x80 + (cp / 64) mod 64; 0x80 + cp mod 64]
  else [0xF0 + cp / 262144; 0x80 + (cp / 4096) mod 64;
        0x80 + (cp / 64) mod 64; 0x80 + cp mod 64].

(** The code point of a surrogate pair. *)
Definition pair_cp (hi lo : N) : N :=
  (hi - 0xD800) * 0x400 + (lo - 0xDC00) + 0x10000.

(** Encode: an unreserved unit is copied; any other code point is
    written as the escaped octets of its UTF-8 form; an unpaired
    surrogate throws. *)
Fixpoint encodeURIComponent (s : list N) : option (list N) :=
  match s with
  | [] => Some []
  | c :: r =>
      if is_unreserved c then cons c <$> encodeURIComponent r
      else if is_lead c then
        match r with
        | d :: r' =>
            if is_trail d
            then app (pct_all (utf8 (pair_cp c d))) <$> encodeURIComponent r'
            else None
        | [] => None
        end
      else if is_trail c then None
      else app (pct_all (utf8 c)) <$> encodeURIComponent r
  end.

Definition hex_val (u : N) : option N :=
  if (48 <=? u) && (u <=? 57) then Some (u - 48)
  else if (65 <=? u) && (u <=? 70) then Some (u - 55)
  else if (97 <=? u) && (u <=? 102) then Some (u - 87)
  else None.

(** ParseHexOctet on the two units at the head of [s]. *)
Definition with_hex {B} (s : list N) (k : N -> list N -> option B)
  : option B :=
  match s with
  | h1 :: h2 :: r =>
      match hex_val h1, hex_val h2 with
      | Some a, Some b => k (16 * a + b) r
      | _, _ => None
      end
  | _ => None
  end.

(** A further escaped octet [%XX] at the head of [s]. *)
Definition with_escape {B} (s : list N) (k : N -> list N -> option B)
  : option B :=
  match s with
  | c :: r => if c =? 37 then with_hex r k else None
  | [] => None
  end.

Definition is_cont (b : N) : bool := (0x80 <=? b) && (b <=? 0xBF).

(** The code point of a well-formed UTF-8 sequence of 2, 3 or 4 octets:
    continuation octets in range, no overlong form, no surrogate,
    nothing above U+10FFFF. *)
Definition utf8_cp2 (b0 b1 : N) : option N :=
  let cp := (b0 - 0xC0) * 64 + (b1 - 0x80) in
  if is_cont b1 && (0x80 <=? cp) then Some cp else None.

Definition utf8_cp3 (b0 b1 b2 : N) : option N :=
  let cp := (b0 - 0xE0) * 4096 + (b1 - 0x80) * 64 + (b2 - 0x80) in
  if is_cont b1 && is_cont b2 && (0x800 <=? cp)
     && negb ((0xD800 <=? cp) && (cp <=? 0xDFFF))
  then Some cp else None.

Definition utf8_cp4 (b0 b1 b2 b3 : N) : option N :=
  let cp := (b0 - 0xF0) * 262144 + (b1 - 0x80) * 4096
            + (b2 - 0x80) * 64 + (b3 - 0x80) in
  if is_cont b1 && is_cont b2 && is_cont b3
     && (0x10000 <=? cp) && (cp <=? 0x10FFFF)
  then Some cp else None.

(** UTF16EncodeCodePoint. *)
Definition utf16 (cp : N) : list N :=
  if cp <=? 0xFFFF then [cp]
  else [(cp - 0x10000) / 0x400 + 0xD800; (cp - 0x10000) mod 0x400 + 0xDC00].

Definition append_cp (cp : option N) (rest : option (list N))
  : option (list N) :=
  match cp with
  | Some v => app (utf16 v) <$> rest
  | None => None
  end.

(** Decode with an empty set of preserved escapes. *)
Fixpoint decodeURIComponent (s : list N) : option (list N) :=
  match s with
  | [] => Some []
  | c :: r =>
      if negb (c =? 37) then cons c <$> decodeURIComponent r
      else
        with_hex r (fun b0 r0 =>
          if b0 <? 0x80 then cons b0 <$> decodeURIComponent r0
          else if b0 <? 0xC0 then None
          else if b0 <? 0xE0 then
            with_escape r0 (fun b1 r1 =>
              append_cp (utf8_cp2 b0 b1) (decodeURIComponent r1))
          else if b0 <? 0xF0 then
            with_escape r0 (fun b1 r1 =>
            with_escape r1 (fun b2 r2 =>
              append_cp (utf8_cp3 b0 b1 b2) (decodeURIComponent r2)))
          else if b0 <? 0xF8 then
            with_escape r0 (fun b1 r1 =>
            with_escape r1 (fun b2 r2 =>
            with_escape r2 (fun b3 r3 =>
              append_cp (utf8_cp4 b0 b1 b2 b3) (decodeURIComponent r3))))
          else None)
  end.

(** A string without unpaired surrogates. *)
Fixpoint well_formed (s : list N) : bool :=
  match s with
  | [] => true
  | c :: r =>
      if is_lead c then
        match r with
        | d :: r' => is_trail d && well_formed r'
        | [] => false
        end
      else negb (is_trail c) && well_formed r
  end.

(** ** The strings of the pipeline as code units *)

Definition units (s : string) : list N :=
  map N_of_ascii (list_ascii_of_string s).

Definition of_units (l : list N) : string :=
  string_of_list_ascii (map ascii_of_N l).

Definition encodeURIComponent_str (x : string) : string :=
  of_units (default [] (encodeURIComponent (units x))).

(** ** encode.ts *)

Definition encPrefixSegment (x : string) : string :=
  encodeURIComponent_str x.

Definition encUriSegment (x : string) : string :=
  encodeURIComponent_str x.

End Encode.

(* ===================================================================== *)
(** * RDF terms, quads and the N3 store                                   *)
(* ===================================================================== *)

Module Graph.

Inductive Term :=
| NamedNode (value : string)
| BlankNode (value : string)
| Literal (value language datatype : string)
| VariableTerm (value : string)
| DefaultGraph.

Record Quad := mkQuad
  { subject : Term; predicate : Term; object : Term; graph : Term }.

#[global] Instance Term_eq_dec : EqDecision Term.
Proof. solve_decision. Defined.

#[global] Instance Quad_eq_dec : EqDecision Quad.
Proof. solve_decision. Defined.

(** The N3 [Store] as the sequence in which it enumerates its quads.  A
    store holds no quad twice.  The sequence is the one of the store's
    subject index, which the calls [getQuads(null, null, null, null)],
    [getQuads(s, null, null, null)] and [getQuads(s, p, null, null)]
    follow; it is not the order in which the quads were added.  How a
    store orders the quads it is given is the library's matter: see
    [n3_store] among the platform services. *)
Definition Store := list Quad.

(** A [null] argument of [getQuads] matches every term. *)
Definition matches (pat : option Term) (t : Term) : bool :=
  match pat with
  | None => true
  | Some x => bool_decide (x = t)
  end.

(** [getQuads] with a pattern: the quads of the store that match, in the
    sequence of the store.  This is the order in which N3 yields them when
    the subject is given, or nothing is: so in [pickFirstLiteral], in
    [writeTinyTermFile] and for the serialisation.  For the one call with
    the predicate alone, in [findClassesAndProperties], N3 follows its
    predicate index; there the quads go into two sets that are sorted by
    code units afterwards, so that only which quads match bears on the
    result. *)
Definition getQuads (s p o g : option Term) (store : Store) : list Quad :=
  List.filter
    (fun q => matches s (subject q) && matches p (predicate q)
              && matches o (object q) && matches g (graph q))
    store.

End Graph.

(* ===================================================================== *)
(** * Records of the pipeline, the file system and the platform           *)
(* ===================================================================== *)

Module Types.
Import Graph Rdf.

(** *** lov.ts *)

Record LovListEntry := mkLovListEntry
  { e_prefix : option string; e_vocab : option string;
    e_uri : option string; e_nsp : option string;
    e_namespace : option string; e_title : option string }.

(** [issued] is declared a string, but the code tests its type: [None]
    is an absent or non-string value. *)
Record LovInfoVersion := mkVersion
  { v_fileURL : option string; v_issued : option string }.

Record LovInfo := mkLovInfo { versions : option (list LovInfoVersion) }.

Record VocabItem := mkVocab
  { prefix : string; uri : string; namespace : option string;
    title : option string }.

Record Latest := mkLatest { fileURL : string; issued : string }.

(** *** terms.ts *)

Record TermInfo := mkTermInfo
  { iri : string; href : string;
    label : option string; description : option string }.

(** *** mirror.ts *)

Record Convert := mkConvert { c_ok : bool; c_reason : option string }.

Record Meta := mkMeta
  { m_prefix : string; m_uri : string; m_namespace : option string;
    lovLatestFileURL : string; lovLatestIssued : string;
    fetchedAt : string; fetchedFrom : string;
    m_ok : bool; m_status : Z; m_contentType : option string;
    m_finalUrl : string; m_skipped : option bool;
    convert : option Convert; m_error : option string }.

Record ResultItem := mkResult
  { r_prefix : string; r_uri : string; r_namespace : option string;
    r_lovLatestFileURL : option string; r_lovLatestIssued : option string;
    ok : bool; status : Z; finalUrl : option string;
    fileByPrefix : option string; fileByUri : option string;
    skipped : bool; note : option string;
    classCount : option nat; propertyCount : option nat;
    classLinks : option (list TermInfo);
    propLinks : option (list TermInfo) }.

(** *** The mirror tree *)

(** A path is the list of its segments below [OUT_ROOT]. *)
Definition Path := list string.

(** The pages of html.ts, as the arguments their template is filled
    with. *)
Inductive Page :=
| GlobalIndexPage (outFilename : string)
| NamespacesIndexPage (namespaces : list (string * nat))
| PerOntologyIndexPage (prefix outFilename : string)
    (classLinks propLinks : list TermInfo).

Inductive FileContent :=
| TextFile (text : string)
| HtmlFile (page : Page)
| MetaFile (meta : Meta)
| IndexFile (generatedAt : string) (count okCount skippedCount : nat)
    (items : list ResultItem)
| NamespaceIndexFile (ns : string) (count : nat) (items : list ResultItem).

Inductive Event :=
| EvMkdir (p : Path)
| EvWriteFile (p : Path) (c : FileContent)
| EvFetchJson (url : string)
| EvFetchText (url : string)
| EvConvert (contentType : option string) (sourceUrl : string).

(** Directories are created on demand and are not tracked; calls of the
    file system are taken not to fail. *)
Record World := mkWorld
  { files : gmap (list string) FileContent; trace : list Event }.

(** *** Platform services *)

Inductive Outcome (A : Type) :=
| Returned (a : A)
| Thrown (message : string).
Arguments Returned {A} a.
Arguments Thrown {A} message.

(** What [fetch] answers: it rejects, or resolves to a response.  The
    body of a JSON response is [None] when [res.json()] rejects. *)
Inductive Reply (B : Type) :=
| NetworkError (message : string)
| Response (status : Z) (contentType : option string) (url : string)
    (body : B).
Arguments NetworkError {B} message.
Arguments Response {B} status contentType url body.

Record Platform := mkPlatform
  { http_list : string -> Reply (option (list LovListEntry));
    http_info : string -> Reply (option LovInfo);
    http_text : string -> Reply string;
    (** [Date.parse]; [None] is [NaN]. *)
    date_parse : string -> option Z;
    (** [new Date().toISOString()]. *)
    now : string;
    localeCompare : string -> string -> Z;
    (** [new Parser({format, baseIRI}).parse(text)]: the quads, or the
        message of the error it throws. *)
    n3_parse : N3Format -> string -> string -> list Quad + string;
    (** [new Store()] followed by [addQuads(quads)]: the store filled with
        the quads, as the sequence in which it enumerates them. *)
    n3_store : list Quad -> Store;
    (** The Turtle an N3 [Writer] produces for a list of quads. *)
    n3_write : list Quad -> string }.

(** *** Effects: a state monad over the world *)

Definition M (A : Type) : Type := World -> A * World.

Definition ret {A} (a : A) : M A := fun w => (a, w).

Definition bind {A B} (c : M A) (k : A -> M B) : M B :=
  fun w => let '(a, w') := c w in k a w'.

Definition emit (e : Event) : M unit :=
  fun w => (tt, {| files := files w; trace := trace w ++ [e] |}).

Definition get_file (p : Path) : M (option FileContent) :=
  fun w => (files w !! p, w).

Definition put_file (p : Path) (c : FileContent) : M unit :=
  fun w => (tt, {| files := <[p := c]> (files w);
                   trace := trace w ++ [EvWriteFile p c] |}).

End Types.

Declare Scope monad_scope.
Delimit Scope monad_scope with monad.
Notation "x <- c ;; k" := (Types.bind c (fun x => k))
  (at level 100, c at next level, right associativity) : monad_scope.
Notation "c ;;; k" := (Types.bind c (fun _ => k))
  (at level 100, right associativity) : monad_scope.

(* ===================================================================== *)
(** * config.ts and fsutil.ts                                             *)
(* ===================================================================== *)

Module Config.
Import Encode.

Definition LOV_LIST_URL : string :=
  "https://lov.linkeddata.es/dataset/lov/api/v2/vocabulary/list".

Definition LOV_INFO_URL (prefix : string) : string :=
  "https://lov.linkeddata.es/dataset/lov/api/v2/vocabulary/info?vocab="
  ++ encodeURIComponent_str prefix.

Definition OUT_FILENAME : string := "ontology.ttl".
End Config.

Module Fsutil.
Import Types.
Local Open Scope monad_scope.

(** [path.join(base, seg)]: the empty segment and [.] are dropped, [..]
    removes the last segment.  No segment the pipeline passes contains
    a separator. *)
Definition join1 (base : Path) (seg : string) : Path :=
  if String.eqb seg "" || String.eqb seg "." then base
  else if String.eqb seg ".." then removelast base
  else base ++ [seg].

Definition path_join (base : Path) (segs : list string) : Path :=
  fold_left join1 segs base.

Definition dirname (p : Path) : Path := removelast p.

Definition ensureDir (p : Path) : M unit := emit (EvMkdir p).

Definition fileExists (p : Path) : M bool :=
  c <- get_file p ;; ret (bool_decide (is_Some c)).

(** [readJsonIfExists<Meta>]: [null] when the file is missing or is not
    JSON.  A JSON document of another shape has none of the fields the
    pipeline reads from a meta record and is read as [null] too. *)
Definition readJsonIfExists (p : Path) : M (option Meta) :=
  c <- get_file p ;;
  ret (match c with Some (MetaFile m) => Some m | _ => None end).

Definition writeJson (p : Path) (obj : FileContent) : M unit :=
  ensureDir (dirname p) ;;; put_file p obj.

Definition writeText (p : Path) (text : string) : M unit :=
  ensureDir (dirname p) ;;; put_file p (TextFile text).

Definition writeHtml (p : Path) (page : Page) : M unit :=
  ensureDir (dirname p) ;;; put_file p (HtmlFile page).

End Fsutil.

(* ===================================================================== *)
(** * http.ts: the two fetchers                                           *)
(* ===================================================================== *)

Module Fetch.
Import Types.
Local Open Scope monad_scope.

Definition show_Z (z : Z) : string := NilZero.string_of_int (Z.to_int z).

(** [Response.ok]: a status in the range 200-299. *)
Definition res_ok (status : Z) : bool :=
  ((200 <=? status) && (status <=? 299))%Z.

(** [fetchJson] throws on a network error, on a status that is not ok
    and on a body that is not JSON. *)
Definition fetchJson {T} (net : string -> Reply (option T)) (url : string)
  : M (Outcome T) :=
  emit (EvFetchJson url) ;;;
  ret (match net url with
       | NetworkError msg => Thrown msg
       | Response st _ _ body =>
           if res_ok st
           then match body with
                | Some t => Returned t
                | None => Thrown "Unexpected token in JSON"
                end
           else Thrown ("Fetch failed " ++ show_Z st ++ " for " ++ url)
       end).

Record FetchResult := mkFetchResult
  { fr_ok : bool; fr_status : Z; fr_contentType : option string;
    fr_text : option string; fr_finalUrl : string;
    fr_error : option string }.

(** The result [fetchText] makes of what [fetch] answered. *)
Definition text_result (url : string) (reply : Reply string) : FetchResult :=
  match reply with
  | Response st ct final body =>
      if negb (res_ok st)
      then mkFetchResult false st ct None final None
      else mkFetchResult true st ct (Some body) final None
  | NetworkError msg => mkFetchResult false 0 None None url (Some msg)
  end.

(** [fetchText] never throws: a failure is a result with [ok = false]. *)
Definition fetchText (P : Platform) (url : string) : M FetchResult :=
  emit (EvFetchText url) ;;;
  ret (text_result url (http_text P url)).

End Fetch.

(* ===================================================================== *)
(** * lov.ts: the registry                                                *)
(* ===================================================================== *)

Module Lov.
Import JsString Types Fetch.
Local Open Scope monad_scope.

(** [a || b] on values that are strings or absent. *)
Definition or_else (a b : option string) : option string :=
  match a with
  | Some x => if truthy x then a else b
  | None => b
  end.

Definition truthy_opt (a : option string) : bool :=
  match a with Some x => truthy x | None => false end.

Definition pickPrefix (v : LovListEntry) : option string :=
  or_else (e_prefix v) (or_else (e_vocab v) None).
Definition pickUri (v : LovListEntry) : option string :=
  or_else (e_uri v) None.
Definition pickNamespace (v : LovListEntry) : option string :=
  or_else (e_nsp v) (or_else (e_namespace v) None).

Definition fetchLovList (P : Platform) : M (Outcome (list VocabItem)) :=
  r <- fetchJson (http_list P) Config.LOV_LIST_URL ;;
  ret (match r with
       | Thrown msg => Thrown msg
       | Returned list =>
           Returned
             (omap (fun v =>
                      match pickPrefix v, pickUri v with
                      | Some prefix, Some uri =>
                          Some (mkVocab prefix uri (pickNamespace v)
                                  (e_title v))
                      | _, _ => None
                      end) list)
       end).

(** A version that passed the first filter, with its parsed time. *)
Record Candidate := mkCandidate
  { c_fileURL : string; c_issued : string; c_issuedMs : option Z }.

Definition usable (v : LovInfoVersion) : bool :=
  truthy_opt (v_fileURL v) && truthy_opt (v_issued v).

Definition to_candidate (P : Platform) (v : LovInfoVersion) : Candidate :=
  let issued := default "" (v_issued v) in
  mkCandidate (default "" (v_fileURL v)) issued (date_parse P issued).

(** [Number.isFinite]: a time value is an integer or [NaN]. *)
Definition isFinite (x : option Z) : bool := bool_decide (is_Some x).

(** [b.issuedMs - a.issuedMs]; [sort] reads a [NaN] as [0]. *)
Definition newest_first (a b : Candidate) : Z :=
  match c_issuedMs a, c_issuedMs b with
  | Some x, Some y => (y - x)%Z
  | _, _ => 0%Z
  end.

Definition candidates (P : Platform) (info : LovInfo) : list Candidate :=
  List.filter (fun x => isFinite (c_issuedMs x))
    (map (to_candidate P)
       (List.filter usable (default [] (versions info)))).

(** The part of [extractLatestVersion] after the registry answered. *)
Definition latest_of (P : Platform) (info : LovInfo) : option Latest :=
  match JsArray.sort newest_first (candidates P info) with
  | [] => None
  | c :: _ => Some (mkLatest (c_fileURL c) (c_issued c))
  end.

Definition extractLatestVersion (P : Platform) (prefix : string)
  : M (Outcome (option Latest)) :=
  r <- fetchJson (http_info P) (Config.LOV_INFO_URL prefix) ;;
  ret (match r with
       | Thrown msg => Thrown msg
       | Returned info => Returned (latest_of P info)
       end).

End Lov.

(* ===================================================================== *)
(** * rdf.ts: parsing and serialising                                     *)
(* ===================================================================== *)

Module Convert.
Import JsString Rdf Graph Types.
Local Open Scope monad_scope.

Inductive ParseResult :=
| ParseOk (store : Store) (ttl : string)
| ParseFailed (reason : string).

Definition unsupported_reason (ct : option string) (url : string) : string :=
  "Unsupported format: " ++ default "unknown" ct ++ " (" ++ url ++ ")".

Definition parse_failed_reason (f : N3Format) (message : string) : string :=
  "Parse failed (" ++ format_name f ++ "): " ++ message.

(** The body of [parseAndSerializeToTurtle]: detect, parse (an error the
    parser throws is caught), serialise. *)
Definition conversion (P : Platform)
  (inputText : string) (inputContentType : option string)
  (baseIRI sourceUrl : string) : ParseResult :=
  match n3FormatFor inputContentType sourceUrl with
  | None => ParseFailed (unsupported_reason inputContentType sourceUrl)
  | Some format =>
      match n3_parse P format baseIRI inputText with
      | inr message => ParseFailed (parse_failed_reason format message)
      | inl quads =>
          let store := n3_store P quads in
          ParseOk store (n3_write P (getQuads None None None None store))
      end
  end.

Definition parseAndSerializeToTurtle (P : Platform)
  (inputText : string) (inputContentType : option string)
  (baseIRI sourceUrl : string) : M ParseResult :=
  emit (EvConvert inputContentType sourceUrl) ;;;
  ret (conversion P inputText inputContentType baseIRI sourceUrl).

End Convert.

(* ===================================================================== *)
(** * terms.ts: classification, summaries and tiny term files             *)
(* ===================================================================== *)

Module Terms.
Import JsString Graph Types Fsutil Encode.
Local Open Scope monad_scope.

Definition RDF : string := "http://www.w3.org/1999/02/22-rdf-syntax-ns#".
Definition RDFS : string := "http://www.w3.org/2000/01/rdf-schema#".
Definition OWL : string := "http://www.w3.org/2002/07/owl#".
Definition SKOS : string := "http://www.w3.org/2004/02/skos/core#".
Definition DCT : string := "http://purl.org/dc/terms/".

Definition rdfType : Term := NamedNode (RDF +:+ "type").

Definition CLASS_TYPES : list string := [OWL +:+ "Class"; RDFS +:+ "Class"].

Definition PROPERTY_TYPES : list string :=
  [ RDF +:+ "Property";
    OWL +:+ "ObjectProperty";
    OWL +:+ "DatatypeProperty";
    OWL +:+ "AnnotationProperty";
    OWL +:+ "FunctionalProperty";
    OWL +:+ "InverseFunctionalProperty";
    OWL +:+ "TransitiveProperty";
    OWL +:+ "SymmetricProperty";
    OWL +:+ "AsymmetricProperty";
    OWL +:+ "ReflexiveProperty";
    OWL +:+ "IrreflexiveProperty" ].

Definition DEF_PREDICATES : list string :=
  [ RDF +:+ "type";
    RDFS +:+ "label"; RDFS +:+ "comment"; RDFS +:+ "isDefinedBy";
    RDFS +:+ "seeAlso";
    RDFS +:+ "subClassOf"; RDFS +:+ "subPropertyOf"; RDFS +:+ "domain";
    RDFS +:+ "range";
    OWL +:+ "equivalentClass"; OWL +:+ "equivalentProperty";
    OWL +:+ "inverseOf"; OWL +:+ "deprecated";
    SKOS +:+ "prefLabel"; SKOS +:+ "altLabel"; SKOS +:+ "definition";
    SKOS +:+ "scopeNote"; SKOS +:+ "example";
    DCT +:+ "title"; DCT +:+ "description" ].

(** [Set.prototype.has]. *)
Definition has (s : list string) (x : string) : bool :=
  bool_decide (x ∈ s).

Definition isNamedNodeIri (x : Term) : bool :=
  match x with NamedNode _ => true | _ => false end.

Definition litValue (x : Term) : option string :=
  match x with Literal v _ _ => Some v | _ => None end.

(** The loop of [pickFirstLiteral]: the first object that is a literal
    with a value that is not blank, trimmed. *)
Fixpoint first_literal (qs : list Quad) : option string :=
  match qs with
  | [] => None
  | q :: rest =>
      match litValue (object q) with
      | Some v => if truthy v && truthy (trim v) then Some (trim v)
                  else first_literal rest
      | None => first_literal rest
      end
  end.

Definition pickFirstLiteral (store : Store) (subjIri predicateIri : string)
  : option string :=
  first_literal
    (getQuads (Some (NamedNode subjIri)) (Some (NamedNode predicateIri))
       None None store).

(** [a ?? b]. *)
Definition nullish {A} (a b : option A) : option A :=
  match a with Some _ => a | None => b end.

Record Summary := mkSummary
  { s_label : option string; s_description : option string }.

Definition extractTermSummary (store : Store) (termIri : string) : Summary :=
  let label :=
    nullish (pickFirstLiteral store termIri (SKOS +:+ "prefLabel"))
      (nullish (pickFirstLiteral store termIri (RDFS +:+ "label"))
         (nullish (pickFirstLiteral store termIri (DCT +:+ "title")) None)) in
  let description :=
    nullish (pickFirstLiteral store termIri (SKOS +:+ "definition"))
      (nullish (pickFirstLiteral store termIri (RDFS +:+ "comment"))
         (nullish (pickFirstLiteral store termIri (DCT +:+ "description"))
            (nullish (pickFirstLiteral store termIri (SKOS +:+ "scopeNote"))
               None))) in
  mkSummary label description.

Record Found := mkFound { classes : list string; properties : list string }.

(** One turn of the loop over the [rdf:type] quads. *)
Definition classify_quad (acc : list string * list string) (q : Quad)
  : list string * list string :=
  match subject q, object q with
  | NamedNode s, NamedNode o =>
      (if has CLASS_TYPES o then JsArray.set_add s (fst acc) else fst acc,
       if has PROPERTY_TYPES o then JsArray.set_add s (snd acc)
       else snd acc)
  | _, _ => acc
  end.

Definition findClassesAndProperties (store : Store) : Found :=
  let acc :=
    fold_left classify_quad (getQuads None (Some rdfType) None None store)
      ([], []) in
  mkFound (JsArray.sort compare_units (fst acc))
    (JsArray.sort compare_units (snd acc)).

Inductive Kind := Classes | Properties.

Definition kind_name (k : Kind) : string :=
  match k with Classes => "classes" | Properties => "properties" end.

Definition tiny_filename (termIri : string) : string :=
  encUriSegment termIri ++ ".ttl".

Definition tiny_path (kind : Kind) (termIri : string) : Path :=
  path_join (path_join [] [kind_name kind]) [tiny_filename termIri].

(** The quads a tiny file holds: subject the term, predicate one of the
    definitional predicates. *)
Definition definitional (store : Store) (termIri : string) : list Quad :=
  List.filter
    (fun q => match predicate q with
              | NamedNode p => has DEF_PREDICATES p
              | _ => false
              end)
    (getQuads (Some (NamedNode termIri)) None None None store).

Definition writeTinyTermFile (P : Platform) (kind : Kind)
  (termIri : string) (store : Store) : M (option string) :=
  let folder := path_join [] [kind_name kind] in
  ensureDir folder ;;;
  let filename := tiny_filename termIri in
  let filePath := path_join folder [filename] in
  (* fast-path: if it exists, don't rewrite *)
  exists_ <- fileExists filePath ;;
  if exists_ then ret (Some (kind_name kind +:+ "/" +:+ filename))
  else
    let quads := definitional store termIri in
    match quads with
    | [] => ret None
    | _ =>
        writeText filePath (n3_write P quads) ;;;
        ret (Some (kind_name kind +:+ "/" +:+ filename))
    end.

End Terms.

(* ===================================================================== *)
(** * html.ts: the browsing pages                                         *)
(* ===================================================================== *)

Module Html.
Import Types Fsutil.
Local Open Scope monad_scope.

Definition writeGlobalIndexHtml (outFilename : string) : M unit :=
  writeHtml (path_join [] ["index.html"]) (GlobalIndexPage outFilename).

Definition writeNamespacesIndexHtml (namespaces : list (string * nat))
  : M unit :=
  let folder := path_join [] ["namespaces"] in
  ensureDir folder ;;;
  writeHtml (path_join folder ["index.html"]) (NamespacesIndexPage namespaces).

Definition writePerOntologyIndexHtml (prefixDir : Path)
  (prefix outFilename : string) (classLinks propLinks : list TermInfo)
  : M unit :=
  writeHtml (path_join prefixDir ["index.html"])
    (PerOntologyIndexPage prefix outFilename classLinks propLinks).

End Html.

(* ===================================================================== *)
(** * mirror.ts: the pipeline                                             *)
(* ===================================================================== *)

Module Mirror.
Import JsString Graph Types Fsutil Encode Fetch Lov Convert Terms Html.
Import Config.
Local Open Scope monad_scope.

Definition prefixDir_of (v : VocabItem) : Path :=
  path_join [] ["by-prefix"; encPrefixSegment (prefix v)].

Definition uriDir_of (v : VocabItem) : Path :=
  path_join [] ["by-uri"; encUriSegment (uri v)].

Definition fileByPrefix_of (v : VocabItem) : string :=
  "by-prefix/" ++ encodeURIComponent_str (prefix v) ++ "/" ++ OUT_FILENAME.

Definition fileByUri_of (v : VocabItem) : string :=
  "by-uri/" ++ encUriSegment (uri v) ++ "/" ++ OUT_FILENAME.

Definition prefixMetaPath (v : VocabItem) : Path :=
  path_join (prefixDir_of v) ["meta.json"].

Definition prefixOntPath (v : VocabItem) : Path :=
  path_join (prefixDir_of v) [OUT_FILENAME].

Definition uriMetaPath (v : VocabItem) : Path :=
  path_join (uriDir_of v) ["meta.json"].

Definition uriOntPath (v : VocabItem) : Path :=
  path_join (uriDir_of v) [OUT_FILENAME].

(** The cache check of step 2. *)
Definition isUpToDate (hasFile : bool) (existingMeta : option Meta)
  (latest : Latest) : bool :=
  hasFile
  && strict_eq (lovLatestFileURL <$> existingMeta) (fileURL latest)
  && strict_eq (lovLatestIssued <$> existingMeta) (issued latest)
  && bool_decide (c_ok <$> (existingMeta ≫= convert) = Some true).

(** One of the two loops over the term IRIs: a tiny file per term and a
    link for every term that has one. *)
Fixpoint termLinks (P : Platform) (kind : Kind) (store : Store)
  (iris : list string) (links : list TermInfo) : M (list TermInfo) :=
  match iris with
  | [] => ret links
  | iri :: rest =>
      href <- writeTinyTermFile P kind iri store ;;
      match href with
      | None => termLinks P kind store rest links
      | Some href =>
          let s := extractTermSummary store iri in
          termLinks P kind store rest
            (links ++ [mkTermInfo iri href (s_label s) (s_description s)])
      end
  end.

(** What step 3 leaves in the local variables of [processOne]. *)
Record Converted := mkConverted
  { fileByPrefix' : option string; fileByUri' : option string;
    convertOk : bool; convertReason : option string;
    classLinks' : list TermInfo; propLinks' : list TermInfo }.

Definition not_converted (reason : option string) : Converted :=
  mkConverted None None false reason [] [].

Definition download (P : Platform) (v : VocabItem) (latest : Latest)
  (fr : FetchResult) : M Converted :=
  match fr_ok fr, fr_text fr with
  | true, Some text =>
      conv <- parseAndSerializeToTurtle P text (fr_contentType fr) (uri v)
                (fileURL latest) ;;
      match conv with
      | ParseOk store ttl =>
          (* Write ontology.ttl into both places *)
          writeText (prefixOntPath v) ttl ;;;
          writeText (uriOntPath v) ttl ;;;
          (* Extract classes/properties + write tiny files *)
          let found := findClassesAndProperties store in
          classLinks <- termLinks P Classes store (classes found) [] ;;
          propLinks <- termLinks P Properties store (properties found) [] ;;
          (* Per-ontology index.html *)
          writePerOntologyIndexHtml (prefixDir_of v) (prefix v) OUT_FILENAME
            classLinks propLinks ;;;
          ret (mkConverted (Some (fileByPrefix_of v)) (Some (fileByUri_of v))
                 true None classLinks propLinks)
      | ParseFailed reason => ret (not_converted (Some reason))
      end
  | _, _ => ret (not_converted None)
  end.

Definition unresolved_note : string :=
  "Could not fetch LOV info or no versions/fileURL".

(** The three result records of [processOne] and the meta record it
    writes, as the object literals of the source. *)
Definition unresolved_result (v : VocabItem) : ResultItem :=
  mkResult (prefix v) (uri v) (namespace v) None None
    false 0 None None None false (Some unresolved_note)
    None None None None.

Definition cached_result (v : VocabItem) (latest : Latest)
  (existingMeta : option Meta) : ResultItem :=
  mkResult (prefix v) (uri v) (namespace v)
    (Some (fileURL latest)) (Some (issued latest))
    true 304 (m_finalUrl <$> existingMeta)
    (Some (fileByPrefix_of v)) (Some (fileByUri_of v))
    true None None None None None.

Definition meta_record (P : Platform) (v : VocabItem) (latest : Latest)
  (fr : FetchResult) (c : Converted) : Meta :=
  mkMeta (prefix v) (uri v) (namespace v)
    (fileURL latest) (issued latest) (now P) (fileURL latest)
    (fr_ok fr) (fr_status fr) (fr_contentType fr) (fr_finalUrl fr)
    None (Some (mkConvert (convertOk c) (convertReason c)))
    (fr_error fr).

Definition fetched_result (v : VocabItem) (latest : Latest)
  (fr : FetchResult) (c : Converted) : ResultItem :=
  mkResult (prefix v) (uri v) (namespace v)
    (Some (fileURL latest)) (Some (issued latest))
    (fr_ok fr && convertOk c)
    (if fr_ok fr then (if convertOk c then fr_status fr else 422)
     else fr_status fr)
    (Some (fr_finalUrl fr))
    (fileByPrefix' c) (fileByUri' c)
    false (nullish (convertReason c) (fr_error fr))
    (Some (length (classLinks' c)))
    (Some (length (propLinks' c)))
    (Some (classLinks' c)) (Some (propLinks' c)).

(** Step 3 and what follows it: download, convert, record. *)
Definition refetch (P : Platform) (v : VocabItem) (latest : Latest)
  : M ResultItem :=
  fr <- fetchText P (fileURL latest) ;;
  c <- download P v latest fr ;;
  let meta := meta_record P v latest fr c in
  writeJson (prefixMetaPath v) (MetaFile meta) ;;;
  writeJson (uriMetaPath v) (MetaFile meta) ;;;
  ret (fetched_result v latest fr c).

Definition processOne (P : Platform) (v : VocabItem) : M ResultItem :=
  ensureDir (prefixDir_of v) ;;;
  ensureDir (uriDir_of v) ;;;
  (* 1) Determine latest LOV file *)
  r <- extractLatestVersion P (prefix v) ;;
  let latest := match r with Returned l => l | Thrown _ => None end in
  match latest with
  | None => ret (unresolved_result v)
  | Some latest =>
      (* 2) Cache check: meta + ontology.ttl and convert ok *)
      existingMeta <- readJsonIfExists (prefixMetaPath v) ;;
      hasFile <- fileExists (prefixOntPath v) ;;
      if isUpToDate hasFile existingMeta latest
      then ret (cached_result v latest existingMeta)
      else refetch P v latest
  end.


(** The namespace map: a [Map] keeps its keys in insertion order. *)
Fixpoint ns_push (nsMap : list (string * list ResultItem)) (ns : string)
  (r : ResultItem) : list (string * list ResultItem) :=
  match nsMap with
  | [] => [(ns, [r])]
  | (k, arr) :: rest =>
      if String.eqb k ns then (k, arr ++ [r]) :: rest
      else (k, arr) :: ns_push rest ns r
  end.

Definition group_step (nsMap : list (string * list ResultItem))
  (r : ResultItem) : list (string * list ResultItem) :=
  match r_namespace r with
  | Some ns => if truthy ns then ns_push nsMap ns r else nsMap
  | None => nsMap
  end.

Definition group_by_namespace (results : list ResultItem)
  : list (string * list ResultItem) :=
  fold_left group_step results [].

Fixpoint writeNamespaceIndexes (nsMap : list (string * list ResultItem))
  : M unit :=
  match nsMap with
  | [] => ret tt
  | (ns, arr) :: rest =>
      let nsDir := path_join [] ["namespaces"; encUriSegment ns] in
      ensureDir nsDir ;;;
      writeJson (path_join nsDir ["index.json"])
        (NamespaceIndexFile ns (length arr) arr) ;;;
      writeNamespaceIndexes rest
  end.

Definition by_prefix (P : Platform) (a b : ResultItem) : Z :=
  localeCompare P (r_prefix a) (r_prefix b).

(** The index aggregator: the part of [run] after the workers.  The part
    of [main] in fetch-lov.ts after its workers has the same statements
    for the sort and the JSON summaries. *)
Definition writeIndexes (P : Platform) (results : list ResultItem)
  : M unit :=
  let results := JsArray.sort (by_prefix P) results in
  (* Global index.json *)
  writeJson (path_join [] ["index.json"])
    (IndexFile (now P) (length results)
       (length (List.filter ok results))
       (length (List.filter skipped results))
       results) ;;;
  (* Namespace grouping *)
  let nsMap := group_by_namespace results in
  writeNamespaceIndexes nsMap ;;;
  (* Namespaces index.html *)
  let nsList :=
    JsArray.sort (fun a b => localeCompare P (fst a) (fst b))
      (map (fun e => (fst e, length (snd e))) nsMap) in
  writeNamespacesIndexHtml nsList ;;;
  (* Global index.html *)
  writeGlobalIndexHtml OUT_FILENAME.

(** The part of [run] before the workers: the directories and the list
    of vocabularies. *)
Definition setup (P : Platform) : M (Outcome (list VocabItem)) :=
  ensureDir [] ;;;
  ensureDir (path_join [] ["by-prefix"]) ;;;
  ensureDir (path_join [] ["by-uri"]) ;;;
  ensureDir (path_join [] ["namespaces"]) ;;;
  ensureDir (path_join [] ["classes"]) ;;;
  ensureDir (path_join [] ["properties"]) ;;;
  fetchLovList P.

End Mirror.

(* ===================================================================== *)
(** * mirror.ts: the pool of workers                                      *)
(* ===================================================================== *)

(** The workers of [run] are asynchronous functions on one thread: a
    worker runs until it awaits an operation of the file system or of the
    network, and then any worker whose operation has completed goes on.
    So the passes of several vocabularies interleave, operation by
    operation.  Here the functions of the pipeline are given once more,
    as the sequence of the operations they await; run without
    interruption they are the functions of the modules above (see
    [uninterrupted]). *)
Module Steps.
Import JsString Graph Types Encode Fetch Lov Convert Terms Mirror Config.

(** An asynchronous computation: it has returned [a], or it awaits an
    operation.  The operation changes the world by [effect]; the
    computation then goes on as [rest w], where [w] is the world the
    operation found. *)
Inductive Task (A : Type) : Type :=
| Done (a : A)
| Await (effect : World -> World) (rest : World -> Task A).
Arguments Done {A} a.
Arguments Await {A} effect rest.

(** [await c]: one operation, atomic. *)
Definition await {A} (c : M A) : Task A :=
  Await (fun w => snd (c w)) (fun w => Done (fst (c w))).

Fixpoint andThen {A B} (t : Task A) (k : A -> Task B) : Task B :=
  match t with
  | Done a => k a
  | Await effect rest => Await effect (fun w => andThen (rest w) k)
  end.

(** The computation run to its end with no other computation in
    between. *)
Fixpoint uninterrupted {A} (t : Task A) (w : World) : A * World :=
  match t with
  | Done a => (a, w)
  | Await effect rest => uninterrupted (rest w) (effect w)
  end.

End Steps.

Declare Scope task_scope.
Delimit Scope task_scope with task.
Notation "x <- c ;; k" := (Steps.andThen c (fun x => k))
  (at level 100, c at next level, right associativity) : task_scope.
Notation "c ;;; k" := (Steps.andThen c (fun _ => k))
  (at level 100, right associativity) : task_scope.

Module Pool.
Import JsString Graph Types Encode Fetch Lov Convert Terms Mirror Config.
Import Steps.
Local Open Scope task_scope.

(** ** fsutil.ts, http.ts, lov.ts, rdf.ts: one operation each, or two

    An [await] that neither reads nor changes the mirror ([res.text()]
    after [fetch], the end of the [Writer]) is taken together with the
    operation before it. *)

Definition ensureDir (p : Path) : Task unit := await (Fsutil.ensureDir p).

Definition fileExists (p : Path) : Task bool := await (Fsutil.fileExists p).

Definition readJsonIfExists (p : Path) : Task (option Meta) :=
  await (Fsutil.readJsonIfExists p).

Definition writeJson (p : Path) (obj : FileContent) : Task unit :=
  ensureDir (Fsutil.dirname p) ;;; await (put_file p obj).

Definition writeText (p : Path) (text : string) : Task unit :=
  ensureDir (Fsutil.dirname p) ;;; await (put_file p (TextFile text)).

Definition writeHtml (p : Path) (page : Page) : Task unit :=
  ensureDir (Fsutil.dirname p) ;;; await (put_file p (HtmlFile page)).

Definition fetchText (P : Platform) (url : string) : Task FetchResult :=
  await (Fetch.fetchText P url).

Definition extractLatestVersion (P : Platform) (prefix : string)
  : Task (Outcome (option Latest)) :=
  await (Lov.extractLatestVersion P prefix).

Definition parseAndSerializeToTurtle (P : Platform)
  (inputText : string) (inputContentType : option string)
  (baseIRI sourceUrl : string) : Task ParseResult :=
  await (Convert.parseAndSerializeToTurtle P inputText inputContentType
           baseIRI sourceUrl).

(** ** terms.ts and html.ts *)

Definition writeTinyTermFile (P : Platform) (kind : Kind)
  (termIri : string) (store : Store) : Task (option string) :=
  let folder := Fsutil.path_join [] [kind_name kind] in
  ensureDir folder ;;;
  let filename := tiny_filename termIri in
  let filePath := Fsutil.path_join folder [filename] in
  (* fast-path: if it exists, don't rewrite *)
  exists_ <- fileExists filePath ;;
  if exists_ then Done (Some (kind_name kind +:+ "/" +:+ filename))
  else
    let quads := definitional store termIri in
    match quads with
    | [] => Done None
    | _ =>
        writeText filePath (n3_write P quads) ;;;
        Done (Some (kind_name kind +:+ "/" +:+ filename))
    end.

Definition writePerOntologyIndexHtml (prefixDir : Path)
  (prefix outFilename : string) (classLinks propLinks : list TermInfo)
  : Task unit :=
  writeHtml (Fsutil.path_join prefixDir ["index.html"])
    (PerOntologyIndexPage prefix outFilename classLinks propLinks).

(** ** mirror.ts *)

Fixpoint termLinks (P : Platform) (kind : Kind) (store : Store)
  (iris : list string) (links : list TermInfo) : Task (list TermInfo) :=
  match iris with
  | [] => Done links
  | iri :: rest =>
      href <- writeTinyTermFile P kind iri store ;;
      match href with
      | None => termLinks P kind store rest links
      | Some href =>
          let s := extractTermSummary store iri in
          termLinks P kind store rest
            (links ++ [mkTermInfo iri href (s_label s) (s_description s)])
      end
  end.

Definition download (P : Platform) (v : VocabItem) (latest : Latest)
  (fr : FetchResult) : Task Converted :=
  match fr_ok fr, fr_text fr with
  | true, Some text =>
      conv <- parseAndSerializeToTurtle P text (fr_contentType fr) (uri v)
                (fileURL latest) ;;
      match conv with
      | ParseOk store ttl =>
          (* Write ontology.ttl into both places *)
          writeText (prefixOntPath v) ttl ;;;
          writeText (uriOntPath v) ttl ;;;
          (* Extract classes/properties + write tiny files *)
          let found := findClassesAndProperties store in
          classLinks <- termLinks P Classes store (classes found) [] ;;
          propLinks <- termLinks P Properties store (properties found) [] ;;
          (* Per-ontology index.html *)
          writePerOntologyIndexHtml (prefixDir_of v) (prefix v) OUT_FILENAME
            classLinks propLinks ;;;
          Done (mkConverted (Some (fileByPrefix_of v))
                  (Some (fileByUri_of v)) true None classLinks propLinks)
      | ParseFailed reason => Done (not_converted (Some reason))
      end
  | _, _ => Done (not_converted None)
  end.

Definition refetch (P : Platform) (v : VocabItem) (latest : Latest)
  : Task ResultItem :=
  fr <- fetchText P (fileURL latest) ;;
  c <- download P v latest fr ;;
  let meta := meta_record P v latest fr c in
  writeJson (prefixMetaPath v) (MetaFile meta) ;;;
  writeJson (uriMetaPath v) (MetaFile meta) ;;;
  Done (fetched_result v latest fr c).

Definition processOne (P : Platform) (v : VocabItem) : Task ResultItem :=
  ensureDir (prefixDir_of v) ;;;
  ensureDir (uriDir_of v) ;;;
  (* 1) Determine latest LOV file *)
  r <- extractLatestVersion P (prefix v) ;;
  let latest := match r with Returned l => l | Thrown _ => None end in
  match latest with
  | None => Done (unresolved_result v)
  | Some latest =>
      (* 2) Cache check: meta + ontology.ttl and convert ok *)
      existingMeta <- readJsonIfExists (prefixMetaPath v) ;;
      hasFile <- fileExists (prefixOntPath v) ;;
      if isUpToDate hasFile existingMeta latest
      then Done (cached_result v latest existingMeta)
      else refetch P v latest
  end.

(** ** The workers of [run]

    A worker is at the head of its loop, or it awaits the pass of the
    vocabulary [v] it took, or it has returned. *)
Inductive Worker :=
| AtLoopHead
| Awaiting (v : VocabItem) (pass : Task ResultItem)
| Finished.

(** The variables the pool share, the world, and the workers. *)
Record State := mkState
  { next : nat; results : list ResultItem; world : World;
    pool : list Worker }.

(** The start of [Promise.all]: CONCURRENCY workers, none of which has
    taken a vocabulary yet. *)
Definition start (CONCURRENCY : nat) (w : World) : State :=
  mkState 0 [] w (replicate CONCURRENCY AtLoopHead).

(** Worker [j] goes on until it awaits again: at the head of the loop it
    takes the next index, and returns when the list is exhausted or
    starts the pass of the vocabulary; when the operation it awaits has
    completed, it goes on with its pass; when the pass has returned, it
    pushes the result and is at the head of the loop again.  A worker
    that has returned, or that does not exist, does nothing. *)
Definition turn (P : Platform) (vocabs : list VocabItem) (j : nat)
  (s : State) : State :=
  match pool s !! j with
  | Some AtLoopHead =>
      (* const i = next++; if (i >= vocabs.length) return; *)
      match vocabs !! next s with
      | None =>
          mkState (S (next s)) (results s) (world s)
            (<[j := Finished]> (pool s))
      | Some v =>
          mkState (S (next s)) (results s) (world s)
            (<[j := Awaiting v (processOne P v)]> (pool s))
      end
  | Some (Awaiting v (Await effect rest)) =>
      mkState (next s) (results s) (effect (world s))
        (<[j := Awaiting v (rest (world s))]> (pool s))
  | Some (Awaiting v (Done r)) =>
      (* results.push(r) *)
      mkState (next s) (results s ++ [r]) (world s)
        (<[j := AtLoopHead]> (pool s))
  | Some Finished | None => s
  end.

(** The workers taking turns in the order [schedule], which stands for
    the order in which their operations complete. *)
Definition turns (P : Platform) (vocabs : list VocabItem)
  (schedule : list nat) (s : State) : State :=
  fold_left (fun s j => turn P vocabs j s) schedule s.

(** [Promise.all] has resolved: every worker has returned. *)
Definition settled (s : State) : bool :=
  forallb (fun k => match k with Finished => true | _ => false end)
    (pool s).

(** [run] with CONCURRENCY workers whose operations complete in the order
    [schedule]; [None] when the schedule ends before the workers have
    returned. *)
Definition run (P : Platform) (CONCURRENCY : nat) (schedule : list nat)
  (w : World) : option (Outcome unit * World) :=
  let '(vocabs, w0) := setup P w in
  match vocabs with
  | Thrown msg => Some (Thrown msg, w0)
  | Returned vocabs =>
      let s := turns P vocabs schedule (start CONCURRENCY w0) in
      if settled s
      then Some (Returned tt, snd (writeIndexes P (results s) (world s)))
      else None
  end.

End Pool.

(* ===================================================================== *)
(** * fetch-lov.ts: the monolithic script                                 *)
(* ===================================================================== *)

(** The first version of the mirror, in one file: the same pass over a
    vocabulary without term extraction and browsing pages.  Its helpers
    [fetchJson], [fetchText], [extractLatestVersion] and the cache check
    are, line by line, those of the modules above. *)
Module Monolith.
Import JsString Graph Types Fsutil Encode Fetch Lov Rdf Config.
Local Open Scope monad_scope.

Definition safeEncodeSegment (s : string) : string := encodeURIComponent_str s.

Inductive Conversion :=
| Converted (ttl : string)
| NotConverted (reason : string).

Definition unsupported_reason (ct : option string) (url : string) : string :=
  "Unsupported format (content-type/ext): " ++ default "unknown" ct
  ++ " (" ++ url ++ ")".

(** The body of [convertToTurtleN3]. *)
Definition conversion (P : Platform) (inputText : string)
  (inputContentType : option string) (baseIRI sourceUrl : string)
  : Conversion :=
  match n3FormatFor_monolith inputContentType sourceUrl with
  | None => NotConverted (unsupported_reason inputContentType sourceUrl)
  | Some format =>
      match n3_parse P format baseIRI inputText with
      | inr message =>
          NotConverted (Convert.parse_failed_reason format message)
      | inl quads =>
          Converted
            (n3_write P
               (getQuads None None None None (n3_store P quads)))
      end
  end.

Definition convertToTurtleN3 (P : Platform) (inputText : string)
  (inputContentType : option string) (baseIRI sourceUrl : string)
  : M Conversion :=
  emit (EvConvert inputContentType sourceUrl) ;;;
  ret (conversion P inputText inputContentType baseIRI sourceUrl).

(** [writeFile], without the [ensureDir] of [writeText]. *)
Definition writeFile (p : Path) (text : string) : M unit :=
  put_file p (TextFile text).

Definition prefixDir_of (v : VocabItem) : Path :=
  path_join [] ["by-prefix"; safeEncodeSegment (prefix v)].

Definition uriDir_of (v : VocabItem) : Path :=
  path_join [] ["by-uri"; safeEncodeSegment (uri v)].

Definition fileByPrefix_of (v : VocabItem) : string :=
  "by-prefix/" ++ encodeURIComponent_str (prefix v) ++ "/" ++ OUT_FILENAME.

Definition fileByUri_of (v : VocabItem) : string :=
  "by-uri/" ++ encodeURIComponent_str (uri v) ++ "/" ++ OUT_FILENAME.

(** The local variables after the download. *)
Record Downloaded := mkDownloaded
  { d_fileByPrefix : option string; d_fileByUri : option string;
    d_convertOk : bool; d_convertReason : option string }.

Definition download (P : Platform) (v : VocabItem) (latest : Latest)
  (fr : FetchResult) : M Downloaded :=
  match fr_ok fr, fr_text fr with
  | true, Some text =>
      conv <- convertToTurtleN3 P text (fr_contentType fr) (uri v)
                (fileURL latest) ;;
      match conv with
      | Converted ttl =>
          writeFile (path_join (prefixDir_of v) [OUT_FILENAME]) ttl ;;;
          writeFile (path_join (uriDir_of v) [OUT_FILENAME]) ttl ;;;
          ret (mkDownloaded (Some (fileByPrefix_of v)) (Some (fileByUri_of v))
                 true None)
      | NotConverted reason =>
          ret (mkDownloaded None None false (Some reason))
      end
  | _, _ => ret (mkDownloaded None None false None)
  end.

(** The download and what follows it. *)
Definition refetch (P : Platform) (v : VocabItem) (latest : Latest)
  : M ResultItem :=
  fr <- fetchText P (fileURL latest) ;;
  d <- download P v latest fr ;;
  let meta :=
    mkMeta (prefix v) (uri v) (namespace v)
      (fileURL latest) (issued latest) (now P) (fileURL latest)
      (fr_ok fr) (fr_status fr) (fr_contentType fr) (fr_finalUrl fr)
      None (Some (mkConvert (d_convertOk d) (d_convertReason d)))
      (fr_error fr) in
  writeJson (path_join (prefixDir_of v) ["meta.json"]) (MetaFile meta) ;;;
  writeJson (path_join (uriDir_of v) ["meta.json"]) (MetaFile meta) ;;;
  ret (mkResult (prefix v) (uri v) (namespace v)
         (Some (fileURL latest)) (Some (issued latest))
         (fr_ok fr && d_convertOk d)
         (if fr_ok fr then (if d_convertOk d then fr_status fr else 422)
          else fr_status fr)
         (Some (fr_finalUrl fr))
         (d_fileByPrefix d) (d_fileByUri d)
         false (d_convertReason d)
         None None None None).

(** One turn of the loop of [worker]. *)
Definition pass (P : Platform) (v : VocabItem) : M ResultItem :=
  let prefixMetaPath := path_join (prefixDir_of v) ["meta.json"] in
  let prefixOntPath := path_join (prefixDir_of v) [OUT_FILENAME] in
  ensureDir (prefixDir_of v) ;;;
  ensureDir (uriDir_of v) ;;;
  r <- extractLatestVersion P (prefix v) ;;
  let latest := match r with Returned l => l | Thrown _ => None end in
  match latest with
  | None =>
      ret (mkResult (prefix v) (uri v) (namespace v) None None
             false 0 None None None false
             (Some "Could not fetch LOV info or no versions/fileURL")
             None None None None)
  | Some latest =>
      (* Cache check *)
      existingMeta <- readJsonIfExists prefixMetaPath ;;
      hasFile <- fileExists prefixOntPath ;;
      if Mirror.isUpToDate hasFile existingMeta latest then
        ret (mkResult (prefix v) (uri v) (namespace v)
               (Some (fileURL latest)) (Some (issued latest))
               true 304 (m_finalUrl <$> existingMeta)
               (Some (fileByPrefix_of v)) (Some (fileByUri_of v))
               true None None None None None)
      else
        (* Download *)
        refetch P v latest
  end.

End Monolith.

Import JsString JsArray Http Rdf Encode Graph Types Fsutil Fetch Lov Convert Terms Html Mirror Config.

(* ===================================================================== *)
(** * A small registry to run the pipeline on                             *)
(* ===================================================================== *)

Module Example.

Definition ex : VocabItem :=
  mkVocab "ex" "http://example.org/ex#" (Some "http://example.org/ex#") None.

Definition Thing : Term := NamedNode "http://example.org/ex#Thing".

Definition ex_quads : list Quad :=
  [ mkQuad Thing rdfType (NamedNode (OWL +:+ "Class")) DefaultGraph;
    mkQuad Thing (NamedNode (RDFS +:+ "label"))
      (Literal "Thing" "" "http://www.w3.org/2001/XMLSchema#string")
      DefaultGraph;
    mkQuad Thing (NamedNode "http://example.org/ex#note")
      (Literal "private" "" "http://www.w3.org/2001/XMLSchema#string")
      DefaultGraph ].

Definition ex_issued : string := "2023-01-01T00:00:00Z".

(** The versions the registry knows of [ex]: an older one, one without
    file, the latest, and one with a time stamp that does not parse. *)
Definition ex_info (url : string) : LovInfo :=
  mkLovInfo (Some [mkVersion (Some url) (Some "2022-01-01");
                   mkVersion None (Some "2024-01-01");
                   mkVersion (Some url) (Some ex_issued);
                   mkVersion (Some url) (Some "yesterday")]).

(** A writer that shows which quads it was given: their predicates. *)
Definition predicates_of (qs : list Quad) : string :=
  String.concat " "
    (map (fun q => match predicate q with NamedNode p => p | _ => "_" end) qs).

(** A registry with the one vocabulary [ex], whose latest file is at
    [url]; the file is served with status [st] and content type [ct]; the
    parser accepts the text ["good"] only.  The store keeps one copy of
    every quad; on [ex_quads], whose quads are distinct and whose terms
    first occur in the order of the subject index, it enumerates the
    quads as they are given. *)
Definition registry (url : string) (st : Z) (ct : option string)
  (text : string) : Platform :=
  {| http_list := fun _ =>
       Response 200 (Some "application/json") LOV_LIST_URL
         (Some [mkLovListEntry (Some "ex") None (Some "http://example.org/ex#")
                  (Some "http://example.org/ex#") None None]);
     http_info := fun u =>
       if String.eqb u (LOV_INFO_URL "ex")
       then Response 200 (Some "application/json") u (Some (ex_info url))
       else Response 404 None u None;
     http_text := fun u => Response st ct u text;
     date_parse := fun s =>
       if String.eqb s ex_issued then Some 1672531200000%Z
       else if String.eqb s "2022-01-01" then Some 1640995200000%Z
       else if String.eqb s "2024-01-01" then Some 1704067200000%Z
       else None;
     now := "2024-01-01T00:00:00.000Z";
     localeCompare := compare_units;
     n3_parse := fun _ _ text =>
       if String.eqb text "good" then inl ex_quads
       else inr "Unexpected token";
     n3_store := remove_dups;
     n3_write := predicates_of |}.

Definition ttl_url : string := "http://example.org/ex.ttl".

(** The registry serving a Turtle file that parses. *)
Definition good : Platform := registry ttl_url 200 (Some "text/turtle") "good".




Definition empty_world : World := mkWorld ∅ [].

(** The mirror after a first pass over [ex]. *)
Definition mirrored : World :=
  mkWorld (files (snd (processOne good ex empty_world))) [].

End Example.

(* ===================================================================== *)
(** * Vocabulary of the statements                                        *)
(* ===================================================================== *)

Module Spec.

(** What the extension of the source URL selects on its own. *)
Definition format_of_ext (ext : string) : option N3Format :=
  if String.eqb ext "ttl" then Some Turtle
  else if String.eqb ext "n3" then Some N3
  else if String.eqb ext "nt" then Some NTriples
  else if String.eqb ext "trig" then Some TriG
  else None.

Definition unsupported_mime (ct : option string) : Prop :=
  contentTypeBase ct = Some "application/rdf+xml"
  \/ contentTypeBase ct = Some "application/ld+json".

(** [s] is an IRI subject with an [rdf:type] quad whose object is an IRI
    of [types]. *)
Definition typed_as (types : list string) (store : Store) (s : string)
  : Prop :=
  exists q o, q ∈ store /\ predicate q = rdfType
              /\ subject q = NamedNode s /\ object q = NamedNode o
              /\ o ∈ types.

(** What one quad contributes to the two sets. *)
Definition typed_by (types : list string) (q : Quad) (s : string) : Prop :=
  exists o, subject q = NamedNode s /\ object q = NamedNode o /\ o ∈ types.

(** Strictly increasing, code unit by code unit: sorted and without
    duplicates. *)
Definition strictly_sorted (l : list string) : Prop :=
  StronglySorted (fun a b => String.compare a b = Lt) l.

(** The object of [q] is a literal whose value, trimmed, is [v] and is not
    empty. *)
Definition nonblank_literal (q : Quad) (v : string) : Prop :=
  exists raw lang dt, object q = Literal raw lang dt /\ trim raw = v
                      /\ v <> "".

(** The object of [q] is no literal, or a literal of white space only. *)
Definition blank (q : Quad) : Prop := forall v, ~ nonblank_literal q v.

(** [v] is the trimmed value of the first quad of [qs] that is not
    blank. *)
Definition first_nonblank (qs : list Quad) (v : string) : Prop :=
  exists pre q post, qs = pre ++ q :: post /\ Forall blank pre
                     /\ nonblank_literal q v.

(** The quads of [store] with subject [t] and predicate [p], in the order
    of the store. *)
Definition statements (store : Store) (t p : string) : list Quad :=
  getQuads (Some (NamedNode t)) (Some (NamedNode p)) None None store.

(** [v] is chosen from the candidate predicates [preds], tried in order:
    it is the first non-blank literal of the first predicate that has
    one. *)
Definition chosen (preds : list string) (store : Store) (t v : string)
  : Prop :=
  exists pre p post, preds = pre ++ p :: post
    /\ (forall p', p' ∈ pre -> Forall blank (statements store t p'))
    /\ first_nonblank (statements store t p) v.

Definition LABEL_PREDICATES : list string :=
  [SKOS +:+ "prefLabel"; RDFS +:+ "label"; DCT +:+ "title"].

Definition DESCRIPTION_PREDICATES : list string :=
  [SKOS +:+ "definition"; RDFS +:+ "comment"; DCT +:+ "description";
   SKOS +:+ "scopeNote"].

(** The chain of [??] over a list of candidate predicates. *)
Definition pick_chain (store : Store) (t : string) (preds : list string)
  : option string :=
  foldr (fun p acc => nullish (pickFirstLiteral store t p) acc) None preds.

(** The version [v] has the file location and the time stamp of [l], both
    present and not empty, and the time stamp parses to [ms]. *)
Definition usable_as (P : Platform) (v : LovInfoVersion) (l : Latest)
  (ms : Z) : Prop :=
  v_fileURL v = Some (fileURL l) /\ fileURL l <> ""
  /\ v_issued v = Some (issued l) /\ issued l <> ""
  /\ date_parse P (issued l) = Some ms.

Definition versions_of (info : LovInfo) : list LovInfoVersion :=
  default [] (versions info).

(** The registry call of [extractLatestVersion] throws. *)
Definition registry_fails (P : Platform) (prefix : string) : Prop :=
  match http_info P (LOV_INFO_URL prefix) with
  | NetworkError _ => True
  | Response st _ _ body => res_ok st = false \/ body = None
  end.

(** The registry answers, with no usable version. *)
Definition registry_has_none (P : Platform) (prefix : string) : Prop :=
  exists st ct url info,
    http_info P (LOV_INFO_URL prefix) = Response st ct url (Some info)
    /\ res_ok st = true /\ latest_of P info = None.

(** The version [processOne] works with: what the registry resolves, a
    thrown error counting as none. *)
Definition resolve (P : Platform) (prefix : string) : option Latest :=
  match http_info P (LOV_INFO_URL prefix) with
  | Response st _ _ (Some info) => if res_ok st then latest_of P info else None
  | _ => None
  end.

(** The world after the first three steps of [processOne]: the two
    directories and the registry call. *)
Definition started (v : VocabItem) (w : World) : World :=
  mkWorld (files w)
    (trace w ++ [EvMkdir (prefixDir_of v); EvMkdir (uriDir_of v);
                 EvFetchJson (LOV_INFO_URL (prefix v))]).

(** What the cache check reads. *)
Definition meta_at (w : World) (v : VocabItem) : option Meta :=
  match files w !! prefixMetaPath v with
  | Some (MetaFile m) => Some m
  | _ => None
  end.

Definition hasFile_at (w : World) (v : VocabItem) : bool :=
  bool_decide (is_Some (files w !! prefixOntPath v)).

(** The link [writeTinyTermFile] returns for a term. *)
Definition tiny_href (kind : Kind) (termIri : string) : string :=
  kind_name kind +:+ "/" +:+ tiny_filename termIri.

(** What [fetchText] returns for the file of [latest]. *)
Definition fetched (P : Platform) (latest : Latest) : FetchResult :=
  text_result (fileURL latest) (http_text P (fileURL latest)).

(** The cache condition: the artifact exists, the recorded meta names the
    file location and the time stamp of [latest], and the recorded
    conversion succeeded. *)
Definition cache_valid (w : World) (v : VocabItem) (latest : Latest) : Prop :=
  is_Some (files w !! prefixOntPath v)
  /\ exists m c,
       files w !! prefixMetaPath v = Some (MetaFile m)
       /\ lovLatestFileURL m = fileURL latest
       /\ lovLatestIssued m = issued latest
       /\ convert m = Some c /\ c_ok c = true.

(** The events of a pass after the first three. *)
Definition events_after_start (v : VocabItem) (w w' : World) (evs : list Event)
  : Prop :=
  trace w' = trace (started v w) ++ evs.


Definition is_effect (e : Event) : bool :=
  match e with
  | EvWriteFile _ _ | EvFetchText _ | EvConvert _ _ => true
  | _ => false
  end.

(** An event of the loops over the terms: a directory, or the tiny file
    of one of [iris] with its definitional quads. *)
Definition tiny_event (P : Platform) (kind : Kind) (store : Store)
  (iris : list string) (e : Event) : Prop :=
  (exists p, e = EvMkdir p)
  \/ exists t, t ∈ iris
       /\ e = EvWriteFile (tiny_path kind t)
               (TextFile (n3_write P (definitional store t))).



(** What a pass tells about the cache: it is a hit, with a result that is
    ok and nothing fetched, converted or written, exactly when the cache
    is valid for the resolved version; otherwise, with a resolved version,
    the file is fetched again, and converted again once the fetch
    succeeds. *)
Definition cache_contract (P : Platform) (v : VocabItem) (w : World)
  (r : ResultItem) (w' : World) : Prop :=
  (skipped r = true <->
   exists latest,
     resolve P (prefix v) = Some latest /\ cache_valid w v latest)
  /\ (skipped r = true ->
      ok r = true /\ files w' = files w
      /\ exists evs, trace w' = trace w ++ evs
                     /\ Forall (fun e => is_effect e = false) evs)
  /\ (forall latest,
        resolve P (prefix v) = Some latest -> ~ cache_valid w v latest ->
        skipped r = false
        /\ exists evs,
             events_after_start v w w' (EvFetchText (fileURL latest) :: evs)
             /\ (fr_ok (fetched P latest) = true ->
                 exists evs',
                   evs = EvConvert (fr_contentType (fetched P latest))
                           (fileURL latest) :: evs')).


(** The results of namespace [ns], in the order of [l]. *)
Definition members (ns : string) (l : list ResultItem) : list ResultItem :=
  List.filter (fun r => bool_decide (r_namespace r = Some ns)) l.

(** The group of [ns]: none for the empty namespace and for a namespace
    without results. *)
Definition group_of (ns : string) (l : list ResultItem)
  : option (list ResultItem) :=
  if truthy ns
  then match members ns l with [] => None | arr => Some arr end
  else None.

(** The summaries among the events: the global index and the namespace
    indexes. *)
Definition is_summary (e : Event) : bool :=
  match e with
  | EvWriteFile _ (IndexFile _ _ _ _ _)
  | EvWriteFile _ (NamespaceIndexFile _ _ _) => true
  | _ => false
  end.





(** A Unicode scalar value: a code point that is no surrogate. *)
Definition scalar (cp : N) : Prop :=
  (cp < 0x110000 /\ ~ (0xD800 <= cp <= 0xDFFF))%N.

(** A sequence of 16-bit code units. *)
Definition code_units (x : list N) : Prop := Forall (fun u => u < 65536)%N x.

End Spec.

(* ===================================================================== *)
(** * Vocabulary of the further properties                                *)
(* ===================================================================== *)

Module More.
Import Spec Example.

(** Every character of [s] satisfies [f]. *)
Fixpoint all_chars (f : ascii -> bool) (s : string) : bool :=
  match s with
  | EmptyString => true
  | String c r => f c && all_chars f r
  end.

Definition is_lower_alnum (c : ascii) : bool :=
  let n := code c in
  ((48 <=? n) && (n <=? 57) || (97 <=? n) && (n <=? 122))%N.

Definition not_semicolon (c : ascii) : bool := negb (Ascii.eqb c ";").

(** [s] neither starts nor ends with white space. *)
Definition no_leading_ws (s : string) : Prop :=
  match s with
  | EmptyString => True
  | String c _ => is_ws c = false
  end.

Fixpoint no_trailing_ws (s : string) : Prop :=
  match s with
  | EmptyString => True
  | String c EmptyString => is_ws c = false
  | String _ r => no_trailing_ws r
  end.

(** The serialisation a media type stands for, when it is one the N3
    parser reads. *)
Definition format_of_mime (m : option string) : option N3Format :=
  match m with
  | None => None
  | Some m =>
      if String.eqb m "text/turtle" || String.eqb m "application/x-turtle"
      then Some Turtle
      else if String.eqb m "text/n3" || String.eqb m "text/rdf+n3"
      then Some N3
      else if String.eqb m "application/n-triples" then Some NTriples
      else if String.eqb m "application/trig" || String.eqb m "text/trig"
      then Some TriG
      else None
  end.

(** The extensions that stand for RDF/XML or JSON-LD. *)
Definition unsupported_ext (e : string) : Prop :=
  e = "rdf" \/ e = "owl" \/ e = "xml" \/ e = "jsonld" \/ e = "json".

Definition is_query_or_fragment (c : ascii) : bool :=
  Ascii.eqb c "?" || Ascii.eqb c "#".

(** The link [processOne] makes for a term that has a tiny file. *)
Definition term_info (kind : Kind) (store : Store) (t : string) : TermInfo :=
  let s := extractTermSummary store t in
  mkTermInfo t (tiny_href kind t) (s_label s) (s_description s).

Definition has_tiny_file (w : World) (kind : Kind) (t : string) : bool :=
  bool_decide (is_Some (files w !! tiny_path kind t)).

Definition has_definition (store : Store) (t : string) : bool :=
  match definitional store t with [] => false | _ => true end.

(** The five files [processOne] writes for a vocabulary, apart from the
    tiny files of its terms. *)
Definition own_paths (v : VocabItem) : list Path :=
  [ prefixOntPath v; uriOntPath v; prefixMetaPath v; uriMetaPath v;
    path_join (prefixDir_of v) ["index.html"] ].

(** A path segment that names an entry of its directory. *)
Definition regular (x : string) : Prop := x <> "" /\ x <> "." /\ x <> "..".


(** A code unit [encodeURIComponent] may produce: an unreserved one or
    the percent sign. *)
Definition is_segment_unit (u : N) : bool :=
  is_unreserved u || (u =? 37)%N.

(** The number of results filed under some namespace. *)
Definition total_members (groups : list (string * list ResultItem)) : nat :=
  sum_list (map (fun g => length (snd g)) groups).

(** What the pipeline takes for granted of the N3 [Store]: it is a set
    of quads, holding every quad it was given once and no other. *)
Definition store_is_set (P : Platform) : Prop :=
  forall quads,
    NoDup (n3_store P quads)
    /\ forall q, q ∈ n3_store P quads <-> q ∈ quads.

(** A field of a registry entry that is there: a string that is not
    empty. *)
Definition present (a : option string) (x : string) : Prop :=
  a = Some x /\ x <> "".

Definition absent (a : option string) : Prop := a = None \/ a = Some "".

(** The first of two fields that is there. *)
Definition first_present (a b : option string) (x : string) : Prop :=
  present a x \/ (absent a /\ present b x).

(** [v] is the vocabulary the entry [e] of the registry's list stands
    for. *)
Definition item_of (e : LovListEntry) (v : VocabItem) : Prop :=
  first_present (e_prefix e) (e_vocab e) (prefix v)
  /\ present (e_uri e) (uri v)
  /\ match namespace v with
     | Some ns => first_present (e_nsp e) (e_namespace e) ns
     | None => absent (e_nsp e) /\ absent (e_namespace e)
     end
  /\ title v = e_title e.

(** The entry names a vocabulary: it has a URI, and a prefix or a vocab
    field. *)
Definition identified (e : LovListEntry) : bool :=
  match e_uri e, e_prefix e, e_vocab e with
  | Some (String _ _), Some (String _ _), _ => true
  | Some (String _ _), _, Some (String _ _) => true
  | _, _, _ => false
  end.

(** ** The interleaving of the workers *)

(** Whatever the other workers do between two operations of [t], as long
    as every world an operation of [t] finds satisfies [I]: each operation
    of [t] keeps [I] and is a step of [G], and what [t] returns satisfies
    [Q]. *)
Fixpoint robust {A} (I : World -> Prop) (G : World -> World -> Prop)
  (Q : A -> Prop) (t : Steps.Task A) : Prop :=
  match t with
  | Steps.Done a => Q a
  | Steps.Await effect rest =>
      forall w, I w -> I (effect w) /\ G w (effect w) /\ robust I G Q (rest w)
  end.

(** The files of [K] are in the world, with their content. *)
Definition keeps (K : gmap Path FileContent) (w : World) : Prop :=
  forall p c, K !! p = Some c -> files w !! p = Some c.

(** From [w] to [w'] no summary was written. *)
Definition no_summary_since (w w' : World) : Prop :=
  exists evs, trace w' = trace w ++ evs
              /\ Forall (fun e => is_summary e = false) evs.

(** What one operation of the pass of [v] may do to the world: it writes
    no summary, and no file but one of the five files of [v] or the tiny
    file of a term. *)
Definition pass_step (v : VocabItem) (w w' : World) : Prop :=
  no_summary_since w w'
  /\ (files w' = files w
      \/ exists p c,
           files w' = <[p := c]> (files w)
           /\ (p ∈ own_paths v
               \/ exists kind t text,
                    p = tiny_path kind t /\ c = TextFile text)).

(** What the passes of [vocabs] may do to the world, operation after
    operation. *)
Definition pool_steps (vocabs : list VocabItem) (w w' : World) : Prop :=
  no_summary_since w w'
  /\ forall p, (forall v, v ∈ vocabs -> p ∉ own_paths v) ->
               (forall kind t, p <> tiny_path kind t) ->
               files w' !! p = files w !! p.

(** What one operation of the loop over the terms [iris] may do: it
    writes no summary, and no file but the tiny file of one of the terms,
    with the quads that define it, of which there is one at least. *)
Definition term_step (P : Platform) (kind : Kind) (store : Store)
  (iris : list string) (w w' : World) : Prop :=
  no_summary_since w w'
  /\ (files w' = files w
      \/ exists t,
           t ∈ iris /\ definitional store t <> []
           /\ files w'
              = <[tiny_path kind t
                  := TextFile (n3_write P (definitional store t))]>
                  (files w)).

(** The links the loop over [iris] returns: the links of some of the
    terms, in their order, those of all the terms that have a quad that
    defines them among them. *)
Definition links_of_loop (kind : Kind) (store : Store) (iris : list string)
  (links : list TermInfo) : Prop :=
  exists kept,
    kept `sublist_of` iris
    /\ links = map (term_info kind store) kept
    /\ forall t, t ∈ iris -> definitional store t <> [] -> t ∈ kept.

(** The vocabulary a worker has taken and not yet pushed the result
    of. *)
Definition taken (k : Pool.Worker) : option VocabItem :=
  match k with Pool.Awaiting v _ => Some v | _ => None end.

(** The result [r] is the one of the vocabulary [v]. *)
Definition result_of (v : VocabItem) (r : ResultItem) : Prop :=
  r_prefix r = prefix v /\ r_uri r = uri v /\ r_namespace r = namespace v.

(** What a pass over [v] returns, whatever the other workers do: a result
    of [v]; the record of the skip when the registry resolves no version;
    and else a result for the version the registry resolves. *)
Definition pass_result (P : Platform) (v : VocabItem) (r : ResultItem)
  : Prop :=
  result_of v r
  /\ match resolve P (prefix v) with
     | None => r = unresolved_result v
     | Some latest =>
         r_lovLatestFileURL r = Some (fileURL latest)
         /\ r_lovLatestIssued r = Some (issued latest)
     end.


(** A worker that awaits a pass awaits the pass of a vocabulary of the
    list, and the pass is robust. *)
Definition worker_ok (vocabs : list VocabItem) (I : World -> Prop)
  (G : World -> World -> Prop) (Q : VocabItem -> ResultItem -> Prop)
  (k : Pool.Worker) : Prop :=
  match k with
  | Pool.Awaiting v t => v ∈ vocabs /\ robust I G (Q v) t
  | _ => True
  end.

(** What holds of the pool at every moment: the world satisfies [I] and
    comes from the first world [w0] by [G]; the vocabularies taken so far
    are those whose result was pushed, and those a worker is working at;
    a worker has returned only when the list was exhausted. *)
Definition pool_inv (vocabs : list VocabItem) (I : World -> Prop)
  (G : World -> World -> Prop) (Q : VocabItem -> ResultItem -> Prop)
  (w0 : World) (s : Pool.State) : Prop :=
  I (Pool.world s) /\ G w0 (Pool.world s)
  /\ Forall (worker_ok vocabs I G Q) (Pool.pool s)
  /\ (Pool.Finished ∈ Pool.pool s -> length vocabs <= Pool.next s)
  /\ exists pushed,
       Forall2 Q pushed (Pool.results s)
       /\ pushed ++ omap taken (Pool.pool s)
          ≡ₚ take (Pool.next s) vocabs.

(** A bound on the turns the workers still need, a pass counting as
    one. *)
Definition weight (k : Pool.Worker) : nat :=
  match k with
  | Pool.AtLoopHead => 1
  | Pool.Awaiting _ _ => 2
  | Pool.Finished => 0
  end.

Definition work_left (vocabs : list VocabItem) (s : Pool.State) : nat :=
  3 * (length vocabs - Pool.next s) + sum_list_with weight (Pool.pool s).

End More.

Import Spec Example.

(* ===================================================================== *)
(** * Facts about the JavaScript library functions                        *)
(* ===================================================================== *)

Section SortFacts.
Context {A : Type} (cmp : A -> A -> Z).

Lemma insert_perm (x : A) (l : list A) : JsArray.insert cmp x l ≡ₚ x :: l.
Proof.
  induction l as [|y l IH]; simpl; [done|].
  destruct (0 <? cmp x y)%Z; [|done].
  rewrite IH. apply Permutation_swap.
Qed.

Lemma sort_perm (l : list A) : JsArray.sort cmp l ≡ₚ l.
Proof.
  induction l as [|x l IH]; simpl; [done|].
  unfold JsArray.sort in *. simpl. rewrite insert_perm. by f_equiv.
Qed.

Lemma sort_elem (l : list A) (x : A) : x ∈ JsArray.sort cmp l <-> x ∈ l.
Proof. by rewrite sort_perm. Qed.

Lemma sort_nil_inv (l : list A) : JsArray.sort cmp l = [] -> l = [].
Proof.
  intros H. apply Permutation_nil_r. rewrite <- H. symmetry. apply sort_perm.
Qed.

(** A comparator that is consistent on the elements satisfying [dom]:
    any two of them are ordered one way or the other, transitively. *)
Context (dom : A -> Prop).
Hypothesis cmp_total :
  forall a b, dom a -> dom b -> (cmp a b <= 0 \/ cmp b a <= 0)%Z.
Hypothesis cmp_trans :
  forall a b c, dom a -> dom b -> dom c ->
    (cmp a b <= 0 -> cmp b c <= 0 -> cmp a c <= 0)%Z.

Lemma insert_sorted (x : A) (l : list A) :
  dom x -> Forall dom l ->
  StronglySorted (before cmp) l ->
  StronglySorted (before cmp) (JsArray.insert cmp x l).
Proof.
  intros Hx Hl Hs. induction Hs as [|y l Hs IH Hy]; simpl.
  - repeat constructor.
  - apply Forall_cons in Hl as [Hdy Hl].
    destruct (0 <? cmp x y)%Z eqn:E.
    + constructor; [by apply IH|].
      rewrite insert_perm. constructor; [|done].
      apply Z.ltb_lt in E. destruct (cmp_total x y Hx Hdy); [lia|done].
    + apply Z.ltb_ge in E. constructor; [by constructor|].
      constructor; [done|].
      rewrite Forall_forall in Hy, Hl |- *. intros z Hz.
      apply (cmp_trans x y z); auto. by apply Hy.
Qed.

Lemma sort_sorted (l : list A) :
  Forall dom l -> StronglySorted (before cmp) (JsArray.sort cmp l).
Proof.
  induction 1 as [|x l Hx Hl IH]; [constructor|].
  unfold JsArray.sort in *. simpl. apply insert_sorted; [done| |done].
  by rewrite (sort_perm l).
Qed.

(** The first element of a sorted array comes before all of them. *)
Lemma sort_head (l : list A) (c : A) (rest : list A) :
  Forall dom l -> JsArray.sort cmp l = c :: rest ->
  c ∈ l /\ forall x, x ∈ l -> x = c \/ before cmp c x.
Proof.
  intros Hl E. pose proof (sort_sorted l Hl) as Hs. rewrite E in Hs.
  split.
  - apply (sort_elem l). rewrite E. left.
  - intros x Hx. apply (sort_elem l) in Hx. rewrite E in Hx.
    apply elem_of_cons in Hx as [->|Hx]; [by left|right].
    apply StronglySorted_inv in Hs as [_ Hall].
    rewrite Forall_forall in Hall. by apply Hall.
Qed.
End SortFacts.

Lemma compare_units_le (a b : string) :
  (compare_units a b <= 0)%Z <-> String.leb a b = true.
Proof.
  unfold compare_units, String.leb.
  destruct (String.compare a b); split; (lia || done).
Qed.

Lemma compare_units_total (a b : string) :
  (compare_units a b <= 0 \/ compare_units b a <= 0)%Z.
Proof. rewrite !compare_units_le. apply String.leb_total. Qed.

Lemma compare_units_trans (a b c : string) :
  (compare_units a b <= 0 -> compare_units b c <= 0 ->
   compare_units a c <= 0)%Z.
Proof.
  rewrite !compare_units_le. intros H1 H2.
  assert (String.le a c) as H; [|by apply Is_true_true in H].
  transitivity b; by apply Is_true_true.
Qed.

(** The default sort of an array of distinct strings is strictly
    increasing, code unit by code unit. *)
Lemma sort_units_strict (l : list string) :
  NoDup l ->
  strictly_sorted (JsArray.sort compare_units l).
Proof.
  intros Hnd.
  assert (NoDup (JsArray.sort compare_units l)) as Hnd'
    by by rewrite sort_perm.
  pose proof (sort_sorted compare_units (fun _ => True)
                (fun a b _ _ => compare_units_total a b)
                (fun a b c _ _ _ => compare_units_trans a b c) l) as Hs.
  specialize (Hs ltac:(by apply Forall_forall)).
  induction Hs as [|x xs Hs IH Hx]; [constructor|].
  apply NoDup_cons in Hnd' as [Hnx Hnd'].
  constructor; [by apply IH|].
  rewrite Forall_forall in Hx |- *. intros y Hy.
  specialize (Hx y Hy). unfold before, compare_units in Hx.
  destruct (String.compare x y) eqn:E; [|done|lia].
  apply String.compare_eq_iff in E. by subst.
Qed.

Lemma set_add_elem (x y : string) (s : list string) :
  y ∈ JsArray.set_add x s <-> y = x \/ y ∈ s.
Proof.
  unfold JsArray.set_add. case_bool_decide.
  - split; [by right|]. by intros [->|].
  - rewrite elem_of_app, list_elem_of_singleton. tauto.
Qed.

Lemma set_add_NoDup (x : string) (s : list string) :
  NoDup s -> NoDup (JsArray.set_add x s).
Proof.
  intros Hs. unfold JsArray.set_add. case_bool_decide; [done|].
  apply NoDup_app. split_and!; [done| |apply NoDup_singleton].
  intros y Hy ->%list_elem_of_singleton. done.
Qed.

(* ===================================================================== *)
(** * The format detector                                                 *)
(* ===================================================================== *)

(** C3, as stated, fails: a response declared [application/rdf+xml] whose
    URL ends in [.ttl] is detected as Turtle, not as unsupported. *)
Lemma C3_extension_overrides_unsupported_mime :
  ~ (forall ct url, unsupported_mime ct -> n3FormatFor ct url = None).
Proof.
  intros H.
  specialize (H (Some "application/rdf+xml") "http://example.org/ex.ttl").
  discriminate H. by left.
Qed.

(** C3, amended: for a content type that is, after stripping parameters
    and lower-casing, [application/rdf+xml] or [application/ld+json], the
    detector answers what the extension of the URL selects: the
    serialisation of [ttl], [n3], [nt] or [trig], and "unsupported" for
    every other extension.  Both copies of the detector agree on this. *)
Theorem C3_unsupported_mime_unless_extension (ct : option string)
  (url : string) :
  unsupported_mime ct ->
  n3FormatFor ct url = format_of_ext (urlExt url)
  /\ n3FormatFor_monolith ct url = format_of_ext (urlExt url)
  /\ (format_of_ext (urlExt url) = None -> n3FormatFor ct url = None).
Proof.
  intros Hct.
  assert (n3FormatFor ct url = format_of_ext (urlExt url)
          /\ n3FormatFor_monolith ct url = format_of_ext (urlExt url))
    as [H1 H2].
  { unfold n3FormatFor, n3FormatFor_monolith, format_of_ext.
    destruct Hct as [-> | ->]; simpl;
      repeat (destruct (String.eqb (urlExt url) _); [done|]); done. }
  split_and!; [done|done|]. by rewrite H1.
Qed.

Lemma C3_witness :
  n3FormatFor (Some "Application/RDF+XML; charset=utf-8")
    "http://example.org/ex.owl?v=2" = None
  /\ n3FormatFor (Some "application/ld+json") "http://example.org/ex.N3"
     = Some N3.
Proof.
  split.
  - apply (C3_unsupported_mime_unless_extension
             (Some "Application/RDF+XML; charset=utf-8")
             "http://example.org/ex.owl?v=2"); [by left | reflexivity].
  - destruct (C3_unsupported_mime_unless_extension
                (Some "application/ld+json") "http://example.org/ex.N3")
      as [H _]; [by right | exact H].
Defined.

(* ===================================================================== *)
(** * The term classifier                                                 *)
(* ===================================================================== *)

Lemma getQuads_elem (s p o g : option Term) (store : Store) (q : Quad) :
  q ∈ getQuads s p o g store <->
  q ∈ store /\ matches s (subject q) = true /\ matches p (predicate q) = true
  /\ matches o (object q) = true /\ matches g (graph q) = true.
Proof.
  unfold getQuads. rewrite list_elem_of_In, filter_In, <- list_elem_of_In.
  rewrite !andb_true_iff. tauto.
Qed.

Lemma matches_Some (x t : Term) : matches (Some x) t = true <-> t = x.
Proof. simpl. rewrite bool_decide_eq_true. split; congruence. Qed.

Lemma has_elem (s : list string) (x : string) : has s x = true <-> x ∈ s.
Proof. unfold has. apply bool_decide_eq_true. Qed.

Lemma classify_quad_elem (acc : list string * list string) (q : Quad)
  (s : string) :
  (s ∈ fst (classify_quad acc q) <-> s ∈ fst acc \/ typed_by CLASS_TYPES q s)
  /\ (s ∈ snd (classify_quad acc q) <->
      s ∈ snd acc \/ typed_by PROPERTY_TYPES q s).
Proof.
  unfold classify_quad, typed_by.
  destruct (subject q) as [sv| | | |] eqn:Es;
    try (split; (split; [by left | intros [?|(o & ? & _)]; done])).
  destruct (object q) as [ov| | | |] eqn:Eo;
    try (split; (split; [by left | intros [?|(o & _ & ? & _)]; done])).
  simpl. split.
  - destruct (has CLASS_TYPES ov) eqn:E.
    + apply has_elem in E. rewrite set_add_elem. split.
      * intros [->|?]; [right; eauto | by left].
      * intros [?|(o & [= ->] & [= <-] & _)]; auto.
    + split; [by left|]. intros [?|(o & _ & [= <-] & Ho)]; [done|].
      apply has_elem in Ho. congruence.
  - destruct (has PROPERTY_TYPES ov) eqn:E.
    + apply has_elem in E. rewrite set_add_elem. split.
      * intros [->|?]; [right; eauto | by left].
      * intros [?|(o & [= ->] & [= <-] & _)]; auto.
    + split; [by left|]. intros [?|(o & _ & [= <-] & Ho)]; [done|].
      apply has_elem in Ho. congruence.
Qed.

Lemma classify_quad_NoDup (acc : list string * list string) (q : Quad) :
  NoDup (fst acc) -> NoDup (snd acc) ->
  NoDup (fst (classify_quad acc q)) /\ NoDup (snd (classify_quad acc q)).
Proof.
  intros H1 H2. unfold classify_quad.
  destruct (subject q); try done. destruct (object q); try done.
  simpl. split; case_match; auto using set_add_NoDup.
Qed.

Lemma classify_fold (qs : list Quad) (acc : list string * list string) :
  NoDup (fst acc) -> NoDup (snd acc) ->
  let r := fold_left classify_quad qs acc in
  NoDup (fst r) /\ NoDup (snd r)
  /\ (forall s, s ∈ fst r <->
        s ∈ fst acc \/ exists q, q ∈ qs /\ typed_by CLASS_TYPES q s)
  /\ (forall s, s ∈ snd r <->
        s ∈ snd acc \/ exists q, q ∈ qs /\ typed_by PROPERTY_TYPES q s).
Proof.
  revert acc. induction qs as [|q qs IH]; intros acc H1 H2; simpl.
  - split_and!; [done|done| |]; intros s; split; auto;
      intros [?|(q & Hq & _)]; [done|inversion Hq|done|inversion Hq].
  - destruct (classify_quad_NoDup acc q H1 H2) as [H1' H2'].
    destruct (IH _ H1' H2') as (N1 & N2 & E1 & E2).
    split_and!; [done|done| |]; intros s.
    + rewrite E1, (proj1 (classify_quad_elem acc q s)). split.
      * intros [[?|?]|(q' & ? & ?)]; [by left|right..].
        -- exists q. split; [left|done].
        -- exists q'. split; [by right|done].
      * intros [?|(q' & [->|?]%elem_of_cons & ?)]; [left; by left|..].
        -- left. by right.
        -- right. by exists q'.
    + rewrite E2, (proj2 (classify_quad_elem acc q s)). split.
      * intros [[?|?]|(q' & ? & ?)]; [by left|right..].
        -- exists q. split; [left|done].
        -- exists q'. split; [by right|done].
      * intros [?|(q' & [->|?]%elem_of_cons & ?)]; [left; by left|..].
        -- left. by right.
        -- right. by exists q'.
Qed.

Lemma typed_quads (types : list string) (store : Store) (s : string) :
  (exists q, q ∈ getQuads None (Some rdfType) None None store
             /\ typed_by types q s)
  <-> typed_as types store s.
Proof.
  unfold typed_as, typed_by. split.
  - intros (q & Hq & o & ? & ? & ?). apply getQuads_elem in Hq.
    destruct Hq as (? & _ & Hp & _). apply matches_Some in Hp.
    exists q, o. done.
  - intros (q & o & ? & ? & ? & ? & ?). exists q. split; [|eauto].
    apply getQuads_elem. split_and!; try done. by apply matches_Some.
Qed.

Lemma found_spec (store : Store) :
  (forall s, s ∈ classes (findClassesAndProperties store)
             <-> typed_as CLASS_TYPES store s)
  /\ (forall s, s ∈ properties (findClassesAndProperties store)
                <-> typed_as PROPERTY_TYPES store s)
  /\ strictly_sorted (classes (findClassesAndProperties store))
  /\ strictly_sorted (properties (findClassesAndProperties store)).
Proof.
  unfold findClassesAndProperties. simpl.
  destruct (classify_fold (getQuads None (Some rdfType) None None store)
              ([], [])) as (N1 & N2 & E1 & E2); [constructor..|].
  split_and!.
  - intros s. rewrite sort_elem, E1, <- typed_quads. simpl.
    split; [intros [H|H]; [inversion H|done] | by right].
  - intros s. rewrite sort_elem, E2, <- typed_quads. simpl.
    split; [intros [H|H]; [inversion H|done] | by right].
  - by apply sort_units_strict.
  - by apply sort_units_strict.
Qed.

Lemma PROPERTY_TYPES_NoDup : NoDup PROPERTY_TYPES.
Proof. apply (bool_decide_unpack _). by vm_compute. Qed.

(** C5, as stated, fails on the size of the property-type set: no set of
    ten IRIs accounts for the subjects the classifier returns as
    properties. *)
Lemma C5_no_ten_property_types :
  ~ (exists types : list string,
       length types = 10
       /\ forall store s,
            s ∈ properties (findClassesAndProperties store)
            <-> typed_as types store s).
Proof.
  intros (types & Hlen & H).
  assert (forall p, p ∈ PROPERTY_TYPES -> p ∈ types) as Hsub.
  { intros p Hp.
    pose (store := [mkQuad (NamedNode "s") rdfType (NamedNode p) DefaultGraph]).
    assert (typed_as PROPERTY_TYPES store "s") as Ht.
    { exists (mkQuad (NamedNode "s") rdfType (NamedNode p) DefaultGraph), p.
      split_and!; try done. apply list_elem_of_singleton. done. }
    apply (proj1 (proj2 (found_spec store))) in Ht.
    apply H in Ht as (q & o & Hq & _ & _ & Ho & Hin).
    apply list_elem_of_singleton in Hq. subst q. simpl in Ho.
    by injection Ho as <-. }
  pose proof (submseteq_length _ _
                (NoDup_submseteq _ _ PROPERTY_TYPES_NoDup Hsub)) as Hle.
  rewrite Hlen in Hle. vm_compute in Hle. lia.
Qed.

(** C5, amended: the classes are exactly the IRI subjects with an
    [rdf:type] quad whose object is one of the two class types
    ([owl:Class], [rdfs:Class]); the properties are exactly the IRI
    subjects with an [rdf:type] quad whose object is one of the eleven
    property types; a subject without such a quad is in neither list; both
    lists are without duplicates and sorted; and a subject may be in
    both. *)
Theorem C5_classification (store : Store) :
  let found := findClassesAndProperties store in
  (forall s, s ∈ classes found <-> typed_as CLASS_TYPES store s)
  /\ (forall s, s ∈ properties found <-> typed_as PROPERTY_TYPES store s)
  /\ (forall s, ~ typed_as CLASS_TYPES store s ->
                ~ typed_as PROPERTY_TYPES store s ->
                (s ∉ classes found) /\ (s ∉ properties found))
  /\ strictly_sorted (classes found) /\ NoDup (classes found)
  /\ strictly_sorted (properties found) /\ NoDup (properties found)
  /\ CLASS_TYPES = [OWL +:+ "Class"; RDFS +:+ "Class"]
  /\ length PROPERTY_TYPES = 11 /\ NoDup PROPERTY_TYPES
  /\ (exists store' s, s ∈ classes (findClassesAndProperties store')
                       /\ s ∈ properties (findClassesAndProperties store')).
Proof.
  intros found. destruct (found_spec store) as (Ec & Ep & Sc & Sp).
  assert (forall l, strictly_sorted l -> NoDup l) as Hnd.
  { induction 1 as [|x l _ IH Hx]; constructor; [|done].
    intros Hin. rewrite Forall_forall in Hx. specialize (Hx x Hin).
    pose proof (String.compare_antisym x x) as E. rewrite Hx in E.
    discriminate E. }
  split_and!; auto.
  - intros s H1 H2. subst found. rewrite Ec, Ep. done.
  - apply PROPERTY_TYPES_NoDup.
  - exists [mkQuad (NamedNode "s") rdfType (NamedNode (OWL +:+ "Class"))
              DefaultGraph;
            mkQuad (NamedNode "s") rdfType
              (NamedNode (OWL +:+ "ObjectProperty")) DefaultGraph], "s".
    split; apply list_elem_of_In; vm_compute; auto.
Qed.

Lemma C5_witness :
  classes (findClassesAndProperties ex_quads) = ["http://example.org/ex#Thing"]
  /\ "http://example.org/ex#Thing" ∉ properties (findClassesAndProperties ex_quads).
Proof.
  split; [reflexivity|].
  destruct (C5_classification ex_quads) as (_ & Hp & _). rewrite Hp.
  intros (q & o & Hq & Hpred & _ & Ho & Hin).
  repeat (apply elem_of_cons in Hq as [->|Hq]); try by inversion Hq.
  - injection Ho as <-. vm_compute in Hin.
    repeat (apply elem_of_cons in Hin as [Hin|Hin]; [discriminate Hin|]).
    inversion Hin.
  - discriminate Ho.
  - discriminate Hpred.
Defined.

(* ===================================================================== *)
(** * Term summaries                                                      *)
(* ===================================================================== *)

Lemma trim_empty_inv (v : string) : truthy v && truthy (trim v) = truthy (trim v).
Proof. by destruct v. Qed.

Lemma truthy_true (v : string) : truthy v = true <-> v <> "".
Proof. destruct v; simpl; split; congruence. Qed.

Lemma first_literal_step (q : Quad) (rest : list Quad) :
  (forall v, nonblank_literal q v -> first_literal (q :: rest) = Some v)
  /\ (blank q -> first_literal (q :: rest) = first_literal rest).
Proof.
  simpl. unfold blank, nonblank_literal. split.
  - intros v (raw & lang & dt & -> & <- & Hv). simpl.
    rewrite trim_empty_inv. apply truthy_true in Hv. by rewrite Hv.
  - intros Hb. destruct (object q) as [|?|raw lang dt| |]; simpl; try done.
    rewrite trim_empty_inv. destruct (truthy (trim raw)) eqn:E; [|done].
    apply truthy_true in E. destruct (Hb (trim raw)). eauto 6.
Qed.

Lemma blank_or_not (q : Quad) : blank q \/ exists v, nonblank_literal q v.
Proof.
  unfold blank, nonblank_literal.
  destruct (object q) as [|?|raw lang dt| |] eqn:E;
    try (left; intros v (? & ? & ? & ? & _); congruence).
  destruct (decide (trim raw = "")) as [Ht|Ht].
  - left. intros v (? & ? & ? & [= <- _ _] & <- & Hv). done.
  - right. exists (trim raw), raw, lang, dt. done.
Qed.

Lemma nonblank_literal_fun (q : Quad) (v v' : string) :
  nonblank_literal q v -> nonblank_literal q v' -> v = v'.
Proof.
  intros (? & ? & ? & E & <- & _) (? & ? & ? & E' & <- & _). congruence.
Qed.

Lemma first_literal_None (qs : list Quad) :
  first_literal qs = None <-> Forall blank qs.
Proof.
  induction qs as [|q qs IH]; [by split|].
  destruct (first_literal_step q qs) as [Hn Hb].
  destruct (blank_or_not q) as [B|[v Hv]].
  - rewrite (Hb B), IH. split; [by constructor|by inversion 1].
  - rewrite (Hn v Hv). split; [done|]. inversion 1 as [|? ? B _]; subst.
    by destruct (B v).
Qed.

Lemma first_literal_Some (qs : list Quad) (v : string) :
  first_literal qs = Some v <-> first_nonblank qs v.
Proof.
  unfold first_nonblank. induction qs as [|q qs IH].
  - split; [done|]. intros (pre & ? & ? & E & _). by destruct pre.
  - destruct (first_literal_step q qs) as [Hn Hb].
    destruct (blank_or_not q) as [B|[v' Hv']].
    + rewrite (Hb B), IH. split.
      * intros (pre & q' & post & -> & Hpre & Hq).
        exists (q :: pre), q', post. split_and!; [done|by constructor|done].
      * intros (pre & q' & post & E & Hpre & Hq).
        destruct pre as [|? pre]; simplify_eq/=.
        -- by destruct (B v).
        -- apply Forall_cons in Hpre as [_ Hpre]. eauto 6.
    + rewrite (Hn v' Hv'). split.
      * intros [= <-]. exists [], q, qs. split_and!; [done|constructor|done].
      * intros (pre & q' & post & E & Hpre & Hq).
        destruct pre as [|? pre]; simplify_eq/=.
        -- f_equal. by eapply nonblank_literal_fun.
        -- apply Forall_cons in Hpre as [B _]. by destruct (B v').
Qed.

Lemma pick_chain_Some (store : Store) (t : string) (preds : list string)
  (v : string) :
  pick_chain store t preds = Some v <-> chosen preds store t v.
Proof.
  unfold chosen. induction preds as [|p preds IH]; simpl.
  - split; [done|]. intros (pre & ? & ? & E & _). by destruct pre.
  - unfold pickFirstLiteral. fold (statements store t p).
    destruct (first_literal (statements store t p)) as [v'|] eqn:E; simpl.
    + split.
      * intros [= <-]. exists [], p, preds.
        split_and!; [done|by inversion 1|by apply first_literal_Some].
      * intros (pre & p' & post & Ep & Hpre & Hp).
        destruct pre as [|p0 pre]; simpl in Ep; injection Ep as E1 E2;
          subst p' || subst p0.
        -- apply first_literal_Some in Hp. congruence.
        -- assert (Forall blank (statements store t p)) as B
             by (apply Hpre; left).
           apply first_literal_None in B. congruence.
    + rewrite IH. apply first_literal_None in E. split.
      * intros (pre & p' & post & -> & Hpre & Hp).
        exists (p :: pre), p', post. split_and!; [done| |done].
        intros p'' [->|?]%elem_of_cons; auto.
      * intros (pre & p' & post & Ep & Hpre & Hp).
        destruct pre as [|p0 pre]; simpl in Ep; injection Ep as E1 E2;
          subst p' || subst p0.
        -- apply first_literal_Some in Hp. apply first_literal_None in E.
           congruence.
        -- exists pre, p', post. split_and!; [done| |done].
           intros p'' ?. apply Hpre. by right.
Qed.

Lemma pick_chain_None (store : Store) (t : string) (preds : list string) :
  pick_chain store t preds = None
  <-> forall p, p ∈ preds -> Forall blank (statements store t p).
Proof.
  induction preds as [|p preds IH]; simpl.
  - split; [by inversion 2|done].
  - unfold pickFirstLiteral. fold (statements store t p).
    destruct (first_literal (statements store t p)) as [v'|] eqn:E; simpl.
    + split; [done|]. intros H.
      assert (Forall blank (statements store t p)) as B by (apply H; left).
      apply first_literal_None in B. congruence.
    + rewrite IH. apply first_literal_None in E. split.
      * intros H p' [->|?]%elem_of_cons; auto.
      * intros H p' ?. apply H. by right.
Qed.

(** C7, as stated, fails: [termIri] has a [skos:prefLabel] literal (of
    white space) and an [rdfs:label] literal, and the label of the summary
    is the [rdfs:label]. *)
Lemma C7_blank_prefLabel_does_not_win :
  let t := "http://example.org/ex#Thing" in
  let store :=
    [ mkQuad (NamedNode t) (NamedNode (SKOS +:+ "prefLabel"))
        (Literal "  " "en" "") DefaultGraph;
      mkQuad (NamedNode t) (NamedNode (RDFS +:+ "label"))
        (Literal " Thing " "en" "") DefaultGraph ] in
  object <$> statements store t (SKOS +:+ "prefLabel")
    = [Literal "  " "en" ""]
  /\ s_label (extractTermSummary store t) = Some "Thing"
  /\ s_label (extractTermSummary store t) <> Some "  ".
Proof. by vm_compute. Qed.

(** C7, amended: the label is chosen from [skos:prefLabel], [rdfs:label],
    [dct:title] in this order, and the description from [skos:definition],
    [rdfs:comment], [dct:description], [skos:scopeNote]: the first
    predicate with a literal that is not blank (not empty once trimmed)
    wins, and the value is the first such literal, trimmed.  So a
    non-blank [skos:prefLabel] wins whatever [rdfs:label] says, and
    without any non-blank candidate literal both fields are absent. *)
Theorem C7_summary_priority (store : Store) (termIri : string) :
  let summary := extractTermSummary store termIri in
  (forall v, s_label summary = Some v
             <-> chosen LABEL_PREDICATES store termIri v)
  /\ (forall v, s_description summary = Some v
                <-> chosen DESCRIPTION_PREDICATES store termIri v)
  /\ (forall v, first_nonblank
                  (statements store termIri (SKOS +:+ "prefLabel")) v ->
                s_label summary = Some v)
  /\ ((forall p, p ∈ LABEL_PREDICATES ++ DESCRIPTION_PREDICATES ->
                 Forall blank (statements store termIri p))
      <-> summary = mkSummary None None).
Proof.
  intros summary.
  assert (s_label summary = pick_chain store termIri LABEL_PREDICATES)
    as El by reflexivity.
  assert (s_description summary
          = pick_chain store termIri DESCRIPTION_PREDICATES)
    as Ed by reflexivity.
  split_and!.
  - intros v. rewrite El. apply pick_chain_Some.
  - intros v. rewrite Ed. apply pick_chain_Some.
  - intros v Hv. rewrite El. apply pick_chain_Some.
    exists [], (SKOS +:+ "prefLabel"), [RDFS +:+ "label"; DCT +:+ "title"].
    split_and!; [done|by inversion 1|done].
  - split.
    + intros H.
      assert (s_label summary = None) as E1.
      { rewrite El. apply pick_chain_None. intros p Hp. apply H.
        apply elem_of_app. by left. }
      assert (s_description summary = None) as E2.
      { rewrite Ed. apply pick_chain_None. intros p Hp. apply H.
        apply elem_of_app. by right. }
      destruct summary; simpl in *; congruence.
    + intros E p [Hp|Hp]%elem_of_app.
      * revert p Hp. apply pick_chain_None. rewrite <- El, E. done.
      * revert p Hp. apply pick_chain_None. rewrite <- Ed, E. done.
Qed.

Lemma C7_witness :
  s_label (extractTermSummary ex_quads "http://example.org/ex#Thing")
  = Some "Thing".
Proof.
  destruct (C7_summary_priority ex_quads "http://example.org/ex#Thing")
    as (Hlabel & _).
  apply Hlabel.
  exists [SKOS +:+ "prefLabel"], (RDFS +:+ "label"), [DCT +:+ "title"].
  split_and!; [reflexivity| |].
  - intros p ->%list_elem_of_singleton. constructor.
  - eexists [], _, []. split_and!; [reflexivity|constructor|].
    eexists _, _, _. split_and!; [reflexivity|reflexivity|done].
Defined.

(* ===================================================================== *)
(** * The version resolver                                                *)
(* ===================================================================== *)

Lemma truthy_opt_Some (a : option string) :
  truthy_opt a = true <-> exists x, a = Some x /\ x <> "".
Proof.
  destruct a as [x|]; simpl.
  - rewrite truthy_true. split; [eauto|]. by intros (? & [= <-] & ?).
  - split; [done|]. by intros (? & ? & _).
Qed.

Lemma candidates_elem (P : Platform) (info : LovInfo) (c : Candidate) :
  c ∈ candidates P info <->
  exists v ms,
    v ∈ versions_of info
    /\ usable_as P v (mkLatest (c_fileURL c) (c_issued c)) ms
    /\ c_issuedMs c = Some ms.
Proof.
  unfold candidates, usable_as, versions_of.
  rewrite list_elem_of_In, filter_In, in_map_iff.
  setoid_rewrite filter_In. setoid_rewrite <- list_elem_of_In.
  unfold isFinite, usable, to_candidate. rewrite bool_decide_eq_true.
  setoid_rewrite andb_true_iff. setoid_rewrite truthy_opt_Some. simpl. split.
  - intros ((v & <- & Hv & (f & Ef & Hf) & (i & Ei & Hi)) & [ms Hms]).
    simpl in *. rewrite Ef, Ei in *. simpl in *. exists v, ms. done.
  - intros (v & ms & Hv & (Ef & Hf & Ei & Hi & Hp) & Hms). split; [|eauto].
    exists v. rewrite Ef, Ei. simpl. destruct c; simpl in *.
    split; [congruence|eauto 8].
Qed.

Lemma candidates_finite (P : Platform) (info : LovInfo) :
  Forall (fun c => is_Some (c_issuedMs c)) (candidates P info).
Proof.
  apply Forall_forall. intros c (v & ms & _ & _ & ->)%candidates_elem. eauto.
Qed.

Lemma newest_first_total (a b : Candidate) :
  is_Some (c_issuedMs a) -> is_Some (c_issuedMs b) ->
  (newest_first a b <= 0 \/ newest_first b a <= 0)%Z.
Proof. unfold newest_first. intros [x ->] [y ->]. lia. Qed.

Lemma newest_first_trans (a b c : Candidate) :
  is_Some (c_issuedMs a) -> is_Some (c_issuedMs b) ->
  is_Some (c_issuedMs c) ->
  (newest_first a b <= 0 -> newest_first b c <= 0 ->
   newest_first a c <= 0)%Z.
Proof. unfold newest_first. intros [x ->] [y ->] [z ->]. lia. Qed.

Lemma latest_of_None (P : Platform) (info : LovInfo) :
  latest_of P info = None <->
  forall v l ms, v ∈ versions_of info -> ~ usable_as P v l ms.
Proof.
  unfold latest_of.
  destruct (JsArray.sort newest_first (candidates P info)) as [|c rest] eqn:E.
  - apply sort_nil_inv in E. split; [|done]. intros _ v l ms Hv Hu.
    assert (mkCandidate (fileURL l) (issued l) (Some ms) ∈ candidates P info)
      as Hc; [|rewrite E in Hc; inversion Hc].
    apply candidates_elem. exists v, ms. by destruct l.
  - split; [done|]. intros H.
    assert (c ∈ candidates P info) as Hc.
    { apply (sort_elem newest_first). rewrite E. left. }
    apply candidates_elem in Hc as (v & ms & Hv & Hu & _).
    destruct (H _ _ _ Hv Hu).
Qed.

Lemma latest_of_Some (P : Platform) (info : LovInfo) (l : Latest) :
  latest_of P info = Some l ->
  exists v ms,
    v ∈ versions_of info /\ usable_as P v l ms
    /\ forall v' l' ms',
         v' ∈ versions_of info -> usable_as P v' l' ms' -> (ms' <= ms)%Z.
Proof.
  unfold latest_of.
  destruct (JsArray.sort newest_first (candidates P info)) as [|c rest] eqn:E;
    [done|].
  intros [= <-].
  destruct (sort_head newest_first (fun c => is_Some (c_issuedMs c))
              newest_first_total newest_first_trans _ c rest
              (candidates_finite P info) E) as [Hc Hmax].
  apply candidates_elem in Hc as (v & ms & Hv & Hu & Hms).
  exists v, ms. split_and!; [done|done|].
  intros v' l' ms' Hv' Hu'.
  assert (mkCandidate (fileURL l') (issued l') (Some ms') ∈ candidates P info)
    as Hc'.
  { apply candidates_elem. exists v', ms'. by destruct l'. }
  destruct (Hmax _ Hc') as [<-|Hb].
  - simpl in Hms. injection Hms as ->. lia.
  - unfold before, newest_first in Hb. rewrite Hms in Hb. simpl in Hb. lia.
Qed.

Lemma extractLatestVersion_run (P : Platform) (prefix : string) (w : World) :
  extractLatestVersion P prefix w
  = (match http_info P (LOV_INFO_URL prefix) with
     | NetworkError msg => Thrown msg
     | Response st _ _ body =>
         if res_ok st
         then match body with
              | Some info => Returned (latest_of P info)
              | None => Thrown "Unexpected token in JSON"
              end
         else Thrown ("Fetch failed " ++ show_Z st ++ " for "
                      ++ LOV_INFO_URL prefix)
     end,
     mkWorld (files w) (trace w ++ [EvFetchJson (LOV_INFO_URL prefix)])).
Proof.
  unfold extractLatestVersion, fetchJson, bind, ret, emit. simpl.
  destruct (http_info P (LOV_INFO_URL prefix)) as [|st ? ? [info|]]; try done;
    by destruct (res_ok st).
Qed.

Lemma resolve_run (P : Platform) (prefix : string) (w : World) :
  match fst (extractLatestVersion P prefix w) with
  | Returned l => l
  | Thrown _ => None
  end = resolve P prefix.
Proof.
  rewrite extractLatestVersion_run. unfold resolve. simpl.
  destruct (http_info P (LOV_INFO_URL prefix)) as [|st ? ? [info|]]; try done;
    by destruct (res_ok st).
Qed.

(** [processOne], run: one equation per path through the function. *)
Lemma processOne_run (P : Platform) (v : VocabItem) (w : World) :
  processOne P v w
  = match resolve P (prefix v) with
    | None => (unresolved_result v, started v w)
    | Some latest =>
        if isUpToDate (hasFile_at w v) (meta_at w v) latest
        then (cached_result v latest (meta_at w v), started v w)
        else refetch P v latest (started v w)
    end.
Proof.
  unfold processOne, bind, ensureDir, emit.
  rewrite extractLatestVersion_run. cbn [files trace].
  rewrite <- !app_assoc. cbn [app].
  pose proof (resolve_run P (prefix v) w) as E.
  rewrite extractLatestVersion_run in E. cbn [fst] in E. rewrite E.
  fold (started v w). destruct (resolve P (prefix v)) as [latest|]; [|done].
  unfold readJsonIfExists, fileExists, bind, get_file, ret.
  cbn [files trace started].
  fold (meta_at w v). fold (hasFile_at w v). fold (started v w).
  by destruct (isUpToDate (hasFile_at w v) (meta_at w v) latest).
Qed.

Lemma resolve_None (P : Platform) (prefix : string) :
  resolve P prefix = None
  <-> registry_fails P prefix \/ registry_has_none P prefix.
Proof.
  unfold resolve, registry_fails, registry_has_none.
  destruct (http_info P (LOV_INFO_URL prefix)) as [|st ct url [info|]].
  - split; [by left|done].
  - destruct (res_ok st) eqn:E.
    + split.
      * intros H. right. by exists st, ct, url, info.
      * intros [[?|?]|(? & ? & ? & ? & [= <- <- <- <-] & _ & ?)]; done.
    + split; [left; by left|done].
  - split; [left; by right|done].
Qed.

(* ===================================================================== *)
(** * Tiny term files                                                     *)
(* ===================================================================== *)

(** Running a monadic program: unfold the primitives of the monad and of
    fsutil.ts, then project the worlds built on the way. *)
Ltac mrun :=
  cbv beta iota zeta delta
    [bind ret emit get_file put_file ensureDir fileExists readJsonIfExists
     writeJson writeText writeHtml];
  cbn [files trace fst snd].

Ltac mrun_in H :=
  cbv beta iota zeta delta
    [bind ret emit get_file put_file ensureDir fileExists readJsonIfExists
     writeJson writeText writeHtml] in H;
  cbn [files trace fst snd] in H.

Lemma writeTinyTermFile_run (P : Platform) (kind : Kind) (termIri : string)
  (store : Store) (w : World) :
  let w0 := mkWorld (files w)
              (trace w ++ [EvMkdir (path_join [] [kind_name kind])]) in
  writeTinyTermFile P kind termIri store w
  = match files w !! tiny_path kind termIri with
    | Some _ => (Some (tiny_href kind termIri), w0)
    | None =>
        match definitional store termIri with
        | [] => (None, w0)
        | _ :: _ =>
            let ttl := n3_write P (definitional store termIri) in
            (Some (tiny_href kind termIri),
             mkWorld (<[tiny_path kind termIri := TextFile ttl]> (files w))
               (trace w0
                ++ [EvMkdir (dirname (tiny_path kind termIri));
                    EvWriteFile (tiny_path kind termIri) (TextFile ttl)]))
        end
    end.
Proof.
  intros w0. unfold writeTinyTermFile. mrun.
  fold (tiny_path kind termIri). fold (tiny_href kind termIri). fold w0.
  destruct (files w !! tiny_path kind termIri) as [c|] eqn:E.
  - rewrite bool_decide_true by eauto. done.
  - rewrite bool_decide_false by apply is_Some_None.
    destruct (definitional store termIri) as [|q qs]; [done|].
    subst w0. cbv zeta. cbn [files trace]. by rewrite <- !app_assoc.
Qed.

(** C10: when the tiny file of a term exists, [writeTinyTermFile] returns
    its link whatever the graph holds for the term, and writes nothing;
    it returns no link exactly when the file does not exist and no quad of
    the term passes the allow-list, and then writes nothing either. *)
Theorem C10_tiny_file_fast_path (P : Platform) (kind : Kind)
  (termIri : string) (store : Store) (w : World) :
  let path := tiny_path kind termIri in
  let r := writeTinyTermFile P kind termIri store w in
  (is_Some (files w !! path) ->
     fst r = Some (tiny_href kind termIri)
     /\ files (snd r) = files w
     /\ trace (snd r) = trace w ++ [EvMkdir (path_join [] [kind_name kind])]
     /\ forall store', writeTinyTermFile P kind termIri store' w = r)
  /\ (fst r = None <->
      files w !! path = None /\ definitional store termIri = [])
  /\ (fst r = None -> files (snd r) = files w)
  /\ (files w !! path = None -> definitional store termIri <> [] ->
      fst r = Some (tiny_href kind termIri)
      /\ files (snd r)
         = <[path := TextFile (n3_write P (definitional store termIri))]>
             (files w)).
Proof.
  intros path r. subst r path. rewrite writeTinyTermFile_run.
  destruct (files w !! tiny_path kind termIri) as [c|] eqn:E.
  - split_and!; try done.
    + intros _. split_and!; try done.
      intros store'. by rewrite writeTinyTermFile_run, E.
    + split; [done|]. by intros [? _].
  - destruct (definitional store termIri) as [|q qs] eqn:Eq; cbv zeta;
      split_and!; try done;
      try (by intros [? ?]%is_Some_None);
      try (split; [done|]; by intros [_ ?]).
Qed.

(** After a first pass the tiny file of [ex:Thing] exists; asked again,
    with a graph that holds nothing, [writeTinyTermFile] returns its link
    and leaves the files as they are. *)
Lemma C10_witness :
  files mirrored !! tiny_path Classes "http://example.org/ex#Thing"
  = Some (TextFile (predicates_of
                      [ mkQuad Thing rdfType (NamedNode (OWL +:+ "Class"))
                          DefaultGraph;
                        mkQuad Thing (NamedNode (RDFS +:+ "label"))
                          (Literal "Thing" ""
                             "http://www.w3.org/2001/XMLSchema#string")
                          DefaultGraph ]))
  /\ fst (writeTinyTermFile good Classes "http://example.org/ex#Thing" []
            mirrored)
     = Some "classes/http%3A%2F%2Fexample.org%2Fex%23Thing.ttl"
  /\ files (snd (writeTinyTermFile good Classes "http://example.org/ex#Thing"
                   [] mirrored))
     = files mirrored.
Proof.
  split; [by vm_compute|].
  destruct (C10_tiny_file_fast_path good Classes "http://example.org/ex#Thing"
              [] mirrored) as (Hfast & _).
  destruct Hfast as (H1 & H2 & _); [vm_compute; eauto|].
  split; [exact H1|exact H2].
Defined.

(* ===================================================================== *)
(** * Paths                                                               *)
(* ===================================================================== *)

Lemma join1_regular (base : Path) (seg : string) :
  seg <> "" -> seg <> "." -> seg <> ".." -> join1 base seg = base ++ [seg].
Proof.
  intros H1 H2 H3. unfold join1.
  apply String.eqb_neq in H1, H2, H3. by rewrite H1, H2, H3.
Qed.

Lemma path_last (base : Path) (seg : string) :
  seg <> "" -> seg <> "." -> seg <> ".." ->
  last (path_join base [seg]) = Some seg.
Proof.
  intros. unfold path_join. simpl. rewrite join1_regular by done.
  apply last_snoc.
Qed.

Lemma ont_path_ne_meta (d d' : Path) :
  path_join d [OUT_FILENAME] <> path_join d' ["meta.json"].
Proof.
  intros E. apply (f_equal last) in E.
  rewrite !path_last in E by done. discriminate E.
Qed.

(* ===================================================================== *)
(** * The pipeline, run                                                   *)
(* ===================================================================== *)

Lemma isUpToDate_spec (w : World) (v : VocabItem) (latest : Latest) :
  isUpToDate (hasFile_at w v) (meta_at w v) latest = true
  <-> cache_valid w v latest.
Proof.
  unfold isUpToDate, cache_valid, hasFile_at, meta_at.
  rewrite !andb_true_iff, !bool_decide_eq_true. unfold strict_eq.
  destruct (files w !! prefixMetaPath v) as [[]|] eqn:E; simpl;
    try (split; [intros (((_ & ?) & _) & _); done
                |intros (_ & ? & ? & ? & _); done]).
  rewrite !String.eqb_eq. split.
  - intros (((? & ?) & ?) & Hc). split; [done|].
    destruct (convert meta) as [c|] eqn:Ec; [|done].
    exists meta, c. simpl in Hc. split_and!; try done. congruence.
  - intros (? & m & c & [= <-] & ? & ? & Hc & Ho). rewrite Hc. simpl.
    by rewrite Ho.
Qed.

Lemma fetchText_run (P : Platform) (url : string) (w : World) :
  fetchText P url w
  = (text_result url (http_text P url),
     mkWorld (files w) (trace w ++ [EvFetchText url])).
Proof. reflexivity. Qed.

Lemma parse_run (P : Platform) (text : string) (ct : option string)
  (base url : string) (w : World) :
  parseAndSerializeToTurtle P text ct base url w
  = (conversion P text ct base url,
     mkWorld (files w) (trace w ++ [EvConvert ct url])).
Proof. reflexivity. Qed.

Lemma termLinks_cons (P : Platform) (kind : Kind) (store : Store)
  (t : string) (iris : list string) (links : list TermInfo) (w : World) :
  termLinks P kind store (t :: iris) links w
  = let r := writeTinyTermFile P kind t store w in
    match fst r with
    | None => termLinks P kind store iris links (snd r)
    | Some href =>
        let s := extractTermSummary store t in
        termLinks P kind store iris
          (links ++ [mkTermInfo t href (s_label s) (s_description s)])
          (snd r)
    end.
Proof.
  cbn [termLinks]. unfold bind.
  by destruct (writeTinyTermFile P kind t store w) as [[h|] w1].
Qed.

(** The loop over the terms touches tiny files of its terms only. *)
Lemma termLinks_run (P : Platform) (kind : Kind) (store : Store)
  (iris : list string) (links : list TermInfo) (w : World) :
  let w' := snd (termLinks P kind store iris links w) in
  exists evs,
    trace w' = trace w ++ evs
    /\ Forall (tiny_event P kind store iris) evs
    /\ forall p, (forall t, t ∈ iris -> p <> tiny_path kind t) ->
                 files w' !! p = files w !! p.
Proof.
  revert links w. induction iris as [|t iris IH]; intros links w w'.
  - exists []. subst w'. simpl. rewrite app_nil_r. by split_and!.
  - subst w'. rewrite termLinks_cons, writeTinyTermFile_run.
    assert (forall evs, Forall (tiny_event P kind store iris) evs ->
                        Forall (tiny_event P kind store (t :: iris)) evs)
      as Hmono.
    { intros evs Hevs. eapply Forall_impl; [exact Hevs|].
      intros e [?|(t' & ? & ?)]; [by left|right].
      exists t'. split; [by right|done]. }
    destruct (files w !! tiny_path kind t) as [c|] eqn:E;
      [|destruct (definitional store t) as [|q qs] eqn:Eq];
      cbv beta iota zeta; cbn [fst snd].
    + edestruct (IH (links ++ [mkTermInfo t (tiny_href kind t)
                                 (s_label (extractTermSummary store t))
                                 (s_description (extractTermSummary store t))]))
        as (evs & Ht & Hev & Hf).
      exists ([EvMkdir (path_join [] [kind_name kind])] ++ evs). split_and!.
      * rewrite Ht. cbn [trace]. by rewrite <- app_assoc.
      * apply Forall_app. split; [|by apply Hmono].
        constructor; [left; eauto | constructor].
      * intros p Hp. rewrite Hf; [done|]. intros t' ?. apply Hp. by right.
    + edestruct (IH links) as (evs & Ht & Hev & Hf).
      exists ([EvMkdir (path_join [] [kind_name kind])] ++ evs). split_and!.
      * rewrite Ht. cbn [trace]. by rewrite <- app_assoc.
      * apply Forall_app. split; [|by apply Hmono].
        constructor; [left; eauto | constructor].
      * intros p Hp. rewrite Hf; [done|]. intros t' ?. apply Hp. by right.
    + edestruct (IH (links ++ [mkTermInfo t (tiny_href kind t)
                                 (s_label (extractTermSummary store t))
                                 (s_description (extractTermSummary store t))]))
        as (evs & Ht & Hev & Hf).
      exists ([EvMkdir (path_join [] [kind_name kind]);
               EvMkdir (dirname (tiny_path kind t));
               EvWriteFile (tiny_path kind t)
                 (TextFile (n3_write P (definitional store t)))] ++ evs).
      split_and!.
      * rewrite Ht. cbn [trace]. rewrite <- !app_assoc. by rewrite Eq.
      * apply Forall_app. split; [|by apply Hmono].
        constructor; [left; eauto|]. constructor; [left; eauto|].
        constructor; [|constructor].
        right. exists t. split; [left|done].
      * intros p Hp. rewrite Hf by (intros t' ?; apply Hp; by right).
        cbn [files]. apply lookup_insert_ne. symmetry. apply Hp. left.
Qed.

Lemma text_result_ok (url : string) (reply : Reply string) :
  fr_ok (text_result url reply) = true
  <-> exists text, fr_text (text_result url reply) = Some text.
Proof.
  destruct reply as [msg|st ct final body]; simpl.
  - split; [done|by intros [? ?]].
  - destruct (res_ok st); simpl.
    + split; eauto.
    + split; [done|by intros [? ?]].
Qed.

Lemma download_failed (P : Platform) (v : VocabItem) (latest : Latest)
  (fr : FetchResult) (w : World) :
  fr_ok fr = false \/ fr_text fr = None ->
  download P v latest fr w = (not_converted None, w).
Proof.
  unfold download. intros [-> | ->]; [done|]. by destruct (fr_ok fr).
Qed.

Lemma download_unconvertible (P : Platform) (v : VocabItem) (latest : Latest)
  (fr : FetchResult) (w : World) (text reason : string) :
  fr_ok fr = true -> fr_text fr = Some text ->
  conversion P text (fr_contentType fr) (uri v) (fileURL latest)
  = ParseFailed reason ->
  download P v latest fr w
  = (not_converted (Some reason),
     mkWorld (files w)
       (trace w ++ [EvConvert (fr_contentType fr) (fileURL latest)])).
Proof.
  intros Hok Htext Hconv. unfold download. rewrite Hok, Htext.
  unfold bind at 1. rewrite parse_run, Hconv. done.
Qed.

(** The events of a successful conversion: the artifact in both places,
    the tiny files of the classes and of the properties, the browsing
    index of the vocabulary. *)
Lemma download_converted (P : Platform) (v : VocabItem) (latest : Latest)
  (fr : FetchResult) (w : World) (text : string) (store : Store)
  (ttl : string) :
  fr_ok fr = true -> fr_text fr = Some text ->
  conversion P text (fr_contentType fr) (uri v) (fileURL latest)
  = ParseOk store ttl ->
  let found := findClassesAndProperties store in
  exists classLinks propLinks tiny1 tiny2 w',
    download P v latest fr w
    = (mkConverted (Some (fileByPrefix_of v)) (Some (fileByUri_of v))
         true None classLinks propLinks, w')
    /\ Forall (tiny_event P Classes store (classes found)) tiny1
    /\ Forall (tiny_event P Properties store (properties found)) tiny2
    /\ trace w'
       = trace w
         ++ [EvConvert (fr_contentType fr) (fileURL latest);
             EvMkdir (dirname (prefixOntPath v));
             EvWriteFile (prefixOntPath v) (TextFile ttl);
             EvMkdir (dirname (uriOntPath v));
             EvWriteFile (uriOntPath v) (TextFile ttl)]
         ++ tiny1 ++ tiny2
         ++ [EvMkdir (dirname (path_join (prefixDir_of v) ["index.html"]));
             EvWriteFile (path_join (prefixDir_of v) ["index.html"])
               (HtmlFile (PerOntologyIndexPage (prefix v) OUT_FILENAME
                            classLinks propLinks))].
Proof.
  intros Hok Htext Hconv found. unfold download. rewrite Hok, Htext.
  unfold bind at 1. rewrite parse_run, Hconv.
  unfold writePerOntologyIndexHtml. mrun. fold found.
  set (w1 := mkWorld _ _).
  destruct (termLinks_run P Classes store (classes found) [] w1)
    as (tiny1 & Ht1 & Hev1 & _).
  destruct (termLinks P Classes store (classes found) [] w1)
    as [classLinks w2] eqn:E1. cbn [snd] in Ht1.
  destruct (termLinks_run P Properties store (properties found) [] w2)
    as (tiny2 & Ht2 & Hev2 & _).
  destruct (termLinks P Properties store (properties found) [] w2)
    as [propLinks w3] eqn:E2. cbn [snd] in Ht2.
  eexists classLinks, propLinks, tiny1, tiny2, _.
  split_and!; [reflexivity|done|done|].
  cbn [trace]. rewrite Ht2, Ht1. subst w1. cbn [trace].
  by rewrite <- !app_assoc.
Qed.

Lemma refetch_run (P : Platform) (v : VocabItem) (latest : Latest)
  (w : World) :
  let fr := fetched P latest in
  let d := download P v latest fr
             (mkWorld (files w) (trace w ++ [EvFetchText (fileURL latest)])) in
  let meta := MetaFile (meta_record P v latest fr (fst d)) in
  refetch P v latest w
  = (fetched_result v latest fr (fst d),
     mkWorld (<[uriMetaPath v := meta]>
                (<[prefixMetaPath v := meta]> (files (snd d))))
       (trace (snd d)
        ++ [EvMkdir (dirname (prefixMetaPath v));
            EvWriteFile (prefixMetaPath v) meta;
            EvMkdir (dirname (uriMetaPath v));
            EvWriteFile (uriMetaPath v) meta])).
Proof.
  intros fr d meta. unfold refetch. unfold bind at 1. rewrite fetchText_run.
  fold (fetched P latest). fold fr. unfold bind at 1. fold d.
  destruct d as [c w2]. mrun. subst meta. cbn [fst].
  by rewrite <- !app_assoc.
Qed.

Lemma download_trace (P : Platform) (v : VocabItem) (latest : Latest)
  (fr : FetchResult) (w : World) :
  exists devs,
    trace (snd (download P v latest fr w)) = trace w ++ devs
    /\ (fr_ok fr = true -> is_Some (fr_text fr) ->
        exists devs',
          devs = EvConvert (fr_contentType fr) (fileURL latest) :: devs').
Proof.
  destruct (fr_ok fr) eqn:Hok; [destruct (fr_text fr) as [text|] eqn:Ht|].
  - destruct (conversion P text (fr_contentType fr) (uri v) (fileURL latest))
      as [store ttl|reason] eqn:Hc.
    + destruct (download_converted P v latest fr w text store ttl Hok Ht Hc)
        as (cl & pl & t1 & t2 & w' & E & _ & _ & Ht').
      rewrite E. cbn [snd]. rewrite Ht'.
      eexists. split; [reflexivity|]. intros _ _. simpl. eauto.
    + rewrite (download_unconvertible P v latest fr w text reason Hok Ht Hc).
      eexists. split; [reflexivity|]. eauto.
  - rewrite download_failed by by right. exists []. simpl.
    rewrite app_nil_r. split; [done|]. by intros _ [? ?].
  - rewrite download_failed by by left. exists []. simpl.
    rewrite app_nil_r. split; [done|]. done.
Qed.

(* ===================================================================== *)
(** * The cache contract                                                  *)
(* ===================================================================== *)

(** The contract for a pass that is [processOne] up to its download. *)
Lemma cache_contract_of_run (P : Platform) (v : VocabItem) (w : World)
  (again : Latest -> M ResultItem) (run : ResultItem * World) :
  run = match resolve P (prefix v) with
        | None => (unresolved_result v, started v w)
        | Some latest =>
            if isUpToDate (hasFile_at w v) (meta_at w v) latest
            then (cached_result v latest (meta_at w v), started v w)
            else again latest (started v w)
        end ->
  (forall latest w0,
     skipped (fst (again latest w0)) = false
     /\ exists evs,
          trace (snd (again latest w0))
          = trace w0 ++ EvFetchText (fileURL latest) :: evs
          /\ (fr_ok (fetched P latest) = true ->
              exists evs',
                evs = EvConvert (fr_contentType (fetched P latest))
                        (fileURL latest) :: evs')) ->
  cache_contract P v w (fst run) (snd run).
Proof.
  intros -> Hagain. unfold cache_contract.
  destruct (resolve P (prefix v)) as [latest|] eqn:Hres.
  - destruct (isUpToDate (hasFile_at w v) (meta_at w v) latest) eqn:Hup.
    + apply isUpToDate_spec in Hup. split_and!.
      * split; [eauto|done].
      * intros _. split_and!; [done|done|].
        eexists. split; [reflexivity|]. by repeat constructor.
      * intros latest' [= <-] Hn. done.
    + assert (~ cache_valid w v latest) as Hn.
      { intros H%isUpToDate_spec. congruence. }
      destruct (Hagain latest (started v w)) as (Hs & evs & Ht & Hc).
      split_and!.
      * rewrite Hs. split; [done|]. intros (latest' & [= <-] & ?). done.
      * by rewrite Hs.
      * intros latest' [= <-] _. split; [done|]. exists evs. done.
  - split_and!.
    + split; [done|]. by intros (? & ? & _).
    + done.
    + done.
Qed.

Lemma refetch_again (P : Platform) (v : VocabItem) (latest : Latest)
  (w0 : World) :
  skipped (fst (refetch P v latest w0)) = false
  /\ exists evs,
       trace (snd (refetch P v latest w0))
       = trace w0 ++ EvFetchText (fileURL latest) :: evs
       /\ (fr_ok (fetched P latest) = true ->
           exists evs',
             evs = EvConvert (fr_contentType (fetched P latest))
                     (fileURL latest) :: evs').
Proof.
  rewrite refetch_run. cbv zeta. cbn [fst snd skipped fetched_result].
  split; [done|].
  destruct (download_trace P v latest (fetched P latest)
              (mkWorld (files w0) (trace w0 ++ [EvFetchText (fileURL latest)])))
    as (devs & Ht & Hconv).
  eexists. split.
  - cbn [trace]. rewrite Ht. cbn [trace]. rewrite <- !app_assoc. reflexivity.
  - intros Hok. destruct Hconv as [devs' ->]; [done| |by eauto].
    apply text_result_ok in Hok as [text Ht']. unfold fetched. eauto.
Qed.

(** The pass of the monolithic script, run. *)
Lemma monolith_run (P : Platform) (v : VocabItem) (w : World) :
  Monolith.pass P v w
  = match resolve P (prefix v) with
    | None => (unresolved_result v, started v w)
    | Some latest =>
        if isUpToDate (hasFile_at w v) (meta_at w v) latest
        then (cached_result v latest (meta_at w v), started v w)
        else Monolith.refetch P v latest (started v w)
    end.
Proof.
  unfold Monolith.pass, bind, ensureDir, emit.
  rewrite extractLatestVersion_run. cbn [files trace].
  rewrite <- !app_assoc. cbn [app].
  pose proof (resolve_run P (prefix v) w) as E.
  rewrite extractLatestVersion_run in E. cbn [fst] in E. rewrite E.
  change (mkWorld _ _) with (started v w).
  destruct (resolve P (prefix v)) as [latest|]; [|done].
  unfold readJsonIfExists, fileExists, bind, get_file, ret.
  cbn [files trace started].
  change (match files w !! _ with Some (MetaFile m) => Some m | _ => None end)
    with (meta_at w v).
  change (bool_decide (is_Some (files w !! _))) with (hasFile_at w v).
  change (mkWorld _ _) with (started v w).
  by destruct (isUpToDate (hasFile_at w v) (meta_at w v) latest).
Qed.


Lemma monolith_download_trace (P : Platform) (v : VocabItem)
  (latest : Latest) (fr : FetchResult) (w : World) :
  exists devs,
    trace (snd (Monolith.download P v latest fr w)) = trace w ++ devs
    /\ (fr_ok fr = true -> is_Some (fr_text fr) ->
        exists devs',
          devs = EvConvert (fr_contentType fr) (fileURL latest) :: devs').
Proof.
  unfold Monolith.download.
  destruct (fr_ok fr) eqn:Hok; [destruct (fr_text fr) as [text|] eqn:Ht|].
  - unfold Monolith.convertToTurtleN3, Monolith.writeFile. mrun.
    destruct (Monolith.conversion P text (fr_contentType fr) (uri v)
                (fileURL latest)) as [ttl|reason]; mrun.
    + eexists. rewrite <- !app_assoc. split; [reflexivity|]. simpl. eauto.
    + eexists. split; [reflexivity|]. eauto.
  - exists []. simpl. rewrite app_nil_r. split; [done|]. by intros _ [? ?].
  - exists []. simpl. rewrite app_nil_r. split; [done|]. done.
Qed.

Lemma monolith_again (P : Platform) (v : VocabItem) (latest : Latest)
  (w0 : World) :
  skipped (fst (Monolith.refetch P v latest w0)) = false
  /\ exists evs,
       trace (snd (Monolith.refetch P v latest w0))
       = trace w0 ++ EvFetchText (fileURL latest) :: evs
       /\ (fr_ok (fetched P latest) = true ->
           exists evs',
             evs = EvConvert (fr_contentType (fetched P latest))
                     (fileURL latest) :: evs').
Proof.
  remember (Monolith.refetch P v latest w0) as run eqn:E.
  unfold Monolith.refetch in E. unfold bind at 1 in E.
  rewrite fetchText_run in E. fold (fetched P latest) in E.
  unfold bind at 1 in E.
  set (w1 := mkWorld (files w0) (trace w0 ++ [EvFetchText (fileURL latest)]))
    in E.
  destruct (monolith_download_trace P v latest (fetched P latest) w1)
    as (devs & Ht & Hconv).
  destruct (Monolith.download P v latest (fetched P latest) w1) as [d w2].
  cbn [snd] in Ht. mrun_in E. subst run. cbn [fst snd skipped trace].
  split; [done|]. eexists. split.
  - rewrite Ht. subst w1. cbn [trace]. rewrite <- !app_assoc. reflexivity.
  - intros Hok. destruct Hconv as [devs' ->]; [done| |by eauto].
    apply text_result_ok in Hok as [text Ht']. unfold fetched. eauto.
Qed.

(** C1: a pass takes the cache-hit path (a result with [skipped = true])
    if and only if a version is resolved, the artifact file exists, the
    recorded meta names exactly the file location and the time stamp of
    the resolved version, and the recorded conversion is ok.  On that path
    the result is ok and nothing is fetched, converted or written.  With a
    resolved version and any of the conditions failing, the file is
    fetched again, and converted again once the fetch succeeds.  This
    holds of [processOne] and of the pass of the monolithic script. *)
Theorem C1_cache_contract (P : Platform) (v : VocabItem) (w : World) :
  cache_contract P v w (fst (processOne P v w)) (snd (processOne P v w))
  /\ cache_contract P v w (fst (Monolith.pass P v w))
       (snd (Monolith.pass P v w)).
Proof.
  split.
  - apply (cache_contract_of_run P v w (refetch P v)).
    + apply processOne_run.
    + apply refetch_again.
  - apply (cache_contract_of_run P v w (Monolith.refetch P v)).
    + apply monolith_run.
    + apply monolith_again.
Qed.

(** A second pass over the mirror of [ex] is a cache hit and leaves the
    files as they are. *)
Lemma C1_witness :
  skipped (fst (processOne good ex mirrored)) = true
  /\ ok (fst (processOne good ex mirrored)) = true
  /\ files (snd (processOne good ex mirrored)) = files mirrored.
Proof.
  destruct (C1_cache_contract good ex mirrored) as ((Hiff & Hhit & _) & _).
  assert (skipped (fst (processOne good ex mirrored)) = true) as Hs.
  { apply Hiff. exists (mkLatest ttl_url ex_issued). split; [reflexivity|].
    split; [vm_compute; eauto|].
    eexists _, _. split_and!; [vm_compute; reflexivity|reflexivity..]. }
  destruct (Hhit Hs) as (Hok & Hf & _).
  split; [exact Hs|]. split; [exact Hok|exact Hf].
Defined.

(* ===================================================================== *)
(** * Persistence                                                         *)
(* ===================================================================== *)








(* ===================================================================== *)
(** * Conversion failures                                                 *)
(* ===================================================================== *)





(* ===================================================================== *)
(** * The index aggregator                                                *)
(* ===================================================================== *)

Lemma ns_push_fst (m : list (string * list ResultItem)) (ns : string)
  (r : ResultItem) :
  (ns_push m ns r).*1
  = if bool_decide (ns ∈ m.*1) then m.*1 else m.*1 ++ [ns].
Proof.
  induction m as [|[k arr] m IH].
  - done.
  - cbn [ns_push]. destruct (String.eqb_spec k ns) as [->|Hne].
    + rewrite !fmap_cons. cbn [fst].
      rewrite bool_decide_true; [done|]. left.
    + rewrite !fmap_cons, IH. cbn [fst]. case_bool_decide as H.
      * rewrite bool_decide_true; [done|]. by right.
      * rewrite bool_decide_false; [done|].
        intros [?|?]%elem_of_cons; congruence.
Qed.

Lemma ns_push_NoDup (m : list (string * list ResultItem)) (ns : string)
  (r : ResultItem) :
  NoDup m.*1 -> NoDup (ns_push m ns r).*1.
Proof.
  intros H. rewrite ns_push_fst. case_bool_decide; [done|].
  apply NoDup_app. split_and!; [done| |apply NoDup_singleton].
  intros x Hx ->%list_elem_of_singleton. done.
Qed.

Lemma ns_push_to_map (m : list (string * list ResultItem)) (ns : string)
  (r : ResultItem) :
  (list_to_map (ns_push m ns r) : gmap string (list ResultItem))
  = <[ns := default [] ((list_to_map m : gmap string (list ResultItem)) !! ns)
            ++ [r]]> (list_to_map m).
Proof.
  induction m as [|[k arr] m IH]; simpl; [done|].
  destruct (String.eqb_spec k ns) as [->|Hne]; simpl.
  - by rewrite lookup_insert_eq, insert_insert_eq.
  - rewrite IH, lookup_insert_ne by done. by apply insert_insert_ne.
Qed.

Lemma members_snoc (ns : string) (l : list ResultItem) (r : ResultItem) :
  members ns (l ++ [r])
  = members ns l ++ (if bool_decide (r_namespace r = Some ns) then [r] else []).
Proof. unfold members. by rewrite List.filter_app. Qed.

Lemma group_step_spec (acc : list (string * list ResultItem))
  (seen : list ResultItem) (r : ResultItem) :
  NoDup acc.*1 ->
  (forall ns, (list_to_map acc : gmap string (list ResultItem)) !! ns
              = group_of ns seen) ->
  NoDup (group_step acc r).*1
  /\ forall ns,
       (list_to_map (group_step acc r) : gmap string (list ResultItem)) !! ns
       = group_of ns (seen ++ [r]).
Proof.
  intros Hnd Hacc. unfold group_step.
  destruct (r_namespace r) as [ns0|] eqn:Ens; [destruct (truthy ns0) eqn:Et|].
  - split; [by apply ns_push_NoDup|]. intros ns.
    rewrite ns_push_to_map, Hacc. unfold group_of.
    rewrite members_snoc, Ens.
    destruct (decide (ns0 = ns)) as [->|Hne].
    + rewrite lookup_insert_eq, Et, bool_decide_true by done.
      by destruct (members ns seen).
    + rewrite lookup_insert_ne, Hacc by done. unfold group_of.
      rewrite bool_decide_false by congruence. by rewrite app_nil_r.
  - split; [done|]. intros ns. rewrite Hacc. unfold group_of.
    destruct (truthy ns) eqn:Etn; [|done].
    rewrite members_snoc, Ens, bool_decide_false, app_nil_r; [done|].
    intros [= ->]. congruence.
  - split; [done|]. intros ns. rewrite Hacc. unfold group_of.
    by rewrite members_snoc, Ens, bool_decide_false, app_nil_r.
Qed.

Lemma group_fold_spec (l : list ResultItem)
  (acc : list (string * list ResultItem)) (seen : list ResultItem) :
  NoDup acc.*1 ->
  (forall ns, (list_to_map acc : gmap string (list ResultItem)) !! ns
              = group_of ns seen) ->
  NoDup (fold_left group_step l acc).*1
  /\ forall ns,
       (list_to_map (fold_left group_step l acc)
          : gmap string (list ResultItem)) !! ns
       = group_of ns (seen ++ l).
Proof.
  revert acc seen. induction l as [|r l IH]; intros acc seen Hnd Hacc; simpl.
  - by rewrite app_nil_r.
  - destruct (group_step_spec acc seen r Hnd Hacc) as [Hnd' Hacc'].
    destruct (IH _ _ Hnd' Hacc') as [H1 H2]. split; [done|].
    intros ns. by rewrite H2, <- app_assoc.
Qed.

(** The groups of the namespace map. *)
Lemma group_by_namespace_spec (l : list ResultItem) :
  NoDup (group_by_namespace l).*1
  /\ forall ns arr,
       (ns, arr) ∈ group_by_namespace l
       <-> ns <> "" /\ arr <> [] /\ arr = members ns l.
Proof.
  destruct (group_fold_spec l [] []) as [Hnd Hg]; [apply NoDup_nil_2| |].
  { intros ns. unfold group_of. simpl. rewrite lookup_empty.
    by destruct (truthy ns). }
  split; [done|]. intros ns arr. unfold group_by_namespace.
  rewrite (elem_of_list_to_map (M := gmap string)) by done.
  rewrite Hg. simpl. unfold group_of.
  destruct (truthy ns) eqn:Et.
  - apply truthy_true in Et. destruct (members ns l) as [|r0 rs] eqn:Em.
    + split; [done|]. intros (_ & ? & ->). done.
    + split; [by intros [= <-]|]. by intros (_ & _ & ->).
  - split; [done|]. intros (Hne & _). apply truthy_true in Hne. congruence.
Qed.


Lemma filter_length_perm {A} (f : A -> bool) (l l' : list A) :
  l ≡ₚ l' -> length (List.filter f l) = length (List.filter f l').
Proof.
  induction 1 as [|x l l' _ IH|x y l|l l' l'' _ IH1 _ IH2]; simpl.
  - done.
  - destruct (f x); simpl; congruence.
  - by destruct (f x), (f y).
  - congruence.
Qed.


(* ===================================================================== *)
(** * The URI encoding of path segments                                   *)
(* ===================================================================== *)

Section EncodeFacts.
Local Open Scope N_scope.

(** Linear arithmetic with division and remainder by constants. *)
Ltac nlia := zify; Z.to_euclidean_division_equations; lia.

Lemma hex_val_digit (d : N) : d < 16 -> hex_val (hex_digit d) = Some d.
Proof.
  intros H.
  assert (d = 0 \/ d = 1 \/ d = 2 \/ d = 3 \/ d = 4 \/ d = 5 \/ d = 6 \/ d = 7
          \/ d = 8 \/ d = 9 \/ d = 10 \/ d = 11 \/ d = 12 \/ d = 13 \/ d = 14
          \/ d = 15) as Hd by lia.
  repeat (destruct Hd as [->|Hd]; [reflexivity|]). by subst.
Qed.

Lemma with_hex_digits {B} (b : N) (r : list N) (k : N -> list N -> option B) :
  b < 256 ->
  with_hex (hex_digit (b / 16) :: hex_digit (b mod 16) :: r) k = k b r.
Proof.
  intros H. unfold with_hex.
  rewrite !hex_val_digit by nlia. f_equal. nlia.
Qed.

Lemma with_escape_pct {B} (b : N) (r : list N)
  (k : N -> list N -> option B) :
  b < 256 -> with_escape (pct b ++ r) k = k b r.
Proof. intros H. unfold pct. simpl. by apply with_hex_digits. Qed.

Lemma decode_copy (c : N) (s : list N) :
  c <> 37 -> decodeURIComponent (c :: s) = cons c <$> decodeURIComponent s.
Proof.
  intros H. cbn [decodeURIComponent].
  by rewrite (proj2 (N.eqb_neq c 37) H).
Qed.

Lemma utf8_cp2_encoded (cp : N) :
  0x80 <= cp < 0x800 ->
  utf8_cp2 (0xC0 + cp / 64) (0x80 + cp mod 64) = Some cp.
Proof.
  intros H. unfold utf8_cp2, is_cont.
  replace ((0xC0 + cp / 64 - 0xC0) * 64 + (0x80 + cp mod 64 - 0x80)) with cp
    by nlia.
  by rewrite !(proj2 (N.leb_le _ _)) by nlia.
Qed.

Lemma utf8_cp3_encoded (cp : N) :
  0x800 <= cp < 0x10000 -> ~ (0xD800 <= cp <= 0xDFFF) ->
  utf8_cp3 (0xE0 + cp / 4096) (0x80 + (cp / 64) mod 64) (0x80 + cp mod 64)
  = Some cp.
Proof.
  intros H Hs. unfold utf8_cp3, is_cont.
  replace ((0xE0 + cp / 4096 - 0xE0) * 4096
           + (0x80 + (cp / 64) mod 64 - 0x80) * 64
           + (0x80 + cp mod 64 - 0x80)) with cp by nlia.
  rewrite !(proj2 (N.leb_le _ _)) by nlia. simpl.
  destruct (N.leb_spec 0xD800 cp), (N.leb_spec cp 0xDFFF); simpl; try done.
  lia.
Qed.

Lemma utf8_cp4_encoded (cp : N) :
  0x10000 <= cp < 0x110000 ->
  utf8_cp4 (0xF0 + cp / 262144) (0x80 + (cp / 4096) mod 64)
    (0x80 + (cp / 64) mod 64) (0x80 + cp mod 64)
  = Some cp.
Proof.
  intros H. unfold utf8_cp4, is_cont.
  replace ((0xF0 + cp / 262144 - 0xF0) * 262144
           + (0x80 + (cp / 4096) mod 64 - 0x80) * 4096
           + (0x80 + (cp / 64) mod 64 - 0x80) * 64
           + (0x80 + cp mod 64 - 0x80)) with cp by nlia.
  by rewrite !(proj2 (N.leb_le _ _)) by nlia.
Qed.

(** Decide the comparisons of the goal with constants. *)
Ltac decide_ltb :=
  repeat match goal with
    | |- context [?a <? ?b] =>
        first [ rewrite (proj2 (N.ltb_lt a b)) by nlia
              | rewrite (proj2 (N.ltb_ge a b)) by nlia ]
    end.

(** The escaped UTF-8 octets of a scalar value decode to its UTF-16
    form. *)
Lemma decode_escaped (cp : N) (s : list N) :
  scalar cp ->
  decodeURIComponent (pct_all (utf8 cp) ++ s)
  = app (utf16 cp) <$> decodeURIComponent s.
Proof.
  intros [Hmax Hsur]. unfold utf8.
  destruct (N.ltb_spec cp 0x80) as [H1|H1];
    [|destruct (N.ltb_spec cp 0x800) as [H2|H2];
      [|destruct (N.ltb_spec cp 0x10000) as [H3|H3]]];
    cbn [pct_all map concat pct app decodeURIComponent];
    change (37 =? 37) with true; cbn [negb];
    rewrite with_hex_digits by nlia; decide_ltb.
  - unfold utf16. rewrite (proj2 (N.leb_le cp 0xFFFF)) by lia.
    by destruct (decodeURIComponent s).
  - change (37 :: ?a :: ?b :: s) with (pct (0x80 + cp mod 64) ++ s).
    rewrite with_escape_pct by nlia.
    by rewrite utf8_cp2_encoded by lia.
  - change (37 :: ?a :: ?b :: 37 :: ?c :: ?d :: s)
      with (pct (0x80 + (cp / 64) mod 64) ++ pct (0x80 + cp mod 64) ++ s).
    rewrite !with_escape_pct by nlia.
    by rewrite utf8_cp3_encoded by lia.
  - change (37 :: ?a :: ?b :: 37 :: ?c :: ?d :: 37 :: ?e :: ?f :: s)
      with (pct (0x80 + (cp / 4096) mod 64) ++ pct (0x80 + (cp / 64) mod 64)
            ++ pct (0x80 + cp mod 64) ++ s).
    rewrite !with_escape_pct by nlia.
    by rewrite utf8_cp4_encoded by lia.
Qed.

(** Induction for functions that consume one or two elements a turn. *)
Lemma list_ind_2 {A} (Q : list A -> Prop) :
  Q [] ->
  (forall c r, Q r -> Q (tail r) -> Q (c :: r)) ->
  forall l, Q l.
Proof.
  intros Hnil Hstep l.
  assert (Q l /\ Q (tail l)) as [H _]; [|done].
  induction l as [|c r [IH1 IH2]]; [done|]. split; [by apply Hstep|done].
Qed.

Lemma is_lead_spec (c : N) : is_lead c = true <-> 0xD800 <= c <= 0xDBFF.
Proof. unfold is_lead. rewrite andb_true_iff, !N.leb_le. done. Qed.

Lemma is_trail_spec (c : N) : is_trail c = true <-> 0xDC00 <= c <= 0xDFFF.
Proof. unfold is_trail. rewrite andb_true_iff, !N.leb_le. done. Qed.

Lemma utf16_pair (c d : N) :
  is_lead c = true -> is_trail d = true ->
  scalar (pair_cp c d) /\ utf16 (pair_cp c d) = [c; d].
Proof.
  intros Hc%is_lead_spec Hd%is_trail_spec. unfold scalar, utf16, pair_cp.
  split; [nlia|].
  rewrite (proj2 (N.leb_gt _ _)) by nlia. f_equal; [nlia|]. f_equal. nlia.
Qed.

Lemma utf16_unit (c : N) :
  c < 65536 -> is_lead c = false -> is_trail c = false ->
  scalar c /\ utf16 c = [c].
Proof.
  intros Hc Hl Ht. unfold scalar, utf16.
  assert (~ 0xD800 <= c <= 0xDBFF) by (by rewrite <- is_lead_spec, Hl).
  assert (~ 0xDC00 <= c <= 0xDFFF) by (by rewrite <- is_trail_spec, Ht).
  split; [lia|]. by rewrite (proj2 (N.leb_le _ _)) by lia.
Qed.

(** Decoding what was encoded gives the string back. *)
Lemma decode_encode (x : list N) :
  code_units x ->
  forall s, encodeURIComponent x = Some s -> decodeURIComponent s = Some x.
Proof.
  induction x as [|c r IHr IHt] using list_ind_2; intros Hu s E.
  - by injection E as <-.
  - apply Forall_cons in Hu as [Hc Hr]. cbn [encodeURIComponent] in E.
    destruct (is_unreserved c) eqn:Eu; [|destruct (is_lead c) eqn:El].
    + destruct (encodeURIComponent r) as [sr|] eqn:Er; [|done].
      injection E as <-.
      rewrite decode_copy by (intros ->; discriminate Eu).
      by rewrite (IHr Hr sr).
    + destruct r as [|d r']; [done|]. destruct (is_trail d) eqn:Et; [|done].
      destruct (encodeURIComponent r') as [sr|] eqn:Er; [|done].
      injection E as <-. apply Forall_cons in Hr as [Hd Hr'].
      destruct (utf16_pair c d El Et) as [Hs H16].
      rewrite decode_escaped, (IHt Hr' sr) by done. simpl. by rewrite H16.
    + destruct (is_trail c) eqn:Et; [done|].
      destruct (encodeURIComponent r) as [sr|] eqn:Er; [|done].
      injection E as <-.
      destruct (utf16_unit c Hc El Et) as [Hs H16].
      rewrite decode_escaped, (IHr Hr sr) by done. simpl. by rewrite H16.
Qed.

(** The encoder throws on unpaired surrogates only. *)
Lemma encode_well_formed (x : list N) :
  well_formed x = true <-> is_Some (encodeURIComponent x).
Proof.
  induction x as [|c r IHr IHt] using list_ind_2; [by split; eauto|].
  cbn [well_formed encodeURIComponent].
  destruct (is_unreserved c) eqn:Eu; [|destruct (is_lead c) eqn:El].
  - assert (is_lead c = false /\ is_trail c = false) as [-> ->].
    { unfold is_unreserved in Eu. unfold is_lead, is_trail.
      rewrite !andb_false_iff, !N.leb_gt.
      rewrite !orb_true_iff, !andb_true_iff, !N.leb_le, !N.eqb_eq in Eu.
      lia. }
    simpl. rewrite IHr, !is_Some_alt.
    by destruct (encodeURIComponent r).
  - destruct r as [|d r']; [by split; [|intros [? ?]]|].
    destruct (is_trail d); simpl; [|by split; [|intros [? ?]]].
    simpl in IHt. rewrite IHt, !is_Some_alt.
    by destruct (encodeURIComponent r').
  - destruct (is_trail c); simpl; [by split; [|intros [? ?]]|].
    rewrite IHr, !is_Some_alt. by destruct (encodeURIComponent r).
Qed.

(** What the encoder writes is ASCII. *)
Lemma hex_digit_ascii (d : N) : d < 16 -> hex_digit d < 128.
Proof. unfold hex_digit. destruct (N.ltb_spec d 10); lia. Qed.

Lemma pct_all_ascii (bs : list N) :
  Forall (fun b => b < 256) bs -> Forall (fun u => u < 128) (pct_all bs).
Proof.
  induction 1 as [|b bs Hb _ IH]; [constructor|].
  unfold pct_all. cbn [map concat pct app].
  constructor; [lia|]. constructor; [apply hex_digit_ascii; nlia|].
  constructor; [apply hex_digit_ascii; nlia|done].
Qed.

Lemma utf8_octets (cp : N) : cp < 0x110000 -> Forall (fun b => b < 256) (utf8 cp).
Proof.
  intros H. unfold utf8.
  destruct (N.ltb_spec cp 0x80); [|destruct (N.ltb_spec cp 0x800);
    [|destruct (N.ltb_spec cp 0x10000)]];
    repeat (constructor; [nlia|]); constructor.
Qed.

Lemma encode_ascii (x s : list N) :
  code_units x -> encodeURIComponent x = Some s ->
  Forall (fun u => u < 128) s.
Proof.
  revert s. induction x as [|c r IHr IHt] using list_ind_2; intros s Hu E.
  - injection E as <-. constructor.
  - apply Forall_cons in Hu as [Hc Hr]. cbn [encodeURIComponent] in E.
    destruct (is_unreserved c) eqn:Eu; [|destruct (is_lead c) eqn:El].
    + destruct (encodeURIComponent r) as [sr|] eqn:Er; [|done].
      injection E as <-. constructor; [|by apply IHr].
      unfold is_unreserved in Eu.
      rewrite !orb_true_iff, !andb_true_iff, !N.leb_le, !N.eqb_eq in Eu. lia.
    + destruct r as [|d r']; [done|]. destruct (is_trail d) eqn:Et; [|done].
      destruct (encodeURIComponent r') as [sr|] eqn:Er; [|done].
      injection E as <-. apply Forall_cons in Hr as [Hd Hr'].
      apply Forall_app. split; [|by apply IHt].
      apply pct_all_ascii, utf8_octets.
      by destruct (utf16_pair c d El Et) as [[? _] _].
    + destruct (is_trail c) eqn:Et; [done|].
      destruct (encodeURIComponent r) as [sr|] eqn:Er; [|done].
      injection E as <-. apply Forall_app. split; [|by apply IHr].
      apply pct_all_ascii, utf8_octets. lia.
Qed.
End EncodeFacts.

(** ** The strings of the pipeline *)

Lemma units_bounded (s : string) : Forall (fun u => u < 256)%N (units s).
Proof.
  unfold units. induction s as [|a s IH]; simpl; constructor; [|done].
  apply N_ascii_bounded.
Qed.

Lemma of_units_units (s : string) : of_units (units s) = s.
Proof.
  unfold of_units, units. induction s as [|a s IH]; simpl; [done|].
  by rewrite ascii_N_embedding, IH.
Qed.

Lemma units_of_units (l : list N) :
  Forall (fun u => u < 256)%N l -> units (of_units l) = l.
Proof.
  unfold of_units, units. induction 1 as [|u l Hu _ IH]; simpl; [done|].
  by rewrite N_ascii_embedding, IH.
Qed.

Lemma units_code_units (s : string) : code_units (units s).
Proof.
  eapply Forall_impl; [apply units_bounded|]. simpl. lia.
Qed.

Lemma units_well_formed (s : string) : well_formed (units s) = true.
Proof.
  pose proof (units_bounded s) as H.
  induction H as [|u l Hu _ IH]; [done|]. cbn [well_formed].
  assert (is_lead u = false) as ->.
  { unfold is_lead. apply andb_false_iff. left. apply N.leb_gt. lia. }
  assert (is_trail u = false) as ->.
  { unfold is_trail. apply andb_false_iff. left. apply N.leb_gt. lia. }
  done.
Qed.

(** The encoder does not throw on the strings of the pipeline, and its
    output is the string the pipeline uses. *)
Lemma encode_str (x : string) :
  exists e, encodeURIComponent (units x) = Some e
            /\ units (encodeURIComponent_str x) = e.
Proof.
  destruct (proj1 (encode_well_formed (units x)) (units_well_formed x))
    as [e He].
  exists e. split; [done|]. unfold encodeURIComponent_str. rewrite He. simpl.
  apply units_of_units.
  eapply Forall_impl; [apply (encode_ascii (units x)), He|].
  - apply units_code_units.
  - simpl. lia.
Qed.

Lemma decode_encode_str (x : string) :
  decodeURIComponent (units (encodeURIComponent_str x)) = Some (units x).
Proof.
  destruct (encode_str x) as (e & He & ->).
  by apply (decode_encode (units x)); [apply units_code_units|].
Qed.

Lemma encodeURIComponent_str_inj (x y : string) :
  encodeURIComponent_str x = encodeURIComponent_str y -> x = y.
Proof.
  intros E. pose proof (decode_encode_str x) as Hx.
  rewrite E, decode_encode_str in Hx. injection Hx as Hx.
  by rewrite <- (of_units_units x), <- (of_units_units y), Hx.
Qed.

Lemma append_inj_r (a b c : string) : a +:+ c = b +:+ c -> a = b.
Proof.
  intros E. apply (f_equal String.length) in E as Hlen.
  assert (forall u v, String.length (u +:+ v)
                      = (String.length u + String.length v)%nat) as Happ.
  { induction u as [|? u IH]; intros v; simpl; [done|]. by rewrite IH. }
  rewrite !Happ in Hlen.
  revert b E Hlen. induction a as [|x a IH]; intros [|y b] E Hlen; simpl in *;
    try done; try lia.
  injection E as -> E. f_equal. apply IH; [done|lia].
Qed.

Lemma tiny_filename_inj (x y : string) :
  tiny_filename x = tiny_filename y -> x = y.
Proof.
  unfold tiny_filename, encUriSegment.
  intros E%append_inj_r. by apply encodeURIComponent_str_inj.
Qed.

Lemma tiny_filename_regular (x : string) :
  tiny_filename x <> "" /\ tiny_filename x <> "." /\ tiny_filename x <> "..".
Proof.
  unfold tiny_filename.
  assert (forall u, 4 <= String.length (u +:+ ".ttl"))%nat as Hlen.
  { induction u as [|? u IH]; simpl in *; lia. }
  specialize (Hlen (encUriSegment x)).
  split_and!; intros E; rewrite E in Hlen; simpl in Hlen; lia.
Qed.

Lemma tiny_path_eq (kind : Kind) (x : string) :
  tiny_path kind x = [kind_name kind; tiny_filename x].
Proof.
  destruct (tiny_filename_regular x) as (H1 & H2 & H3).
  unfold tiny_path, path_join. cbn [fold_left].
  rewrite (join1_regular _ (tiny_filename x)) by done. by destruct kind.
Qed.

(** C9: the encoding of the names of the tiny term files is reversible:
    decoding an encoded string gives the string back, the encoder throws
    on none but strings with an unpaired surrogate, never on the strings
    of the pipeline, and two distinct term IRIs have distinct file names
    and distinct file paths. *)
Theorem C9_reversible_term_keys :
  (forall x s, code_units x -> encodeURIComponent x = Some s ->
               decodeURIComponent s = Some x)
  /\ (forall x, well_formed x = true <-> is_Some (encodeURIComponent x))
  /\ (forall x : string,
        decodeURIComponent (units (encUriSegment x)) = Some (units x))
  /\ (forall x y, encUriSegment x = encUriSegment y -> x = y)
  /\ (forall x y, tiny_filename x = tiny_filename y -> x = y)
  /\ (forall kind x y, tiny_path kind x = tiny_path kind y -> x = y).
Proof.
  split_and!.
  - intros x s Hu E. by apply (decode_encode x).
  - apply encode_well_formed.
  - apply decode_encode_str.
  - apply encodeURIComponent_str_inj.
  - apply tiny_filename_inj.
  - intros kind x y E. rewrite !tiny_path_eq in E.
    injection E as E. by apply tiny_filename_inj.
Qed.

Lemma C9_witness :
  encUriSegment "http://example.org/ex#Thing"
  = "http%3A%2F%2Fexample.org%2Fex%23Thing"
  /\ decodeURIComponent (units "http%3A%2F%2Fexample.org%2Fex%23Thing")
     = Some (units "http://example.org/ex#Thing")
  /\ decodeURIComponent [37; 70; 48; 37; 57; 70; 37; 57; 56; 37; 56; 48]%N
     = Some [0xD83D; 0xDE00]%N.
Proof.
  destruct C9_reversible_term_keys as (Hunits & _ & Hstr & _).
  split_and!.
  - reflexivity.
  - exact (Hstr "http://example.org/ex#Thing").
  - apply (Hunits [0xD83D; 0xDE00]%N); [|reflexivity].
    repeat constructor.
Defined.

(* ===================================================================== *)
(** * Further properties: strings, content types and extensions          *)
(* ===================================================================== *)

Import More.

Lemma lower_char_ws (c : ascii) : is_ws (lower_char c) = is_ws c.
Proof. by destruct c as [[] [] [] [] [] [] [] []]. Qed.

Lemma lower_char_idem (c : ascii) : lower_char (lower_char c) = lower_char c.
Proof. by destruct c as [[] [] [] [] [] [] [] []]. Qed.

Lemma lower_char_semicolon (c : ascii) :
  not_semicolon (lower_char c) = not_semicolon c.
Proof. by destruct c as [[] [] [] [] [] [] [] []]. Qed.

Lemma lower_char_alnum (c : ascii) :
  is_alnum c = true -> is_lower_alnum (lower_char c) = true.
Proof. by destruct c as [[] [] [] [] [] [] [] []]. Qed.

Lemma toLowerCase_idem (s : string) : toLowerCase (toLowerCase s) = toLowerCase s.
Proof.
  induction s as [|c s IH]; simpl; [done|]. by rewrite lower_char_idem, IH.
Qed.

Lemma toLowerCase_trimStart (s : string) :
  toLowerCase (trimStart s) = trimStart (toLowerCase s).
Proof.
  induction s as [|c s IH]; simpl; [done|]. rewrite lower_char_ws.
  by destruct (is_ws c).
Qed.

Lemma toLowerCase_trimEnd (s : string) :
  toLowerCase (trimEnd s) = trimEnd (toLowerCase s).
Proof.
  induction s as [|c s IH]; simpl; [done|]. rewrite <- IH, lower_char_ws.
  destruct (trimEnd s); simpl; [|done]. by destruct (is_ws c).
Qed.

Lemma toLowerCase_trim (s : string) :
  toLowerCase (trim s) = trim (toLowerCase s).
Proof. unfold trim. by rewrite toLowerCase_trimEnd, toLowerCase_trimStart. Qed.

Lemma trimStart_no_leading (s : string) : no_leading_ws (trimStart s).
Proof.
  induction s as [|c s IH]; simpl; [done|].
  by destruct (is_ws c) eqn:E.
Qed.

Lemma trimStart_fixed (s : string) : no_leading_ws s -> trimStart s = s.
Proof. destruct s as [|c s]; simpl; [done|]. by intros ->. Qed.

Lemma trimEnd_no_trailing (s : string) : no_trailing_ws (trimEnd s).
Proof.
  induction s as [|c s IH]; simpl; [done|].
  destruct (trimEnd s) as [|d r] eqn:E.
  - by destruct (is_ws c) eqn:Ec.
  - done.
Qed.

Lemma trimEnd_fixed (s : string) : no_trailing_ws s -> trimEnd s = s.
Proof.
  induction s as [|c s IH]; [done|]. intros H.
  destruct s as [|d r].
  - simpl in *. by rewrite H.
  - change (trimEnd (String c (String d r)))
      with (match trimEnd (String d r) with
            | EmptyString => if is_ws c then EmptyString
                             else String c EmptyString
            | r' => String c r'
            end).
    by rewrite IH.
Qed.

Lemma trimEnd_no_leading (s : string) :
  no_leading_ws s -> no_leading_ws (trimEnd s).
Proof.
  destruct s as [|c s]; [done|]. simpl. intros H. rewrite H.
  destruct (trimEnd s); exact H.
Qed.

Lemma trim_trimmed (s : string) :
  no_leading_ws (trim s) /\ no_trailing_ws (trim s).
Proof.
  unfold trim. split.
  - apply trimEnd_no_leading, trimStart_no_leading.
  - apply trimEnd_no_trailing.
Qed.

Lemma trim_fixed (s : string) :
  no_leading_ws s -> no_trailing_ws s -> trim s = s.
Proof.
  intros H1 H2. unfold trim. by rewrite trimStart_fixed, trimEnd_fixed.
Qed.

Lemma trim_idem (s : string) : trim (trim s) = trim s.
Proof. destruct (trim_trimmed s). by apply trim_fixed. Qed.

Lemma all_chars_trimStart (f : ascii -> bool) (s : string) :
  all_chars f s = true -> all_chars f (trimStart s) = true.
Proof.
  induction s as [|c s IH]; simpl; [done|].
  intros [Hc Hs]%andb_true_iff. destruct (is_ws c); [by apply IH|].
  simpl. by rewrite Hc, Hs.
Qed.

Lemma all_chars_trimEnd (f : ascii -> bool) (s : string) :
  all_chars f s = true -> all_chars f (trimEnd s) = true.
Proof.
  induction s as [|c s IH]; simpl; [done|].
  intros [Hc Hs]%andb_true_iff. specialize (IH Hs).
  destruct (trimEnd s); simpl in *.
  - destruct (is_ws c); simpl; [done|]. by rewrite Hc.
  - by rewrite Hc.
Qed.

Lemma split_head_no_sep (s : string) :
  all_chars not_semicolon (split_head ";" s) = true.
Proof.
  induction s as [|c s IH]; simpl; [done|].
  destruct (Ascii.eqb c ";") eqn:E; simpl; [done|].
  unfold not_semicolon at 1. by rewrite E, IH.
Qed.

Lemma split_head_params (s p : string) :
  all_chars not_semicolon s = true ->
  split_head ";" (s +:+ String ";" p) = s.
Proof.
  induction s as [|c s IH]; simpl; [done|].
  intros [Hc Hs]%andb_true_iff. unfold not_semicolon in Hc.
  apply negb_true_iff in Hc. by rewrite Hc, IH.
Qed.

Lemma split_head_fixed (s : string) :
  all_chars not_semicolon s = true -> split_head ";" s = s.
Proof.
  induction s as [|c s IH]; simpl; [done|].
  intros [Hc Hs]%andb_true_iff. unfold not_semicolon in Hc.
  apply negb_true_iff in Hc. by rewrite Hc, IH.
Qed.

Lemma all_chars_toLowerCase_semicolon (s : string) :
  all_chars not_semicolon (toLowerCase s) = all_chars not_semicolon s.
Proof.
  induction s as [|c s IH]; simpl; [done|].
  by rewrite lower_char_semicolon, IH.
Qed.

Lemma contentTypeBase_fixed (r : string) :
  r <> "" -> all_chars not_semicolon r = true -> trim r = r ->
  toLowerCase r = r -> contentTypeBase (Some r) = Some r.
Proof.
  intros Hne Hs Ht Hl. unfold contentTypeBase.
  destruct r as [|c r]; [done|]. cbn [truthy].
  rewrite split_head_fixed by done. by rewrite Ht, Hl.
Qed.

(** X1: [contentTypeBase] gives [null] for [null] and the empty string
    only; what it returns holds no semicolon, is in lower case and has no
    white space around it, and it is unchanged when it is given back to
    the function; the parameters after the first semicolon play no
    role. *)
Theorem X1_contentTypeBase_normal_form (ct : option string) :
  (contentTypeBase ct = None <-> ct = None \/ ct = Some "")
  /\ (forall r, contentTypeBase ct = Some r ->
        all_chars not_semicolon r = true
        /\ toLowerCase r = r /\ trim r = r
        /\ (r <> "" -> contentTypeBase (Some r) = Some r))
  /\ (forall s params,
        ct = Some s -> s <> "" -> all_chars not_semicolon s = true ->
        contentTypeBase (Some (s +:+ String ";" params))
        = contentTypeBase ct).
Proof.
  split_and!.
  - destruct ct as [[|c s]|]; simpl; split; try done; eauto;
      try by intros [?|?].
  - intros r Hr. destruct ct as [[|c s]|]; try done.
    cbn [contentTypeBase truthy] in Hr. injection Hr as <-.
    set (h := split_head ";" (String c s)).
    assert (all_chars not_semicolon (toLowerCase (trim h)) = true) as Hsemi.
    { rewrite all_chars_toLowerCase_semicolon. unfold trim.
      apply all_chars_trimEnd, all_chars_trimStart, split_head_no_sep. }
    assert (trim (toLowerCase (trim h)) = toLowerCase (trim h)) as Htrim
      by by rewrite <- toLowerCase_trim, trim_idem.
    split_and!; [done|apply toLowerCase_idem|done|].
    intros Hne. apply contentTypeBase_fixed; [done..|].
    apply toLowerCase_idem.
  - intros s params -> Hne Hs. destruct s as [|c s]; [done|].
    cbn [contentTypeBase truthy String.append].
    change (String c (s +:+ String ";" params))
      with (String c s +:+ String ";" params).
    by rewrite split_head_params, split_head_fixed by done.
Qed.

Lemma X1_witness :
  contentTypeBase (Some (" Text/Turtle " +:+ String ";" "charset=UTF-8"))
  = contentTypeBase (Some " Text/Turtle ").
Proof.
  destruct (X1_contentTypeBase_normal_form (Some " Text/Turtle "))
    as (_ & _ & H).
  apply H; [reflexivity|discriminate|reflexivity].
Defined.

Lemma alnum_run_app (r run rest : string) (c : ascii) (q : string) :
  alnum_run r = (run, rest) -> is_alnum c = false ->
  alnum_run (r +:+ String c q) = (run, rest +:+ String c q).
Proof.
  revert run rest. induction r as [|d r IH]; intros run rest H Hc.
  - simpl in *. rewrite Hc. by injection H as <- <-.
  - simpl in *. destruct (is_alnum d).
    + destruct (alnum_run r) as [run' rest'] eqn:E.
      injection H as <- <-. by rewrite (IH _ _ eq_refl Hc).
    + by injection H as <- <-.
Qed.

Lemma alnum_run_alnum (s : string) :
  all_chars is_alnum (fst (alnum_run s)) = true.
Proof.
  induction s as [|c s IH]; simpl; [done|].
  destruct (is_alnum c) eqn:E; [|done].
  destruct (alnum_run s) as [run rest]. simpl in *. by rewrite E, IH.
Qed.

Lemma ext_match_alnum (s e : string) :
  ext_match s = Some e -> all_chars is_alnum e = true /\ e <> "".
Proof.
  induction s as [|c s IH]; simpl; [done|].
  destruct (Ascii.eqb c "."); [|done].
  pose proof (alnum_run_alnum s) as Ha.
  destruct (alnum_run s) as [run rest]. simpl in Ha.
  destruct (truthy run && ext_end rest) eqn:E; [|done].
  intros [= <-]. split; [done|]. by destruct run.
Qed.

Lemma ext_match_no_dot (s : string) :
  all_chars (fun c => negb (Ascii.eqb c ".")) s = true -> ext_match s = None.
Proof.
  induction s as [|c s IH]; simpl; [done|].
  intros [Hc Hs]%andb_true_iff. apply negb_true_iff in Hc.
  rewrite Hc. by apply IH.
Qed.

Lemma ext_end_app (rest : string) (c : ascii) (q : string) :
  is_query_or_fragment c = true ->
  ext_end (rest +:+ String c q) = ext_end rest.
Proof. by destruct rest. Qed.

Lemma ext_match_suffix (s e : string) (c : ascii) (q : string) :
  is_query_or_fragment c = true ->
  ext_match s = Some e -> ext_match (s +:+ String c q) = Some e.
Proof.
  intros Hc. assert (is_alnum c = false) as Hn.
  { unfold is_query_or_fragment in Hc.
    destruct (Ascii.eqb_spec c "?") as [->|_]; [done|].
    by destruct (Ascii.eqb_spec c "#") as [->|_]. }
  induction s as [|d s IH]; simpl; [done|].
  destruct (Ascii.eqb d "."); [|done].
  destruct (alnum_run s) as [run rest] eqn:E.
  rewrite (alnum_run_app _ _ _ _ q E Hn), ext_end_app by done.
  by destruct (truthy run && ext_end rest).
Qed.

Lemma all_chars_lower_alnum (s : string) :
  all_chars is_alnum s = true ->
  all_chars is_lower_alnum (toLowerCase s) = true.
Proof.
  induction s as [|c s IH]; simpl; [done|].
  intros [Hc Hs]%andb_true_iff. by rewrite lower_char_alnum, IH.
Qed.

(** X2: the extension [urlExt] reads off a URL is made of lower-case
    letters and digits only; it is empty for a URL without a dot; and
    once a URL has an extension, a query or a fragment appended to it
    does not change it. *)
Theorem X2_urlExt_shape (url : string) :
  all_chars is_lower_alnum (urlExt url) = true
  /\ (all_chars (fun c => negb (Ascii.eqb c ".")) url = true ->
      urlExt url = "")
  /\ (forall c rest,
        urlExt url <> "" -> is_query_or_fragment c = true ->
        urlExt (url +:+ String c rest) = urlExt url).
Proof.
  unfold urlExt. split_and!.
  - destruct (ext_match url) as [e|] eqn:E; simpl; [|done].
    apply all_chars_lower_alnum. by destruct (ext_match_alnum _ _ E).
  - intros H. by rewrite ext_match_no_dot.
  - intros c rest Hne Hc.
    destruct (ext_match url) as [e|] eqn:E; simpl in *; [|done].
    by rewrite (ext_match_suffix _ _ _ rest Hc E).
Qed.

Ltac eqb_cases :=
  repeat match goal with
  | |- context [String.eqb ?a ?b] =>
      destruct (String.eqb_spec a b); subst; cbn [orb andb]
  end.

Ltac fmt_done :=
  try done;
  try (intros _; split_and!; first [done | by eauto 10 | by intros [[=]|[=]]]);
  try (let H := fresh in
       intros H; decompose [and or] H; clear H; first [congruence | tauto]).

(** X3: a media type the parser reads decides the format whatever the
    URL is, in both copies of [n3FormatFor]; and the module's copy gives
    [null] exactly when neither the media type nor the extension names a
    format the parser reads and one of them stands for RDF/XML or
    JSON-LD. *)
Theorem X3_n3FormatFor_decision (ct : option string) (url : string) :
  (forall f, format_of_mime (contentTypeBase ct) = Some f ->
     n3FormatFor ct url = Some f /\ n3FormatFor_monolith ct url = Some f)
  /\ (n3FormatFor ct url = None <->
      format_of_mime (contentTypeBase ct) = None
      /\ format_of_ext (urlExt url) = None
      /\ (unsupported_mime ct \/ unsupported_ext (urlExt url))).
Proof.
  unfold n3FormatFor, n3FormatFor_monolith, format_of_mime, format_of_ext,
    unsupported_mime, unsupported_ext, strict_eq.
  generalize (urlExt url) as e. intros e.
  destruct (contentTypeBase ct) as [m|]; split.
  - intros f. eqb_cases; try done; by intros [= <-].
  - eqb_cases; split; fmt_done.
  - done.
  - cbn [orb]. eqb_cases; split; fmt_done.
Qed.

(** X4: the monolithic script's copy of [n3FormatFor] and the module's
    copy give different answers in one case only: the extension is
    [json] and the media type names no format, neither one read by the
    parser nor RDF/XML or JSON-LD; there the script parses the body as
    Turtle and the module skips it. *)
Theorem X4_n3FormatFor_copies (ct : option string) (url : string) :
  (n3FormatFor_monolith ct url <> n3FormatFor ct url <->
   urlExt url = "json"
   /\ format_of_mime (contentTypeBase ct) = None
   /\ ~ unsupported_mime ct)
  /\ (n3FormatFor_monolith ct url <> n3FormatFor ct url ->
      n3FormatFor_monolith ct url = Some Turtle
      /\ n3FormatFor ct url = None).
Proof.
  unfold n3FormatFor, n3FormatFor_monolith, format_of_mime,
    unsupported_mime, strict_eq.
  generalize (urlExt url) as e. intros e.
  destruct (contentTypeBase ct) as [m|]; split.
  - eqb_cases; split; fmt_done.
  - eqb_cases; done.
  - cbn [orb]. eqb_cases; split; fmt_done.
  - cbn [orb]. eqb_cases; done.
Qed.

(* ===================================================================== *)
(** * Further properties: the fetchers and the registry                  *)
(* ===================================================================== *)

Ltac fr_done :=
  try done;
  try (split; first [done | by eauto | by intros [? [=]]]);
  try (by intros [? [=]]).

(** X5: what [fetchText] returns is consistent: the result is ok exactly
    when it carries a body, and exactly when its status is in the range
    200-299; an ok result carries no error; an error is carried exactly
    when the network failed, and then the status is 0, the final URL is
    the requested one and there is no content type; the call writes no
    file. *)
Theorem X5_fetchText_result (P : Platform) (url : string) (w : World) :
  let fr := fst (fetchText P url w) in
  let w' := snd (fetchText P url w) in
  (fr_ok fr = true <-> is_Some (fr_text fr))
  /\ (fr_ok fr = true <-> res_ok (fr_status fr) = true)
  /\ (fr_ok fr = true -> fr_error fr = None)
  /\ (is_Some (fr_error fr) <->
      exists msg, http_text P url = NetworkError msg)
  /\ (is_Some (fr_error fr) ->
      fr_status fr = 0%Z /\ fr_finalUrl fr = url
      /\ fr_contentType fr = None)
  /\ files w' = files w /\ trace w' = trace w ++ [EvFetchText url].
Proof.
  rewrite fetchText_run. cbn [fst snd files trace]. unfold text_result.
  destruct (http_text P url) as [msg|st ct final body].
  - cbn. split_and!; fr_done.
  - destruct (res_ok st) eqn:E; cbn; rewrite ?E; split_and!; fr_done.
Qed.

Lemma or_else_truthy (a b : option string) (x : string) :
  or_else a b = Some x -> b <> Some "" -> x <> "".
Proof.
  unfold or_else. destruct a as [[|c s]|]; simpl; intros H Hb; try congruence.
Qed.

Lemma or_else_None_r (a : option string) : or_else a None <> Some "".
Proof. by destruct a as [[|c s]|]. Qed.

Lemma or_else_not_empty (a b : option string) :
  b <> Some "" -> or_else a b <> Some "".
Proof. by destruct a as [[|c s]|]. Qed.

Lemma omap_length_le {A B} (f : A -> option B) (l : list A) :
  length (omap f l) <= length l.
Proof.
  induction l as [|a l IH]; simpl; [done|].
  change (list_omap A B f l) with (omap f l).
  destruct (f a); simpl; lia.
Qed.

Lemma omap_filter_Forall2 {A B} (f : A -> option B) (keep : A -> bool)
  (R : A -> B -> Prop) (l : list A) :
  (forall a, match f a with
             | Some b => keep a = true /\ R a b
             | None => keep a = false
             end) ->
  Forall2 R (List.filter keep l) (omap f l).
Proof.
  intros H. induction l as [|a l IH]; [constructor|].
  cbn [List.filter]. simpl omap. change (list_omap A B f l) with (omap f l).
  specialize (H a). destruct (f a) as [b|].
  - destruct H as [-> HR]. by constructor.
  - by rewrite H.
Qed.

Lemma entry_item (e : LovListEntry) :
  match (match pickPrefix e, pickUri e with
         | Some prefix, Some uri =>
             Some (mkVocab prefix uri (pickNamespace e) (e_title e))
         | _, _ => None
         end) with
  | Some v => identified e = true /\ item_of e v
  | None => identified e = false
  end.
Proof.
  unfold pickPrefix, pickUri, pickNamespace, or_else, identified, item_of,
    first_present, present, absent.
  destruct e as [p vo u nsp ns ti]. cbn.
  destruct p as [[|??]|], vo as [[|??]|], u as [[|??]|]; cbn; try done;
    destruct nsp as [[|??]|], ns as [[|??]|]; cbn;
    (split; [done|]); split_and!; eauto 10.
Qed.

(** X6: [fetchLovList] returns, in the order of the registry's list, one
    vocabulary for every entry that has a URI and a prefix (or, failing
    that, a vocab field) that are not empty, and nothing else: entries
    without them are dropped.  The vocabulary has the entry's prefix (or
    vocab), its URI, its title, and as namespace the first of [nsp] and
    [namespace] that is not empty, if any.  So every vocabulary returned
    has a prefix and a URI that are not empty, and a namespace that is
    absent or not empty.  Nothing is written. *)
Theorem X6_fetchLovList_items (P : Platform) (w : World)
  (items : list VocabItem) :
  fst (fetchLovList P w) = Returned items ->
  Forall (fun v => prefix v <> "" /\ uri v <> ""
                   /\ namespace v <> Some "") items
  /\ files (snd (fetchLovList P w)) = files w
  /\ exists st ct u list,
       http_list P LOV_LIST_URL = Response st ct u (Some list)
       /\ res_ok st = true
       /\ Forall2 item_of (List.filter identified list) items
       /\ (forall e, identified e = true <-> exists v, item_of e v)
       /\ forall e v v', item_of e v -> item_of e v' -> v = v'.
Proof.
  unfold fetchLovList, fetchJson. mrun.
  destruct (http_list P LOV_LIST_URL) as [msg|st ct u body]; [done|].
  destruct (res_ok st) eqn:Est; [|done].
  destruct body as [list|]; [|done]. intros [= <-].
  split_and!; [|done|].
  - apply Forall_forall. intros v (e & He & Hv)%list_elem_of_omap.
    destruct (pickPrefix e) as [p|] eqn:Ep; [|done].
    destruct (pickUri e) as [u'|] eqn:Eu; [|done].
    injection Hv as <-. cbn. split_and!.
    + eapply or_else_truthy; [exact Ep|]. apply or_else_None_r.
    + eapply or_else_truthy; [exact Eu|done].
    + apply or_else_not_empty, or_else_None_r.
  - exists st, ct, u, list. split_and!; [done|done| | |].
    + apply omap_filter_Forall2. apply entry_item.
    + intros e. split.
      * intros He. pose proof (entry_item e) as H.
        destruct (match pickPrefix e, pickUri e with
                  | Some prefix, Some uri =>
                      Some (mkVocab prefix uri (pickNamespace e) (e_title e))
                  | _, _ => None
                  end) as [v|]; [|congruence].
        exists v. by destruct H.
      * intros (v & (Hp & (Hu & Hune) & _)).
        unfold identified. rewrite Hu.
        destruct (uri v) as [|c0 u0]; [done|].
        destruct Hp as [[-> Hne]|[_ [-> Hne]]].
        -- by destruct (prefix v).
        -- destruct (prefix v); [done|]. by destruct (e_prefix e) as [[|??]|].
    + intros e [p1 u1 n1 t1] [p2 u2 n2 t2].
      unfold item_of, first_present, present, absent. cbn.
      intros (Hp1 & (Hu1 & _) & Hn1 & ->) (Hp2 & (Hu2 & _) & Hn2 & ->).
      assert (p1 = p2) as -> by (destruct Hp1 as [[? ?]|[[?|?] [? ?]]],
        Hp2 as [[? ?]|[[?|?] [? ?]]]; congruence).
      assert (u1 = u2) as -> by congruence.
      f_equal.
      destruct n1 as [n1|], n2 as [n2|]; try done.
      * f_equal. destruct Hn1 as [[? ?]|[[?|?] [? ?]]],
          Hn2 as [[? ?]|[[?|?] [? ?]]]; congruence.
      * destruct Hn1 as [[? ?]|[[?|?] [? ?]]], Hn2 as [[?|?] [?|?]];
          congruence.
      * destruct Hn2 as [[? ?]|[[?|?] [? ?]]], Hn1 as [[?|?] [?|?]];
          congruence.
Qed.

Lemma X6_witness :
  Forall (fun v => prefix v <> "" /\ uri v <> "" /\ namespace v <> Some "")
    [ex].
Proof.
  destruct (X6_fetchLovList_items good empty_world [ex] eq_refl) as (H & _).
  exact H.
Defined.

Section FirstNewest.
Context {A B : Type} (h : A -> bool) (g : A -> B) (p : B -> bool).

(** Where an element of a filtered and mapped list comes from. *)
Lemma filter_map_filter_split (l : list A) (pre : list B) (c : B)
  (post : list B) :
  List.filter p (map g (List.filter h l)) = pre ++ c :: post ->
  exists lpre a lpost,
    l = lpre ++ a :: lpost /\ h a = true /\ g a = c /\ p c = true
    /\ pre = List.filter p (map g (List.filter h lpre))
    /\ post = List.filter p (map g (List.filter h lpost)).
Proof.
  revert pre. induction l as [|a l IH]; intros pre H.
  - by destruct pre.
  - simpl in H. destruct (h a) eqn:Eh; [simpl in H;
      destruct (p (g a)) eqn:Ep|].
    + destruct pre as [|x pre].
      * injection H as <- <-. exists [], a, l. by rewrite Eh, Ep.
      * injection H as <- H. destruct (IH _ H) as (lpre & a' & lpost & Hl).
        destruct Hl as (-> & ? & ? & ? & -> & ->).
        exists (a :: lpre), a', lpost. simpl. rewrite Eh. simpl.
        by rewrite Ep.
    + destruct (IH _ H) as (lpre & a' & lpost & Hl).
      destruct Hl as (-> & ? & ? & ? & -> & ->).
      exists (a :: lpre), a', lpost. simpl. rewrite Eh. simpl.
      by rewrite Ep.
    + destruct (IH _ H) as (lpre & a' & lpost & Hl).
      destruct Hl as (-> & ? & ? & ? & -> & ->).
      exists (a :: lpre), a', lpost. simpl. by rewrite Eh.
Qed.
End FirstNewest.

(** The head of the candidates sorted newest first is the first of the
    newest in the input. *)
Lemma sort_newest_first_head (l : list Candidate) (c : Candidate)
  (rest : list Candidate) :
  Forall (fun c => is_Some (c_issuedMs c)) l ->
  JsArray.sort newest_first l = c :: rest ->
  exists pre post,
    l = pre ++ c :: post
    /\ Forall (fun x => (0 < newest_first x c)%Z) pre
    /\ Forall (fun x => (newest_first c x <= 0)%Z) post.
Proof.
  revert c rest. induction l as [|x l IH]; intros c rest Hl E; [done|].
  apply Forall_cons in Hl as [Hx Hl].
  unfold JsArray.sort in E. simpl in E.
  fold (JsArray.sort newest_first l) in E.
  destruct (JsArray.sort newest_first l) as [|hd t] eqn:Es.
  - apply sort_nil_inv in Es as ->. simpl in E. injection E as <- <-.
    exists [], []. by split_and!.
  - destruct (IH _ _ Hl eq_refl) as (pre & post & -> & Hpre & Hpost).
    simpl in E. destruct (0 <? newest_first x hd)%Z eqn:Ec.
    + injection E as <- <-. exists (x :: pre), post.
      split_and!; [done| |done]. apply Z.ltb_lt in Ec. by constructor.
    + injection E as <- <-. exists [], (pre ++ hd :: post).
      split_and!; [done|constructor|].
      apply Forall_app in Hl as [Hlpre Hlpost].
      apply Forall_cons in Hlpost as [[mh Hmh] Hlpost].
      destruct Hx as [mx Hmx]. apply Z.ltb_ge in Ec.
      unfold newest_first in Ec. rewrite Hmx, Hmh in Ec.
      rewrite Forall_forall in Hpre, Hpost, Hlpre, Hlpost.
      apply Forall_forall. intros y [Hy|[->|Hy]%elem_of_cons]%elem_of_app.
      * destruct (Hlpre y Hy) as [my Hmy]. specialize (Hpre y Hy).
        unfold newest_first in Hpre |- *.
        rewrite Hmy, Hmh in Hpre. rewrite Hmx, Hmy. lia.
      * unfold newest_first. rewrite Hmx, Hmh. lia.
      * destruct (Hlpost y Hy) as [my Hmy]. specialize (Hpost y Hy).
        unfold newest_first in Hpost |- *.
        rewrite Hmy, Hmh in Hpost. rewrite Hmx, Hmy. lia.
Qed.

(** X7: of the usable versions with the greatest time, the resolver
    returns the one that comes first in the registry's answer: every
    usable version before it is strictly older, every usable version
    after it is not newer. *)
Theorem X7_latest_is_first_newest (P : Platform) (info : LovInfo)
  (l : Latest) :
  latest_of P info = Some l ->
  exists earlier v later ms,
    versions_of info = earlier ++ v :: later
    /\ usable_as P v l ms
    /\ (forall v' l' ms', v' ∈ earlier -> usable_as P v' l' ms' ->
                          (ms' < ms)%Z)
    /\ (forall v' l' ms', v' ∈ later -> usable_as P v' l' ms' ->
                          (ms' <= ms)%Z).
Proof.
  unfold latest_of.
  destruct (JsArray.sort newest_first (candidates P info)) as [|c rest] eqn:E;
    [done|].
  intros [= <-].
  destruct (sort_newest_first_head _ _ _ (candidates_finite P info) E)
    as (pre & post & Hc & Hpre & Hpost).
  unfold candidates in Hc. fold (versions_of info) in Hc.
  apply filter_map_filter_split in Hc
    as (earlier & v & later & Hv & Hu & <- & Hfin & -> & ->).
  assert (forall vs v' l' ms',
            v' ∈ vs -> usable_as P v' l' ms' ->
            to_candidate P v'
            ∈ List.filter (fun x => isFinite (c_issuedMs x))
                (map (to_candidate P) (List.filter usable vs))
            /\ c_issuedMs (to_candidate P v') = Some ms') as Hin.
  { intros vs v' l' ms' Hv' (Hf & Hfne & Hi & Hine & Hd).
    assert (c_issuedMs (to_candidate P v') = Some ms') as Hms
      by (unfold to_candidate; cbn; by rewrite Hi).
    split; [|done].
    rewrite list_elem_of_In, filter_In, in_map_iff. split.
    - exists v'. split; [done|]. rewrite filter_In, <- list_elem_of_In.
      split; [done|]. unfold usable. rewrite Hf, Hi. cbn.
      destruct (fileURL l'); [done|]. by destruct (issued l'). 
    - rewrite Hms. unfold isFinite. by apply bool_decide_eq_true. }
  unfold isFinite in Hfin. apply bool_decide_eq_true in Hfin as [ms Hms].
  exists earlier, v, later, ms. split_and!; [done| | |].
  - assert (v ∈ versions_of info) as Hmem
      by (rewrite Hv; apply elem_of_app; right; left).
    assert (to_candidate P v ∈ candidates P info) as Hcand.
    { rewrite <- (sort_elem newest_first), E. left. }
    apply candidates_elem in Hcand as (v0 & ms0 & _ & Hus & Hms0).
    rewrite Hms in Hms0. injection Hms0 as <-.
    destruct Hus as (Hf & Hfne & Hi & Hine & Hd). cbn in *.
    unfold usable in Hu. apply andb_true_iff in Hu as [Hu1 Hu2].
    destruct (v_fileURL v) as [f|] eqn:Ef; [|done].
    destruct (v_issued v) as [i|] eqn:Ei; [|done]. cbn in *.
    by split_and!.
  - intros v' l' ms' Hv' Hus. destruct (Hin _ _ _ _ Hv' Hus) as [Hc Hm].
    rewrite Forall_forall in Hpre. specialize (Hpre _ Hc).
    unfold newest_first in Hpre. rewrite Hm, Hms in Hpre. lia.
  - intros v' l' ms' Hv' Hus. destruct (Hin _ _ _ _ Hv' Hus) as [Hc Hm].
    rewrite Forall_forall in Hpost. specialize (Hpost _ Hc).
    unfold newest_first in Hpost. rewrite Hm, Hms in Hpost. lia.
Qed.

Lemma X7_witness :
  exists earlier v later ms,
    versions_of (ex_info ttl_url) = earlier ++ v :: later
    /\ usable_as good v (mkLatest ttl_url ex_issued) ms
    /\ (forall v' l' ms', v' ∈ earlier -> usable_as good v' l' ms' ->
                          (ms' < ms)%Z)
    /\ (forall v' l' ms', v' ∈ later -> usable_as good v' l' ms' ->
                          (ms' <= ms)%Z).
Proof.
  apply (X7_latest_is_first_newest good (ex_info ttl_url)). reflexivity.
Defined.

(* ===================================================================== *)
(** * Further properties: the tiny files and the links                   *)
(* ===================================================================== *)

Lemma tiny_path_inj (kind : Kind) (x y : string) :
  tiny_path kind x = tiny_path kind y -> x = y.
Proof.
  rewrite !tiny_path_eq. intros [= H]. by apply tiny_filename_inj.
Qed.

Lemma has_definition_true (store : Store) (t : string) :
  has_definition store t = true <-> definitional store t <> [].
Proof. unfold has_definition. by destruct (definitional store t). Qed.

Lemma tiny_keep (P : Platform) (kind : Kind) (t : string) (store : Store)
  (w : World) (p : Path) (c : FileContent) :
  files w !! p = Some c ->
  files (snd (writeTinyTermFile P kind t store w)) !! p = Some c.
Proof.
  intros Hp. rewrite writeTinyTermFile_run. cbv zeta.
  destruct (files w !! tiny_path kind t) eqn:E; [done|].
  destruct (definitional store t); [done|]. cbn [snd files].
  rewrite lookup_insert_ne; [done|]. intros <-. congruence.
Qed.

Lemma tiny_new (P : Platform) (kind : Kind) (t : string) (store : Store)
  (w : World) (p : Path) (c : FileContent) :
  files w !! p = None ->
  files (snd (writeTinyTermFile P kind t store w)) !! p = Some c ->
  p = tiny_path kind t /\ has_definition store t = true
  /\ c = TextFile (n3_write P (definitional store t)).
Proof.
  intros Hp. rewrite writeTinyTermFile_run. cbv zeta. unfold has_definition.
  destruct (files w !! tiny_path kind t) eqn:E; [cbn; congruence|].
  destruct (definitional store t) eqn:Ed; [cbn; congruence|].
  cbn [snd files]. intros H.
  destruct (decide (tiny_path kind t = p)) as [<-|Hne].
  - rewrite lookup_insert_eq in H. by injection H as <-.
  - rewrite lookup_insert_ne in H by done. congruence.
Qed.

Lemma tiny_fst (P : Platform) (kind : Kind) (t : string) (store : Store)
  (w : World) :
  fst (writeTinyTermFile P kind t store w)
  = if has_tiny_file w kind t || has_definition store t
    then Some (tiny_href kind t) else None.
Proof.
  rewrite writeTinyTermFile_run. cbv zeta.
  unfold has_tiny_file, has_definition.
  destruct (files w !! tiny_path kind t) eqn:E.
  - rewrite bool_decide_eq_true_2 by eauto. done.
  - rewrite bool_decide_eq_false_2 by (by intros [? ?]).
    by destruct (definitional store t).
Qed.

Lemma tiny_has (P : Platform) (kind : Kind) (t : string) (store : Store)
  (w : World) (t' : string) :
  has_tiny_file (snd (writeTinyTermFile P kind t store w)) kind t'
  || has_definition store t'
  = has_tiny_file w kind t' || has_definition store t'.
Proof.
  unfold has_tiny_file.
  destruct (files w !! tiny_path kind t') as [c|] eqn:E.
  - rewrite (tiny_keep _ _ _ _ _ _ _ E).
    by rewrite !bool_decide_eq_true_2 by eauto.
  - rewrite (bool_decide_eq_false_2 (is_Some None)) by (by intros [? ?]).
    destruct (files (snd (writeTinyTermFile P kind t store w))
                !! tiny_path kind t') as [c|] eqn:E'.
    + apply tiny_new in E' as (Heq & Hd & _); [|done].
      apply tiny_path_inj in Heq as ->. by rewrite Hd, orb_true_r.
    + by rewrite bool_decide_eq_false_2 by (by intros [? ?]).
Qed.

Lemma termLinks_fst (P : Platform) (kind : Kind) (store : Store)
  (iris : list string) (links : list TermInfo) (w : World) :
  fst (termLinks P kind store iris links w)
  = links
    ++ map (term_info kind store)
         (List.filter
            (fun t => has_tiny_file w kind t || has_definition store t)
            iris).
Proof.
  revert links w. induction iris as [|t iris IH]; intros links w.
  - simpl. by rewrite app_nil_r.
  - rewrite termLinks_cons. cbv zeta. rewrite tiny_fst. cbn [List.filter].
    destruct (has_tiny_file w kind t || has_definition store t).
    + rewrite IH, <- app_assoc. cbn [map app]. do 3 f_equal.
      apply List.filter_ext. intros t'. apply tiny_has.
    + rewrite IH. do 2 f_equal.
      apply List.filter_ext. intros t'. apply tiny_has.
Qed.

Lemma termLinks_keep (P : Platform) (kind : Kind) (store : Store)
  (iris : list string) (links : list TermInfo) (w : World) (p : Path)
  (c : FileContent) :
  files w !! p = Some c ->
  files (snd (termLinks P kind store iris links w)) !! p = Some c.
Proof.
  revert links w. induction iris as [|t iris IH]; intros links w Hp; [done|].
  rewrite termLinks_cons. cbv zeta.
  destruct (fst (writeTinyTermFile P kind t store w));
    by apply IH, tiny_keep.
Qed.

Lemma termLinks_new (P : Platform) (kind : Kind) (store : Store)
  (iris : list string) (links : list TermInfo) (w : World) (p : Path)
  (c : FileContent) :
  files w !! p = None ->
  files (snd (termLinks P kind store iris links w)) !! p = Some c ->
  exists t, t ∈ iris /\ p = tiny_path kind t
            /\ has_definition store t = true
            /\ c = TextFile (n3_write P (definitional store t)).
Proof.
  revert links w. induction iris as [|t iris IH]; intros links w Hp H.
  - simpl in H. congruence.
  - rewrite termLinks_cons in H. cbv zeta in H.
    set (w1 := snd (writeTinyTermFile P kind t store w)) in *.
    assert (exists links',
              files (snd (termLinks P kind store iris links' w1)) !! p
              = Some c) as [links' H'].
    { destruct (fst (writeTinyTermFile P kind t store w)); eauto. }
    clear H. destruct (files w1 !! p) as [c1|] eqn:E1.
    + pose proof (termLinks_keep P kind store iris links' w1 p c1 E1) as Hk.
      rewrite Hk in H'. injection H' as ->.
      apply tiny_new in E1 as (? & ? & ?); [|done].
      exists t. split; [left|done].
    + destruct (IH _ _ E1 H') as (t' & ? & ?). exists t'.
      split; [by right|done].
Qed.

Lemma termLinks_created (P : Platform) (kind : Kind) (store : Store)
  (iris : list string) (links : list TermInfo) (w : World) (t : string) :
  t ∈ iris -> has_definition store t = true ->
  is_Some (files (snd (termLinks P kind store iris links w))
             !! tiny_path kind t).
Proof.
  revert links w. induction iris as [|t0 iris IH]; intros links w Ht Hd.
  - inversion Ht.
  - rewrite termLinks_cons. cbv zeta.
    apply elem_of_cons in Ht as [->|Ht].
    + assert (is_Some (files (snd (writeTinyTermFile P kind t0 store w))
                         !! tiny_path kind t0)) as [c Hc].
      { rewrite writeTinyTermFile_run. cbv zeta.
        destruct (files w !! tiny_path kind t0) eqn:E;
          [cbn [snd files]; rewrite E; eauto|].
        apply has_definition_true in Hd.
        destruct (definitional store t0); [done|].
        cbn [snd files]. rewrite lookup_insert_eq. eauto. }
      destruct (fst (writeTinyTermFile P kind t0 store w));
        rewrite (termLinks_keep _ _ _ _ _ _ _ _ Hc); eauto.
    + destruct (fst (writeTinyTermFile P kind t0 store w)); by apply IH.
Qed.

Lemma List_filter_sublist {A} (f : A -> bool) (l : list A) :
  List.filter f l `sublist_of` l.
Proof.
  induction l as [|a l IH]; simpl; [done|].
  destruct (f a); by constructor.
Qed.

Lemma definitional_elem (store : Store) (t : string) (q : Quad) :
  q ∈ definitional store t
  <-> q ∈ store /\ subject q = NamedNode t
      /\ exists p, predicate q = NamedNode p /\ p ∈ DEF_PREDICATES.
Proof.
  unfold definitional.
  rewrite list_elem_of_In, filter_In, <- list_elem_of_In, getQuads_elem.
  cbn [matches]. rewrite bool_decide_eq_true. split.
  - intros ((Hq & Hs & _) & Hp). split_and!; [done|done|].
    destruct (predicate q) as [p| | | |]; try done.
    exists p. split; [done|]. by apply has_elem.
  - intros (Hq & Hs & p & Hp & Hin). split; [by split_and!|].
    rewrite Hp. by apply has_elem.
Qed.

Lemma typed_has_definition (types : list string) (store : Store)
  (t : string) :
  typed_as types store t -> definitional store t <> [].
Proof.
  intros (q & o & Hq & Hp & Hs & _) Hnil.
  assert (q ∈ definitional store t) as Hin.
  { apply definitional_elem. split_and!; [done|done|].
    exists (RDF +:+ "type"). split; [done|]. left. }
  rewrite Hnil in Hin. inversion Hin.
Qed.

(** X9: the quads of a tiny file are the quads of the store whose
    subject is the term and whose predicate is one of the definitional
    predicates, in the order of the store; as [rdf:type] is one of
    these, every class and every property [findClassesAndProperties]
    finds has such a quad, hence a tiny file and a link. *)
Theorem X9_definitional_quads (store : Store) (t : string) :
  (forall q, q ∈ definitional store t
             <-> q ∈ store /\ subject q = NamedNode t
                 /\ exists p, predicate q = NamedNode p
                              /\ p ∈ DEF_PREDICATES)
  /\ definitional store t `sublist_of` store
  /\ (t ∈ classes (findClassesAndProperties store)
      \/ t ∈ properties (findClassesAndProperties store) ->
      definitional store t <> []).
Proof.
  split_and!.
  - apply definitional_elem.
  - unfold definitional, getQuads.
    etrans; apply List_filter_sublist.
  - destruct (found_spec store) as (Hc & Hp & _).
    intros [H%Hc|H%Hp]; by eapply typed_has_definition.
Qed.

(* ===================================================================== *)
(** * Further properties: one pass over a vocabulary                     *)
(* ===================================================================== *)

Lemma download_inputs (P : Platform) (v : VocabItem) (latest : Latest)
  (fr : FetchResult) :
  (fr_ok fr = false \/ fr_text fr = None)
  \/ (exists text reason,
        fr_ok fr = true /\ fr_text fr = Some text
        /\ conversion P text (fr_contentType fr) (uri v) (fileURL latest)
           = ParseFailed reason)
  \/ (exists text store ttl,
        fr_ok fr = true /\ fr_text fr = Some text
        /\ conversion P text (fr_contentType fr) (uri v) (fileURL latest)
           = ParseOk store ttl).
Proof.
  destruct (fr_ok fr); [|by left; left].
  destruct (fr_text fr) as [text|]; [|by left; right].
  destruct (conversion P text (fr_contentType fr) (uri v) (fileURL latest))
    as [store ttl|reason] eqn:E; right; [right|left]; eauto 10.
Qed.

(** The files and the links of a download that converted. *)
Lemma download_converted_run (P : Platform) (v : VocabItem)
  (latest : Latest) (fr : FetchResult) (w : World) (text : string)
  (store : Store) (ttl : string) :
  fr_ok fr = true -> fr_text fr = Some text ->
  conversion P text (fr_contentType fr) (uri v) (fileURL latest)
  = ParseOk store ttl ->
  let found := findClassesAndProperties store in
  exists w1 tr,
    files w1
    = <[uriOntPath v := TextFile ttl]>
        (<[prefixOntPath v := TextFile ttl]> (files w))
    /\ let r1 := termLinks P Classes store (classes found) [] w1 in
       let r2 := termLinks P Properties store (properties found) []
                   (snd r1) in
       download P v latest fr w
       = (mkConverted (Some (fileByPrefix_of v)) (Some (fileByUri_of v))
            true None (fst r1) (fst r2),
          mkWorld
            (<[path_join (prefixDir_of v) ["index.html"]
               := HtmlFile (PerOntologyIndexPage (prefix v) OUT_FILENAME
                              (fst r1) (fst r2))]> (files (snd r2)))
            tr).
Proof.
  intros Hok Htext Hconv found. unfold download. rewrite Hok, Htext.
  unfold bind at 1. rewrite parse_run, Hconv.
  unfold writePerOntologyIndexHtml. mrun. fold found.
  set (w1 := mkWorld _ _). exists w1.
  destruct (termLinks P Classes store (classes found) [] w1)
    as [classLinks w2].
  cbn [fst snd].
  destruct (termLinks P Properties store (properties found) [] w2)
    as [propLinks w3].
  cbn [fst snd]. by eexists.
Qed.

Lemma filter_all {A} (f : A -> bool) (l : list A) :
  (forall x, x ∈ l -> f x = true) -> List.filter f l = l.
Proof.
  induction l as [|a l IH]; intros H; simpl; [done|].
  rewrite (H a) by left. f_equal. apply IH. intros x Hx. apply H. by right.
Qed.

Lemma termLinks_all (P : Platform) (kind : Kind) (store : Store)
  (iris : list string) (w : World) :
  (forall t, t ∈ iris -> definitional store t <> []) ->
  fst (termLinks P kind store iris [] w) = map (term_info kind store) iris.
Proof.
  intros H. rewrite termLinks_fst. cbn [app]. f_equal.
  apply filter_all. intros t Ht. apply orb_true_iff. right.
  apply has_definition_true. by apply H.
Qed.

Lemma lookup_insert_Some_mono (m : gmap Path FileContent) (p q : Path)
  (c : FileContent) :
  is_Some (m !! p) -> is_Some (<[q := c]> m !! p).
Proof.
  intros H. apply lookup_insert_is_Some.
  destruct (decide (q = p)); [by left|by right].
Qed.

Lemma not_own_paths (v : VocabItem) (p : Path) :
  p ∉ own_paths v ->
  p <> prefixOntPath v /\ p <> uriOntPath v /\ p <> prefixMetaPath v
  /\ p <> uriMetaPath v /\ p <> path_join (prefixDir_of v) ["index.html"].
Proof.
  unfold own_paths. rewrite !not_elem_of_cons. tauto.
Qed.

Lemma download_keep (P : Platform) (v : VocabItem) (latest : Latest)
  (fr : FetchResult) (w : World) (p : Path) (c : FileContent) :
  p ∉ own_paths v -> files w !! p = Some c ->
  files (snd (download P v latest fr w)) !! p = Some c.
Proof.
  intros (H1 & H2 & _ & _ & H5)%not_own_paths Hp.
  destruct (download_inputs P v latest fr)
    as [H|[(text & reason & Hok & Ht & Hc)|(text & store & ttl & Hok & Ht & Hc)]].
  - by rewrite download_failed.
  - by rewrite (download_unconvertible _ _ _ _ _ _ _ Hok Ht Hc).
  - destruct (download_converted_run _ _ _ _ w _ _ _ Hok Ht Hc)
      as (w1 & tr & Hw1 & ->). cbn [snd files].
    rewrite lookup_insert_ne by done.
    apply termLinks_keep, termLinks_keep.
    rewrite Hw1. by rewrite !lookup_insert_ne by done.
Qed.

Lemma download_frame (P : Platform) (v : VocabItem) (latest : Latest)
  (fr : FetchResult) (w : World) (p : Path) :
  p ∉ own_paths v -> (forall kind t, p <> tiny_path kind t) ->
  files (snd (download P v latest fr w)) !! p = files w !! p.
Proof.
  intros (H1 & H2 & _ & _ & H5)%not_own_paths Htiny.
  destruct (download_inputs P v latest fr)
    as [H|[(text & reason & Hok & Ht & Hc)|(text & store & ttl & Hok & Ht & Hc)]].
  - by rewrite download_failed.
  - by rewrite (download_unconvertible _ _ _ _ _ _ _ Hok Ht Hc).
  - destruct (download_converted_run _ _ _ _ w _ _ _ Hok Ht Hc)
      as (w1 & tr & Hw1 & ->). cbn [snd files].
    rewrite lookup_insert_ne by done.
    set (found := findClassesAndProperties store).
    destruct (termLinks_run P Properties store (properties found) []
                (snd (termLinks P Classes store (classes found) [] w1)))
      as (_ & _ & _ & ->); [|by intros ? _].
    destruct (termLinks_run P Classes store (classes found) [] w1)
      as (_ & _ & _ & ->); [|by intros ? _].
    rewrite Hw1. by rewrite !lookup_insert_ne by done.
Qed.

Lemma download_not_ok (P : Platform) (v : VocabItem) (latest : Latest)
  (fr : FetchResult) (w : World) :
  convertOk (fst (download P v latest fr w)) = false ->
  fileByPrefix' (fst (download P v latest fr w)) = None
  /\ fileByUri' (fst (download P v latest fr w)) = None.
Proof.
  destruct (download_inputs P v latest fr)
    as [H|[(text & reason & Hok & Ht & Hc)|(text & store & ttl & Hok & Ht & Hc)]].
  - by rewrite download_failed.
  - by rewrite (download_unconvertible _ _ _ _ _ _ _ Hok Ht Hc).
  - destruct (download_converted_run _ _ _ _ w _ _ _ Hok Ht Hc)
      as (w1 & tr & Hw1 & ->). done.
Qed.

Lemma download_ok (P : Platform) (v : VocabItem) (latest : Latest)
  (fr : FetchResult) (w : World) :
  convertOk (fst (download P v latest fr w)) = true ->
  fr_ok fr = true
  /\ fileByPrefix' (fst (download P v latest fr w))
     = Some (fileByPrefix_of v)
  /\ fileByUri' (fst (download P v latest fr w)) = Some (fileByUri_of v)
  /\ convertReason (fst (download P v latest fr w)) = None
  /\ is_Some (files (snd (download P v latest fr w)) !! prefixOntPath v)
  /\ is_Some (files (snd (download P v latest fr w)) !! uriOntPath v).
Proof.
  destruct (download_inputs P v latest fr)
    as [H|[(text & reason & Hok & Ht & Hc)|(text & store & ttl & Hok & Ht & Hc)]].
  - by rewrite download_failed.
  - by rewrite (download_unconvertible _ _ _ _ _ _ _ Hok Ht Hc).
  - destruct (download_converted_run _ _ _ _ w _ _ _ Hok Ht Hc)
      as (w1 & tr & Hw1 & ->). cbn [fst snd files]. intros _.
    assert (forall p, is_Some (files w1 !! p) ->
              is_Some (<[path_join (prefixDir_of v) ["index.html"]
                         := HtmlFile
                              (PerOntologyIndexPage (prefix v) OUT_FILENAME
                                 (fst (termLinks P Classes store
                                         (classes (findClassesAndProperties
                                                     store)) [] w1))
                                 (fst (termLinks P Properties store
                                         (properties (findClassesAndProperties
                                                        store)) []
                                         (snd (termLinks P Classes store
                                                 (classes
                                                    (findClassesAndProperties
                                                       store)) [] w1)))))]>
                         (files (snd (termLinks P Properties store
                                        (properties (findClassesAndProperties
                                                       store)) []
                                        (snd (termLinks P Classes store
                                                (classes
                                                   (findClassesAndProperties
                                                      store)) [] w1)))))
                       !! p)) as Hmono.
    { intros p [c Hc']. apply lookup_insert_Some_mono.
      exists c. by apply termLinks_keep, termLinks_keep. }
    split_and!; [done..| |]; apply Hmono; rewrite Hw1.
    + apply lookup_insert_Some_mono. rewrite lookup_insert_eq. eauto.
    + rewrite lookup_insert_eq. eauto.
Qed.

Lemma index_ne_meta (d d' : Path) :
  path_join d ["index.html"] <> path_join d' ["meta.json"].
Proof.
  intros H. apply (f_equal last) in H. by rewrite !path_last in H.
Qed.

Lemma fetched_ok_status (P : Platform) (latest : Latest) :
  fr_ok (fetched P latest) = res_ok (fr_status (fetched P latest))
  /\ (fr_ok (fetched P latest) = true -> fr_error (fetched P latest) = None).
Proof.
  unfold fetched, text_result.
  destruct (http_text P (fileURL latest)) as [msg|st ct final body];
    [done|].
  by destruct (res_ok st) eqn:E.
Qed.

(** The three ways a pass over a vocabulary ends. *)
Lemma pass_cases (P : Platform) (v : VocabItem) (w : World) :
  (resolve P (prefix v) = None
   /\ processOne P v w = (unresolved_result v, started v w))
  \/ (exists latest,
        resolve P (prefix v) = Some latest /\ cache_valid w v latest
        /\ processOne P v w
           = (cached_result v latest (meta_at w v), started v w))
  \/ (exists latest tr,
        resolve P (prefix v) = Some latest /\ ~ cache_valid w v latest
        /\ let fr := fetched P latest in
           let d := download P v latest fr
                      (mkWorld (files w)
                         (trace (started v w)
                          ++ [EvFetchText (fileURL latest)])) in
           let meta := MetaFile (meta_record P v latest fr (fst d)) in
           processOne P v w
           = (fetched_result v latest fr (fst d),
              mkWorld (<[uriMetaPath v := meta]>
                         (<[prefixMetaPath v := meta]> (files (snd d))))
                tr)).
Proof.
  rewrite processOne_run.
  destruct (resolve P (prefix v)) as [latest|]; [|by left].
  right. destruct (isUpToDate (hasFile_at w v) (meta_at w v) latest) eqn:E.
  - left. exists latest. split_and!; [done| |done].
    by apply isUpToDate_spec.
  - right. exists latest. rewrite refetch_run. cbv zeta. eexists.
    split_and!; [done| |reflexivity].
    intros H%isUpToDate_spec. congruence.
Qed.

Lemma meta_written (m : gmap Path FileContent) (v : VocabItem)
  (meta : FileContent) :
  <[uriMetaPath v := meta]> (<[prefixMetaPath v := meta]> m)
    !! prefixMetaPath v = Some meta.
Proof.
  destruct (decide (uriMetaPath v = prefixMetaPath v)) as [->|Hne].
  - by rewrite lookup_insert_eq.
  - by rewrite lookup_insert_ne, lookup_insert_eq.
Qed.

(** X10: when a pass fetches and converts the file of a vocabulary, the
    store is the N3 store filled with the quads the parser read, as it
    enumerates them; the result links every class and every property
    found in this store, in their sorted order and with the summaries read
    from it, and counts them; the page of the vocabulary shows the same
    two lists; and every one of these terms has its tiny file when the
    pass ends. *)
Theorem X10_links_of_a_pass (P : Platform) (v : VocabItem) (w : World)
  (latest : Latest) (text : string) (store : Store) (ttl : string) :
  resolve P (prefix v) = Some latest -> ~ cache_valid w v latest ->
  fr_ok (fetched P latest) = true ->
  fr_text (fetched P latest) = Some text ->
  conversion P text (fr_contentType (fetched P latest)) (uri v)
    (fileURL latest) = ParseOk store ttl ->
  let found := findClassesAndProperties store in
  let r := fst (processOne P v w) in
  let w' := snd (processOne P v w) in
  let cl := map (term_info Classes store) (classes found) in
  let pl := map (term_info Properties store) (properties found) in
  classLinks r = Some cl /\ propLinks r = Some pl
  /\ classCount r = Some (length (classes found))
  /\ propertyCount r = Some (length (properties found))
  /\ files w' !! path_join (prefixDir_of v) ["index.html"]
     = Some (HtmlFile (PerOntologyIndexPage (prefix v) OUT_FILENAME cl pl))
  /\ (forall t, t ∈ classes found ->
                is_Some (files w' !! tiny_path Classes t))
  /\ (forall t, t ∈ properties found ->
                is_Some (files w' !! tiny_path Properties t))
  /\ exists f quads,
       n3FormatFor (fr_contentType (fetched P latest)) (fileURL latest)
       = Some f
       /\ n3_parse P f (uri v) text = inl quads
       /\ store = n3_store P quads.
Proof.
  intros Hres Hmiss Hok Htext Hconv found r w' cl pl. subst r w'.
  assert (exists f quads,
            n3FormatFor (fr_contentType (fetched P latest)) (fileURL latest)
            = Some f
            /\ n3_parse P f (uri v) text = inl quads
            /\ store = n3_store P quads) as Hstore.
  { revert Hconv. unfold conversion.
    destruct (n3FormatFor _ _) as [f|]; [|done].
    destruct (n3_parse P f (uri v) text) as [quads|msg] eqn:E; [|done].
    intros [= <- _]. by exists f, quads. }
  destruct (pass_cases P v w)
    as [[Hnone _]|[(l & Hl & Hvalid & _)|(l & tr & Hl & _ & Hrun)]];
    [congruence| |].
  { rewrite Hres in Hl. injection Hl as <-. done. }
  rewrite Hres in Hl. injection Hl as <-. cbv zeta in Hrun. rewrite Hrun.
  clear Hrun. cbn [fst snd files].
  destruct (download_converted_run P v latest (fetched P latest)
              (mkWorld (files w)
                 (trace (started v w) ++ [EvFetchText (fileURL latest)]))
              text store ttl Hok Htext Hconv)
    as (w1 & tr' & Hw1 & Hd).
  cbv zeta in Hd. fold found in Hd. rewrite Hd. clear Hd.
  assert (forall t, t ∈ classes found -> definitional store t <> []) as Hc.
  { intros t Ht. destruct (found_spec store) as (Hcl & _).
    apply Hcl in Ht. by eapply typed_has_definition. }
  assert (forall t, t ∈ properties found -> definitional store t <> [])
    as Hp.
  { intros t Ht. destruct (found_spec store) as (_ & Hpr & _).
    apply Hpr in Ht. by eapply typed_has_definition. }
  rewrite !termLinks_all by done. fold cl pl.
  cbn [fst snd files fetched_result classLinks propLinks classCount
       propertyCount classLinks' propLinks'].
  subst cl pl. rewrite !length_map.
  split_and!; [done..| | | |exact Hstore].
  - rewrite !lookup_insert_ne by (symmetry; apply index_ne_meta).
    by rewrite lookup_insert_eq.
  - intros t Ht. do 3 apply lookup_insert_Some_mono.
    destruct (termLinks_created P Classes store (classes found) [] w1 t Ht)
      as [c Hfile]; [by apply has_definition_true, Hc|].
    exists c. by apply termLinks_keep.
  - intros t Ht. do 3 apply lookup_insert_Some_mono.
    apply termLinks_created; [done|]. by apply has_definition_true, Hp.
Qed.

Lemma X10_witness :
  classLinks (fst (processOne good ex empty_world))
  = Some (map (term_info Classes ex_quads)
            (classes (findClassesAndProperties ex_quads))).
Proof.
  assert (~ cache_valid empty_world ex (mkLatest ttl_url ex_issued)) as Hn.
  { intros [[c Hc] _]. vm_compute in Hc. discriminate Hc. }
  destruct (X10_links_of_a_pass good ex empty_world
              (mkLatest ttl_url ex_issued) "good" ex_quads
              (predicates_of ex_quads) eq_refl Hn eq_refl eq_refl eq_refl)
    as (H & _).
  exact H.
Defined.

Lemma pass_identity (P : Platform) (v : VocabItem) (w : World) :
  r_prefix (fst (processOne P v w)) = prefix v
  /\ r_uri (fst (processOne P v w)) = uri v
  /\ r_namespace (fst (processOne P v w)) = namespace v.
Proof.
  destruct (pass_cases P v w)
    as [[_ ->]|[(l & _ & _ & ->)|(l & tr & _ & _ & Hrun)]]; [done..|].
  cbv zeta in Hrun. by rewrite Hrun.
Qed.

(** X11: whatever the registry and the network answer, the result of a
    pass names the vocabulary it was made for; it is ok exactly when it
    links the two copies of the artifact, and then the artifact exists
    below the prefix; a skipped result is ok with status 304; a result
    that is ok and not skipped has a status in the range 200-299 and no
    note; a result that is not ok has a status outside that range. *)
Theorem X11_result_invariants (P : Platform) (v : VocabItem) (w : World) :
  let r := fst (processOne P v w) in
  let w' := snd (processOne P v w) in
  (r_prefix r = prefix v /\ r_uri r = uri v
   /\ r_namespace r = namespace v)
  /\ (ok r = true <->
      fileByPrefix r = Some (fileByPrefix_of v)
      /\ fileByUri r = Some (fileByUri_of v))
  /\ (ok r = false -> fileByPrefix r = None /\ fileByUri r = None)
  /\ (ok r = true -> is_Some (files w' !! prefixOntPath v))
  /\ (skipped r = true -> ok r = true /\ status r = 304%Z)
  /\ (ok r = true -> skipped r = false ->
      res_ok (status r) = true /\ note r = None)
  /\ (ok r = false -> res_ok (status r) = false).
Proof.
  intros r w'. split; [apply pass_identity|]. subst r w'.
  destruct (pass_cases P v w)
    as [[_ ->]|[(l & _ & Hvalid & ->)|(l & tr & _ & _ & Hrun)]].
  - cbn. split_and!; try done. split; [done|by intros [? ?]].
  - cbn. split_and!; try done. intros _. by destruct Hvalid.
  - cbv zeta in Hrun. rewrite Hrun. clear Hrun.
    set (d := download P v l (fetched P l) _).
    destruct (fetched_ok_status P l) as [Hst Herr].
    cbn [fst snd files fetched_result ok fileByPrefix fileByUri skipped
         status note].
    destruct (convertOk (fst d)) eqn:Ec.
    + destruct (download_ok _ _ _ _ _ Ec) as (Hok & Hp & Hu & Hr & Hf & _).
      fold d in Hp, Hu, Hr, Hf. rewrite Hok, Hp, Hu, Hr.
      cbn [andb nullish]. split_and!; try done.
      * intros _. by do 2 apply lookup_insert_Some_mono.
      * intros _ _. split; [congruence|by apply Herr].
    + destruct (download_not_ok _ _ _ _ _ Ec) as (Hp & Hu).
      fold d in Hp, Hu. rewrite Hp, Hu, andb_false_r.
      split_and!; try done.
      * split; [done|by intros [? ?]].
      * intros _. destruct (fr_ok (fetched P l)); [done|congruence].
Qed.

(** After a pass that ended ok, the cache is valid for the version the
    registry resolves. *)
Lemma pass_ok_valid (P : Platform) (v : VocabItem) (w : World) :
  ok (fst (processOne P v w)) = true ->
  exists latest,
    resolve P (prefix v) = Some latest
    /\ cache_valid (snd (processOne P v w)) v latest.
Proof.
  destruct (pass_cases P v w)
    as [[_ ->]|[(l & Hl & Hvalid & ->)|(l & tr & Hl & _ & Hrun)]].
  - done.
  - intros _. by exists l.
  - cbv zeta in Hrun. rewrite Hrun. clear Hrun.
    set (d := download P v l (fetched P l) _).
    cbn [fst snd fetched_result ok]. intros [Hok Hc]%andb_true_iff.
    exists l. split; [done|]. unfold cache_valid. cbn [files]. split.
    + do 2 apply lookup_insert_Some_mono.
      by destruct (download_ok _ _ _ _ _ Hc) as (_ & _ & _ & _ & Hf & _).
    + eexists _, _. split; [apply meta_written|].
      cbn. by split_and!.
Qed.

(** X12: a pass that ended ok makes the next pass a cache hit, as long
    as the registry still resolves the same version: the next pass is
    skipped and ok, links the same two copies, and leaves every file as
    it is. *)
Theorem X12_second_pass_is_a_hit (P : Platform) (v : VocabItem) (w : World) :
  ok (fst (processOne P v w)) = true ->
  let w1 := snd (processOne P v w) in
  let r2 := fst (processOne P v w1) in
  skipped r2 = true /\ ok r2 = true /\ status r2 = 304%Z
  /\ fileByPrefix r2 = fileByPrefix (fst (processOne P v w))
  /\ fileByUri r2 = fileByUri (fst (processOne P v w))
  /\ files (snd (processOne P v w1)) = files w1.
Proof.
  intros Hok w1 r2.
  assert (fileByPrefix (fst (processOne P v w)) = Some (fileByPrefix_of v)
          /\ fileByUri (fst (processOne P v w)) = Some (fileByUri_of v))
    as [-> ->].
  { destruct (pass_cases P v w)
      as [[_ E]|[(l & _ & _ & E)|(l & tr & _ & _ & E)]];
      cbv zeta in E; rewrite E in Hok |- *; [done..|].
    cbn [fst fetched_result ok fileByPrefix fileByUri] in Hok |- *.
    apply andb_true_iff in Hok as [_ Hc].
    by destruct (download_ok _ _ _ _ _ Hc) as (_ & -> & -> & _). }
  destruct (pass_ok_valid P v w Hok) as (l & Hl & Hvalid).
  fold w1 in Hvalid. subst r2.
  rewrite (processOne_run P v w1), Hl.
  apply isUpToDate_spec in Hvalid. by rewrite Hvalid.
Qed.

Lemma X12_witness :
  skipped (fst (processOne good ex (snd (processOne good ex empty_world))))
  = true.
Proof.
  assert (ok (fst (processOne good ex empty_world)) = true) as Hok
    by (vm_compute; reflexivity).
  destruct (X12_second_pass_is_a_hit good ex empty_world Hok) as (H & _).
  exact H.
Defined.



(* ===================================================================== *)
(** * Further properties: what a pass leaves alone                       *)
(* ===================================================================== *)

Lemma pass_keep (P : Platform) (v : VocabItem) (w : World) (p : Path)
  (c : FileContent) :
  p ∉ own_paths v -> files w !! p = Some c ->
  files (snd (processOne P v w)) !! p = Some c.
Proof.
  intros Hown Hp.
  destruct (pass_cases P v w)
    as [[_ ->]|[(l & _ & _ & ->)|(l & tr & _ & _ & Hrun)]]; [done..|].
  cbv zeta in Hrun. rewrite Hrun. cbn [snd files].
  destruct (not_own_paths _ _ Hown) as (_ & _ & H3 & H4 & _).
  rewrite !lookup_insert_ne by done. by apply download_keep.
Qed.

Lemma pass_frame (P : Platform) (v : VocabItem) (w : World) (p : Path) :
  p ∉ own_paths v -> (forall kind t, p <> tiny_path kind t) ->
  files (snd (processOne P v w)) !! p = files w !! p.
Proof.
  intros Hown Htiny.
  destruct (pass_cases P v w)
    as [[_ ->]|[(l & _ & _ & ->)|(l & tr & _ & _ & Hrun)]]; [done..|].
  cbv zeta in Hrun. rewrite Hrun. cbn [snd files].
  destruct (not_own_paths _ _ Hown) as (_ & _ & H3 & H4 & _).
  rewrite !lookup_insert_ne by done. by rewrite download_frame.
Qed.

Lemma encode_regular (x : string) :
  regular x -> regular (encodeURIComponent_str x).
Proof.
  intros (H1 & H2 & H3).
  split_and!; intros E; [apply H1|apply H2|apply H3];
    apply encodeURIComponent_str_inj; by rewrite E.
Qed.

Lemma dir_shape (root seg : string) :
  regular root ->
  (regular seg /\ path_join [] [root; seg] = [root; seg])
  \/ length (path_join [] [root; seg]) < 2.
Proof.
  intros (? & ? & ?). unfold path_join. cbn [fold_left].
  rewrite (join1_regular [] root) by done. cbn [app]. unfold join1.
  destruct (String.eqb_spec seg "") as [->|?]; [right; cbn; lia|].
  destruct (String.eqb_spec seg ".") as [->|?]; [right; cbn; lia|].
  destruct (String.eqb_spec seg "..") as [->|?]; [right; cbn; lia|].
  left. by split.
Qed.

Lemma file_in_dir (d : Path) (name : string) :
  regular name -> path_join d [name] = d ++ [name].
Proof. intros (? & ? & ?). unfold path_join. cbn. by apply join1_regular. Qed.

(** The shape of the paths a pass writes for its vocabulary. *)
Lemma own_paths_shape (v : VocabItem) (p : Path) :
  p ∈ own_paths v ->
  exists root seg name,
    p = path_join [] [root; seg] ++ [name]
    /\ regular root /\ regular name
    /\ ((root = "by-prefix" /\ seg = encodeURIComponent_str (prefix v))
        \/ (root = "by-uri" /\ seg = encodeURIComponent_str (uri v))).
Proof.
  unfold own_paths, prefixOntPath, uriOntPath, prefixMetaPath, uriMetaPath,
    prefixDir_of, uriDir_of, encPrefixSegment, encUriSegment.
  rewrite !elem_of_cons, elem_of_nil.
  intros [->|[->|[->|[->|[->|[]]]]]]; rewrite file_in_dir by done;
    eexists _, _, _; (split; [reflexivity|]);
    (split; [done|]); (split; [done|]); eauto.
Qed.

Lemma own_paths_disjoint (v v' : VocabItem) (p : Path) :
  regular (prefix v') -> regular (uri v') ->
  prefix v' <> prefix v -> uri v' <> uri v ->
  p ∈ own_paths v' ->
  (p ∉ own_paths v) /\ forall kind t, p <> tiny_path kind t.
Proof.
  intros Hrp Hru Hp Hu Hin.
  destruct (own_paths_shape _ _ Hin)
    as (root' & seg' & name' & -> & Hr' & Hn' & Hcase').
  assert (regular seg') as Hseg'.
  { destruct Hcase' as [[_ ->]|[_ ->]]; by apply encode_regular. }
  assert (path_join [] [root'; seg'] = [root'; seg']) as ->.
  { destruct Hr' as (? & ? & ?), Hseg' as (? & ? & ?).
    unfold path_join. cbn [fold_left].
    rewrite (join1_regular [] root') by done. cbn [app].
    by rewrite join1_regular. }
  split.
  - intros Hin2.
    destruct (own_paths_shape _ _ Hin2)
      as (root & seg & name & Heq & Hr & Hn & Hcase).
    destruct (dir_shape root seg Hr) as [[Hseg Hd]|Hlen].
    + rewrite Hd in Heq. cbn in Heq. injection Heq as -> -> ->.
      destruct Hcase' as [[E1 E2]|[E1 E2]], Hcase as [[E3 E4]|[E3 E4]];
        try congruence.
      * rewrite E2 in E4. by apply encodeURIComponent_str_inj in E4.
      * rewrite E2 in E4. by apply encodeURIComponent_str_inj in E4.
    + apply (f_equal length) in Heq. rewrite !length_app in Heq.
      cbn [length] in Heq. lia.
  - intros kind t Heq. rewrite tiny_path_eq in Heq. discriminate Heq.
Qed.

(** X14: a pass over a vocabulary leaves alone what is not its own: a
    file that exists and is none of its five files keeps its content; a
    path that is none of these and no tiny file of a term is neither
    created nor changed; so the five files of another vocabulary, one
    with another prefix and another URI that both name a directory, are
    as they were. *)
Theorem X14_pass_frame (P : Platform) (v : VocabItem) (w : World) :
  let w' := snd (processOne P v w) in
  (forall p c, p ∉ own_paths v -> files w !! p = Some c ->
               files w' !! p = Some c)
  /\ (forall p, p ∉ own_paths v -> (forall kind t, p <> tiny_path kind t) ->
                files w' !! p = files w !! p)
  /\ (forall v' p,
        regular (prefix v') -> regular (uri v') ->
        prefix v' <> prefix v -> uri v' <> uri v ->
        p ∈ own_paths v' -> files w' !! p = files w !! p).
Proof.
  split_and!.
  - intros p c. apply pass_keep.
  - intros p. apply pass_frame.
  - intros v' p Hrp Hru Hp Hu Hin.
    destruct (own_paths_disjoint v v' p Hrp Hru Hp Hu Hin).
    by apply pass_frame.
Qed.

(* ===================================================================== *)
(** * Further properties: namespaces, segments and summaries             *)
(* ===================================================================== *)

Lemma ns_push_total (m : list (string * list ResultItem)) (ns : string)
  (r : ResultItem) :
  total_members (ns_push m ns r) = S (total_members m).
Proof.
  unfold total_members. induction m as [|[k arr] m IH]; [done|].
  cbn [ns_push]. destruct (String.eqb k ns); cbn [map sum_list snd].
  - rewrite length_app. cbn. lia.
  - rewrite IH. lia.
Qed.

Lemma group_fold_total (l : list ResultItem)
  (acc : list (string * list ResultItem)) :
  total_members (fold_left group_step l acc)
  = total_members acc
    + length (List.filter (fun r => truthy_opt (r_namespace r)) l).
Proof.
  revert acc. induction l as [|r l IH]; intros acc; cbn [fold_left].
  - cbn. lia.
  - rewrite IH. unfold group_step. cbn [List.filter].
    destruct (r_namespace r) as [ns|]; cbn [truthy_opt]; [|lia].
    destruct (truthy ns); [|lia]. rewrite ns_push_total. cbn [length]. lia.
Qed.

(** X16: the namespace groups account for every result that has a
    namespace once: their sizes add up to the number of results with a
    namespace that is not empty, and every result in a group is one of
    the results, filed under its own namespace. *)
Theorem X16_namespace_groups_count (results : list ResultItem) :
  total_members (group_by_namespace results)
  = length (List.filter (fun r => truthy_opt (r_namespace r)) results)
  /\ forall ns arr r,
       (ns, arr) ∈ group_by_namespace results -> r ∈ arr ->
       r ∈ results /\ r_namespace r = Some ns.
Proof.
  split.
  - unfold group_by_namespace. by rewrite group_fold_total.
  - intros ns arr r Hg Hr.
    destruct (group_by_namespace_spec results) as [_ Hspec].
    apply Hspec in Hg as (_ & _ & ->). unfold members in Hr.
    apply list_elem_of_In, filter_In in Hr as [Hr Hns].
    apply bool_decide_eq_true in Hns. by rewrite <- list_elem_of_In in Hr.
Qed.

Section SegmentFacts.
Local Open Scope N_scope.

Ltac nlia := zify; Z.to_euclidean_division_equations; lia.

Lemma hex_digit_unreserved (d : N) :
  d < 16 -> is_unreserved (hex_digit d) = true.
Proof.
  intros H.
  assert (d = 0 \/ d = 1 \/ d = 2 \/ d = 3 \/ d = 4 \/ d = 5 \/ d = 6 \/ d = 7
          \/ d = 8 \/ d = 9 \/ d = 10 \/ d = 11 \/ d = 12 \/ d = 13 \/ d = 14
          \/ d = 15) as Hd by lia.
  repeat (destruct Hd as [->|Hd]; [reflexivity|]). by subst.
Qed.

Lemma pct_all_segment (bs : list N) :
  Forall (fun b => b < 256) bs ->
  Forall (fun u => is_segment_unit u = true) (pct_all bs).
Proof.
  induction 1 as [|b bs Hb _ IH]; [constructor|].
  unfold pct_all. cbn [map concat pct app].
  constructor; [done|]. unfold is_segment_unit.
  constructor; [rewrite hex_digit_unreserved by nlia; done|].
  constructor; [rewrite hex_digit_unreserved by nlia; done|done].
Qed.

Lemma encode_alphabet (x s : list N) :
  code_units x -> encodeURIComponent x = Some s ->
  Forall (fun u => is_segment_unit u = true) s.
Proof.
  revert s. induction x as [|c r IHr IHt] using list_ind_2; intros s Hu E.
  - injection E as <-. constructor.
  - apply Forall_cons in Hu as [Hc Hr]. cbn [encodeURIComponent] in E.
    destruct (is_unreserved c) eqn:Eu; [|destruct (is_lead c) eqn:El].
    + destruct (encodeURIComponent r) as [sr|] eqn:Er; [|done].
      injection E as <-. constructor; [|by apply IHr].
      unfold is_segment_unit. by rewrite Eu.
    + destruct r as [|d r']; [done|]. destruct (is_trail d) eqn:Et; [|done].
      destruct (encodeURIComponent r') as [sr|] eqn:Er; [|done].
      injection E as <-. apply Forall_cons in Hr as [Hd Hr'].
      apply Forall_app. split; [|by apply IHt].
      apply pct_all_segment, utf8_octets.
      by destruct (utf16_pair c d El Et) as [[? _] _].
    + destruct (is_trail c) eqn:Et; [done|].
      destruct (encodeURIComponent r) as [sr|] eqn:Er; [|done].
      injection E as <-. apply Forall_app. split; [|by apply IHr].
      apply pct_all_segment, utf8_octets. lia.
Qed.
End SegmentFacts.

Lemma all_chars_units (g : N -> bool) (s : string) :
  Forall (fun u => g u = true) (units s) ->
  all_chars (fun c => g (code c)) s = true.
Proof.
  unfold units. induction s as [|c s IH]; cbn; [done|].
  intros [Hc Hs]%Forall_cons. unfold code. rewrite Hc. by apply IH.
Qed.

Lemma all_chars_impl (f g : ascii -> bool) (s : string) :
  (forall c, f c = true -> g c = true) ->
  all_chars f s = true -> all_chars g s = true.
Proof.
  intros Hfg. induction s as [|c s IH]; cbn; [done|].
  intros [Hc Hs]%andb_true_iff. by rewrite (Hfg c Hc), IH.
Qed.

Lemma segment_alphabet (x : string) :
  all_chars (fun c => is_segment_unit (code c)) (encodeURIComponent_str x)
  = true.
Proof.
  apply all_chars_units.
  destruct (encode_str x) as (e & He & ->).
  eapply encode_alphabet; [apply units_code_units|exact He].
Qed.

(** X17: a segment made by [encPrefixSegment] or [encUriSegment] holds
    unreserved characters and percent signs only, hence no separator of
    a path or of a URL; and it names a directory entry, being neither
    empty nor [.] nor [..], exactly when the text it encodes does. *)
Theorem X17_segment_alphabet (x : string) :
  all_chars (fun c => is_segment_unit (code c)) (encPrefixSegment x) = true
  /\ all_chars (fun c => is_segment_unit (code c)) (encUriSegment x) = true
  /\ all_chars (fun c => negb (Ascii.eqb c "/") && negb (Ascii.eqb c ":")
                         && negb (Ascii.eqb c "?") && negb (Ascii.eqb c "#")
                         && negb (Ascii.eqb c "&") && negb (Ascii.eqb c " "))
       (encUriSegment x) = true
  /\ (regular x <-> regular (encUriSegment x)).
Proof.
  unfold encPrefixSegment, encUriSegment.
  split_and!; [apply segment_alphabet..| |].
  - eapply all_chars_impl; [|apply segment_alphabet].
    intros c. by destruct c as [[] [] [] [] [] [] [] []].
  - split; [apply encode_regular|].
    intros (H1 & H2 & H3). split_and!; by intros ->.
Qed.

Lemma append_inj_l (c a b : string) : c +:+ a = c +:+ b -> a = b.
Proof.
  induction c as [|x c IH]; cbn; [done|]. intros [= H]. by apply IH.
Qed.

(** X18: the registry call of a vocabulary is its own: two prefixes with
    the same info URL are the same prefix; and the prefix is passed in
    unreserved characters and percent signs only, so that it cannot end
    the query or add a parameter to it. *)
Theorem X18_info_url_injective (a b : string) :
  (LOV_INFO_URL a = LOV_INFO_URL b -> a = b)
  /\ exists q,
       LOV_INFO_URL a = LOV_INFO_URL "" +:+ q
       /\ all_chars (fun c => negb (Ascii.eqb c "&")
                              && negb (Ascii.eqb c "#")
                              && negb (Ascii.eqb c "="))
            q = true.
Proof.
  split.
  - unfold LOV_INFO_URL. intros H.
    by apply append_inj_l, encodeURIComponent_str_inj in H.
  - exists (encodeURIComponent_str a). split; [reflexivity|].
    eapply all_chars_impl; [|apply segment_alphabet].
    intros c. by destruct c as [[] [] [] [] [] [] [] []].
Qed.

Lemma dir_regular (root seg : string) :
  regular root -> regular seg -> path_join [] [root; seg] = [root; seg].
Proof.
  intros (? & ? & ?) (? & ? & ?). unfold path_join. cbn [fold_left].
  rewrite (join1_regular [] root) by done. cbn [app].
  by rewrite join1_regular.
Qed.

(** X19: for a vocabulary whose prefix and URI name a directory, the
    links a result carries are the paths of the files the pass writes,
    segment by segment: the two copies of the artifact lie two levels
    below the root, next to their metadata, and a link is the path
    joined with slashes; the link of a term is the path of its tiny
    file in the same way, for every term. *)
Theorem X19_links_are_paths (v : VocabItem) :
  regular (prefix v) -> regular (uri v) ->
  prefixOntPath v = ["by-prefix"; encPrefixSegment (prefix v); OUT_FILENAME]
  /\ uriOntPath v = ["by-uri"; encUriSegment (uri v); OUT_FILENAME]
  /\ prefixMetaPath v = ["by-prefix"; encPrefixSegment (prefix v); "meta.json"]
  /\ uriMetaPath v = ["by-uri"; encUriSegment (uri v); "meta.json"]
  /\ fileByPrefix_of v = String.concat "/" (prefixOntPath v)
  /\ fileByUri_of v = String.concat "/" (uriOntPath v)
  /\ forall kind t, tiny_href kind t = String.concat "/" (tiny_path kind t).
Proof.
  intros Hp%encode_regular Hu%encode_regular.
  assert (prefixDir_of v = ["by-prefix"; encPrefixSegment (prefix v)]) as Hpd
    by (by apply dir_regular).
  assert (uriDir_of v = ["by-uri"; encUriSegment (uri v)]) as Hud
    by (by apply dir_regular).
  unfold prefixOntPath, uriOntPath, prefixMetaPath, uriMetaPath.
  rewrite Hpd, Hud, !file_in_dir by done. cbn [app].
  split_and!; [done..|].
  intros kind t. rewrite tiny_path_eq. by destruct kind.
Qed.

Lemma X19_witness :
  fileByPrefix_of ex = String.concat "/" (prefixOntPath ex).
Proof.
  assert (regular (prefix ex)) as Hp by (split_and!; discriminate).
  assert (regular (uri ex)) as Hu by (split_and!; discriminate).
  destruct (X19_links_are_paths ex Hp Hu) as (_ & _ & _ & _ & H & _).
  exact H.
Defined.

Lemma chosen_literal (preds : list string) (store : Store) (t v : string) :
  chosen preds store t v ->
  v <> "" /\ trim v = v
  /\ exists q p raw lang dt,
       q ∈ store /\ subject q = NamedNode t /\ predicate q = NamedNode p
       /\ p ∈ preds /\ object q = Literal raw lang dt /\ v = trim raw.
Proof.
  intros (pre & p & post & -> & _ & qs1 & q & qs2 & Hq & _ & Hlit).
  destruct Hlit as (raw & lang & dt & Ho & <- & Hne).
  split_and!; [done|apply trim_idem|].
  assert (q ∈ statements store t p) as Hin
    by (rewrite Hq; apply elem_of_app; right; left).
  apply getQuads_elem in Hin as (Hs & Hsub & Hpred & _).
  apply matches_Some in Hsub, Hpred.
  exists q, p, raw, lang, dt. split_and!; try done.
  apply elem_of_app. right. left.
Qed.

(** X20: a label or a description in the summary of a term is never
    empty and has no white space at either end; it is the trimmed value
    of a literal that the store states about the term with one of the
    label predicates, or one of the description predicates. *)
Theorem X20_summary_values (store : Store) (t : string) :
  let s := extractTermSummary store t in
  (forall v, s_label s = Some v ->
     v <> "" /\ trim v = v /\ no_leading_ws v /\ no_trailing_ws v
     /\ exists q p raw lang dt,
          q ∈ store /\ subject q = NamedNode t /\ predicate q = NamedNode p
          /\ p ∈ LABEL_PREDICATES /\ object q = Literal raw lang dt
          /\ v = trim raw)
  /\ (forall v, s_description s = Some v ->
        v <> "" /\ trim v = v /\ no_leading_ws v /\ no_trailing_ws v
        /\ exists q p raw lang dt,
             q ∈ store /\ subject q = NamedNode t
             /\ predicate q = NamedNode p
             /\ p ∈ DESCRIPTION_PREDICATES /\ object q = Literal raw lang dt
             /\ v = trim raw).
Proof.
  assert (forall preds v, pick_chain store t preds = Some v ->
            v <> "" /\ trim v = v /\ no_leading_ws v /\ no_trailing_ws v
            /\ exists q p raw lang dt,
                 q ∈ store /\ subject q = NamedNode t
                 /\ predicate q = NamedNode p
                 /\ p ∈ preds /\ object q = Literal raw lang dt
                 /\ v = trim raw) as H.
  { intros preds v Hv%pick_chain_Some%chosen_literal.
    destruct Hv as (Hne & Ht & Hq). split_and!; [done|done| | |done].
    - rewrite <- Ht. apply trim_trimmed.
    - rewrite <- Ht. apply trim_trimmed. }
  split; intros v Hv; by apply H.
Qed.

(* ===================================================================== *)
(** * Further properties: JSON calls, the store and the pages            *)
(* ===================================================================== *)

(** X21: [fetchJson] returns a value exactly when the answer has a
    status in the range 200-299 and a body that is JSON; otherwise it
    throws, for a status outside the range with a message that names the
    status and the URL; the call is recorded and no file is written. *)
Theorem X21_fetchJson_outcome {T} (net : string -> Reply (option T))
  (url : string) (w : World) :
  let r := fst (fetchJson net url w) in
  let w' := snd (fetchJson net url w) in
  (forall t, r = Returned t <->
     exists st ct u, net url = Response st ct u (Some t)
                     /\ res_ok st = true)
  /\ (forall st ct u body,
        net url = Response st ct u body -> res_ok st = false ->
        r = Thrown ("Fetch failed " +:+ show_Z st +:+ " for " +:+ url))
  /\ (forall msg, net url = NetworkError msg -> r = Thrown msg)
  /\ files w' = files w /\ trace w' = trace w ++ [EvFetchJson url].
Proof.
  unfold fetchJson. mrun. split_and!; [|..|done|done].
  - intros t. destruct (net url) as [msg|st ct u body].
    + split; [done|by intros (? & ? & ? & [=] & _)].
    + destruct (res_ok st) eqn:E; [destruct body as [t'|]|].
      * split; [intros [= ->]; eauto|].
        intros (? & ? & ? & H & _). congruence.
      * split; [done|by intros (? & ? & ? & [=] & _)].
      * split; [done|]. intros (? & ? & ? & H & ?). congruence.
  - intros st ct u body -> E. by rewrite E.
  - by intros msg ->.
Qed.

Lemma getQuads_all (store : Store) :
  getQuads None None None None store = store.
Proof. unfold getQuads. cbn. by apply filter_all. Qed.

Lemma typed_as_same (types : list string) (a b : list Quad) (t : string) :
  (forall q, q ∈ a <-> q ∈ b) -> typed_as types a t <-> typed_as types b t.
Proof.
  intros H. unfold typed_as. split; intros (q & o & Hq & Hrest);
    exists q, o; (split; [by apply H|done]).
Qed.

Lemma strictly_sorted_same (l k : list string) :
  strictly_sorted l -> strictly_sorted k ->
  (forall x, x ∈ l <-> x ∈ k) -> l = k.
Proof.
  assert (forall x y, String.compare x y = Lt -> String.compare y x = Lt ->
                      False) as Hanti.
  { intros x y H1 H2. rewrite String.compare_antisym, H2 in H1. done. }
  assert (forall x, String.compare x x <> Lt) as Hirr by (intros x H; eauto).
  intros Hl. revert k. induction Hl as [|x l Hl IH Hx]; intros k Hk Hsame.
  - destruct k as [|y k]; [done|].
    assert (y ∈ @nil string) as H%elem_of_nil by (apply Hsame; left). done.
  - destruct Hk as [|y k Hk Hy].
    { assert (x ∈ @nil string) as H%elem_of_nil by (apply Hsame; left).
      done. }
    rewrite Forall_forall in Hx, Hy.
    assert (x = y) as <-.
    { assert (x ∈ y :: k) as [->|Hxk]%elem_of_cons by (apply Hsame; left);
        [done|].
      assert (y ∈ x :: l) as [->|Hyl]%elem_of_cons by (apply Hsame; left);
        [done|].
      destruct (Hanti x y); [by apply Hx|by apply Hy]. }
    f_equal. apply IH; [done|]. intros z. split; intros Hz.
    + assert (z ∈ x :: k) as [->|Hzk]%elem_of_cons
        by (apply Hsame; by right); [|done].
      destruct (Hirr x). by apply Hx.
    + assert (z ∈ x :: l) as [->|Hzl]%elem_of_cons
        by (apply Hsame; by right); [|done].
      destruct (Hirr x). by apply Hy.
Qed.

(** What [findClassesAndProperties] finds depends on the quads of the
    store only, not on the order in which a query yields them. *)
Lemma found_same (a b : list Quad) :
  (forall q, q ∈ a <-> q ∈ b) ->
  findClassesAndProperties a = findClassesAndProperties b.
Proof.
  intros H.
  destruct (found_spec a) as (Ca & Pa & Sa & Ta).
  destruct (found_spec b) as (Cb & Pb & Sb & Tb).
  assert (classes (findClassesAndProperties a)
          = classes (findClassesAndProperties b)) as Ec.
  { apply strictly_sorted_same; [done..|]. intros t.
    rewrite Ca, Cb. by apply typed_as_same. }
  assert (properties (findClassesAndProperties a)
          = properties (findClassesAndProperties b)) as Ep.
  { apply strictly_sorted_same; [done..|]. intros t.
    rewrite Pa, Pb. by apply typed_as_same. }
  destruct (findClassesAndProperties a), (findClassesAndProperties b).
  cbn in Ec, Ep. by subst.
Qed.

(** X22: when a conversion succeeds, a format was detected and the parser
    read the text in it with the vocabulary's URI as base; the store is
    the N3 store filled with the quads read, and the artifact is what the
    writer makes of the store's enumeration.  As the store is a set of
    quads, it holds each quad read once and no other, in whatever order
    it enumerates them; so the classes and the properties found in it,
    and the quads that define a term, are determined by the quads
    read. *)
Theorem X22_converted_store (P : Platform) (text : string)
  (ct : option string) (base url : string) (store : Store) (ttl : string) :
  store_is_set P ->
  conversion P text ct base url = ParseOk store ttl ->
  exists f quads,
    n3FormatFor ct url = Some f /\ n3_parse P f base text = inl quads
    /\ store = n3_store P quads /\ ttl = n3_write P store
    /\ NoDup store /\ (forall q, q ∈ store <-> q ∈ quads)
    /\ findClassesAndProperties store = findClassesAndProperties quads
    /\ (forall t, t ∈ classes (findClassesAndProperties store)
                  <-> typed_as CLASS_TYPES quads t)
    /\ (forall t, t ∈ properties (findClassesAndProperties store)
                  <-> typed_as PROPERTY_TYPES quads t)
    /\ (forall t q,
          q ∈ definitional store t
          <-> q ∈ quads /\ subject q = NamedNode t
              /\ exists p, predicate q = NamedNode p
                           /\ p ∈ DEF_PREDICATES).
Proof.
  intros Hset. unfold conversion.
  destruct (n3FormatFor ct url) as [f|]; [|done].
  destruct (n3_parse P f base text) as [quads|msg] eqn:E; [|done].
  intros [= <- <-]. exists f, quads.
  destruct (Hset quads) as [Hnd Hel].
  destruct (found_spec (n3_store P quads)) as (Hc & Hp & _).
  split_and!; [done|done|done|by rewrite getQuads_all|done|done| | | |].
  - by apply found_same.
  - intros t. rewrite Hc. by apply typed_as_same.
  - intros t. rewrite Hp. by apply typed_as_same.
  - intros t q. rewrite definitional_elem. by rewrite Hel.
Qed.

Lemma X22_witness :
  exists f quads,
    n3FormatFor (Some "text/turtle") ttl_url = Some f
    /\ n3_parse good f (uri ex) "good" = inl quads
    /\ ex_quads = n3_store good quads
    /\ predicates_of ex_quads = n3_write good ex_quads
    /\ NoDup ex_quads /\ (forall q, q ∈ ex_quads <-> q ∈ quads)
    /\ findClassesAndProperties ex_quads = findClassesAndProperties quads
    /\ (forall t, t ∈ classes (findClassesAndProperties ex_quads)
                  <-> typed_as CLASS_TYPES quads t)
    /\ (forall t, t ∈ properties (findClassesAndProperties ex_quads)
                  <-> typed_as PROPERTY_TYPES quads t)
    /\ (forall t q,
          q ∈ definitional ex_quads t
          <-> q ∈ quads /\ subject q = NamedNode t
              /\ exists p, predicate q = NamedNode p
                           /\ p ∈ DEF_PREDICATES).
Proof.
  assert (store_is_set good) as Hset.
  { intros quads. split; [apply NoDup_remove_dups|].
    intros q. apply elem_of_remove_dups. }
  apply (X22_converted_store good "good" (Some "text/turtle") (uri ex)
           ttl_url ex_quads (predicates_of ex_quads) Hset).
  reflexivity.
Defined.

(** X23: when the indexes are written, the page of the namespaces lists
    every namespace that is not empty and has a result, once, with the
    number of results that carry it, and no other; the page and the
    global page are in place when [writeIndexes] returns. *)
Theorem X23_namespaces_page (P : Platform) (results : list ResultItem)
  (w : World) :
  let w' := snd (writeIndexes P results w) in
  exists nsList,
    files w' !! ["namespaces"; "index.html"]
    = Some (HtmlFile (NamespacesIndexPage nsList))
    /\ files w' !! ["index.html"]
       = Some (HtmlFile (GlobalIndexPage OUT_FILENAME))
    /\ NoDup nsList.*1
    /\ forall ns n,
         (ns, n) ∈ nsList
         <-> ns <> "" /\ 0 < n /\ n = length (members ns results).
Proof.
  intros w'. subst w'.
  set (sorted := JsArray.sort (by_prefix P) results).
  set (groups := group_by_namespace sorted).
  set (nsList := JsArray.sort (fun a b => localeCompare P (fst a) (fst b))
                   (map (fun e => (fst e, length (snd e))) groups)).
  assert (sorted ≡ₚ results) as Hperm by apply sort_perm.
  assert (nsList ≡ₚ map (fun e => (fst e, length (snd e))) groups) as Hns
    by apply sort_perm.
  destruct (group_by_namespace_spec sorted) as [Hnd Hg]. fold groups in Hnd, Hg.
  exists nsList. split_and!.
  - unfold writeIndexes, writeNamespacesIndexHtml, writeGlobalIndexHtml,
      writeHtml. fold sorted. fold groups. fold nsList. mrun.
    destruct (writeNamespaceIndexes groups _) as [[] w1]. cbn [snd files].
    rewrite lookup_insert_ne by done. by rewrite lookup_insert_eq.
  - unfold writeIndexes, writeNamespacesIndexHtml, writeGlobalIndexHtml,
      writeHtml. fold sorted. fold groups. fold nsList. mrun.
    destruct (writeNamespaceIndexes groups _) as [[] w1]. cbn [snd files].
    by rewrite lookup_insert_eq.
  - rewrite Hns. by rewrite <- list_fmap_compose.
  - intros ns n. rewrite Hns, list_elem_of_fmap. split.
    + intros ([ns' arr] & Heq & (Hne & Harr & ->)%Hg). cbn in Heq.
      injection Heq as Hn1 Hn2. subst ns n.
      split_and!; [done| |].
      * destruct (members ns' sorted); [done|cbn; lia].
      * by apply filter_length_perm.
    + intros (Hne & Hpos & ->). exists (ns, members ns sorted). split.
      * cbn. f_equal. symmetry. by apply filter_length_perm.
      * apply Hg. split_and!; [done| |done].
        intros Hnil. unfold members in Hpos.
        rewrite <- (filter_length_perm _ _ _ Hperm) in Hpos.
        fold (members ns sorted) in Hpos. rewrite Hnil in Hpos.
        cbn in Hpos. lia.
Qed.

(* ===================================================================== *)
(** * Further properties: the monolithic script and the modules          *)
(* ===================================================================== *)

(** The download of the monolithic script, by cases. *)
Lemma monolith_download_run (P : Platform) (v : VocabItem)
  (latest : Latest) (fr : FetchResult) (w : World) :
  exists tr,
    Monolith.download P v latest fr w
    = (match fr_ok fr, fr_text fr with
       | true, Some text =>
           match Monolith.conversion P text (fr_contentType fr) (uri v)
                   (fileURL latest) with
           | Monolith.Converted ttl =>
               (Monolith.mkDownloaded (Some (fileByPrefix_of v))
                  (Some (fileByUri_of v)) true None,
                mkWorld (<[uriOntPath v := TextFile ttl]>
                           (<[prefixOntPath v := TextFile ttl]> (files w)))
                  tr)
           | Monolith.NotConverted reason =>
               (Monolith.mkDownloaded None None false (Some reason),
                mkWorld (files w) tr)
           end
       | _, _ => (Monolith.mkDownloaded None None false None,
                  mkWorld (files w) tr)
       end).
Proof.
  unfold Monolith.download, Monolith.convertToTurtleN3, Monolith.writeFile.
  destruct (fr_ok fr); [destruct (fr_text fr) as [text|]|].
  - mrun. destruct (Monolith.conversion P text (fr_contentType fr) (uri v)
                      (fileURL latest)); mrun; by eexists.
  - exists (trace w). by destruct w.
  - exists (trace w). by destruct w.
Qed.

Lemma monolith_refetch_run (P : Platform) (v : VocabItem) (latest : Latest)
  (w : World) :
  let fr := fetched P latest in
  let d := Monolith.download P v latest fr
             (mkWorld (files w) (trace w ++ [EvFetchText (fileURL latest)])) in
  exists meta tr,
    Monolith.refetch P v latest w
    = (mkResult (prefix v) (uri v) (namespace v)
         (Some (fileURL latest)) (Some (issued latest))
         (fr_ok fr && Monolith.d_convertOk (fst d))
         (if fr_ok fr
          then (if Monolith.d_convertOk (fst d) then fr_status fr else 422%Z)
          else fr_status fr)
         (Some (fr_finalUrl fr))
         (Monolith.d_fileByPrefix (fst d)) (Monolith.d_fileByUri (fst d))
         false (Monolith.d_convertReason (fst d))
         None None None None,
       mkWorld (<[uriMetaPath v := MetaFile meta]>
                  (<[prefixMetaPath v := MetaFile meta]> (files (snd d))))
         tr)
    /\ lovLatestFileURL meta = fileURL latest
    /\ lovLatestIssued meta = issued latest
    /\ convert meta
       = Some (mkConvert (Monolith.d_convertOk (fst d))
                 (Monolith.d_convertReason (fst d))).
Proof.
  intros fr d. unfold Monolith.refetch. unfold bind at 1.
  rewrite fetchText_run. fold (fetched P latest). fold fr.
  unfold bind at 1. fold d. destruct d as [c w2]. mrun. cbn [fst].
  eexists _, _. split; [reflexivity|done].
Qed.

(** After a pass of the monolithic script that ended ok, the cache is
    valid for the version the registry resolves. *)
Lemma monolith_ok_valid (P : Platform) (v : VocabItem) (w : World) :
  ok (fst (Monolith.pass P v w)) = true ->
  exists latest,
    resolve P (prefix v) = Some latest
    /\ cache_valid (snd (Monolith.pass P v w)) v latest.
Proof.
  rewrite monolith_run.
  destruct (resolve P (prefix v)) as [l|]; [|done].
  destruct (isUpToDate (hasFile_at w v) (meta_at w v) l) eqn:E.
  - intros _. exists l. split; [done|]. by apply isUpToDate_spec in E.
  - destruct (monolith_refetch_run P v l (started v w))
      as (meta & tr & -> & Hu & Hi & Hc).
    cbn [fst snd ok]. intros [Hok Hconv]%andb_true_iff.
    exists l. split; [done|]. unfold cache_valid. cbn [files]. split.
    + do 2 apply lookup_insert_Some_mono.
      destruct (monolith_download_run P v l (fetched P l)
                  (mkWorld (files (started v w))
                     (trace (started v w) ++ [EvFetchText (fileURL l)])))
        as (tr' & Hd).
      rewrite Hd in Hconv |- *. rewrite Hok in Hconv |- *.
      destruct (fr_text (fetched P l)) as [text|]; [|done].
      destruct (Monolith.conversion P text (fr_contentType (fetched P l))
                  (uri v) (fileURL l)); [|done].
      cbn [snd files]. apply lookup_insert_Some_mono.
      rewrite lookup_insert_eq. eauto.
    + eexists _, _. split; [apply meta_written|].
      rewrite Hc. by split_and!.
Qed.

(** X24: the two scripts share the cache: a mirror that a pass of the
    modules left ok is a cache hit for the monolithic script, and a
    mirror that a pass of the monolithic script left ok is a cache hit
    for the modules; the hit leaves every file as it is. *)
Theorem X24_scripts_share_the_cache (P : Platform) (v : VocabItem)
  (w : World) :
  (ok (fst (processOne P v w)) = true ->
   let w1 := snd (processOne P v w) in
   skipped (fst (Monolith.pass P v w1)) = true
   /\ ok (fst (Monolith.pass P v w1)) = true
   /\ files (snd (Monolith.pass P v w1)) = files w1)
  /\ (ok (fst (Monolith.pass P v w)) = true ->
      let w1 := snd (Monolith.pass P v w) in
      skipped (fst (processOne P v w1)) = true
      /\ ok (fst (processOne P v w1)) = true
      /\ files (snd (processOne P v w1)) = files w1).
Proof.
  split.
  - intros (l & Hl & Hvalid%isUpToDate_spec)%pass_ok_valid w1.
    fold w1 in Hvalid. by rewrite monolith_run, Hl, Hvalid.
  - intros (l & Hl & Hvalid%isUpToDate_spec)%monolith_ok_valid w1.
    fold w1 in Hvalid. by rewrite processOne_run, Hl, Hvalid.
Qed.

Lemma conversion_agree (P : Platform) (text : string) (ct : option string)
  (base url : string) :
  n3FormatFor_monolith ct url = n3FormatFor ct url ->
  match conversion P text ct base url with
  | ParseOk _ ttl =>
      Monolith.conversion P text ct base url = Monolith.Converted ttl
  | ParseFailed _ =>
      exists reason,
        Monolith.conversion P text ct base url = Monolith.NotConverted reason
  end.
Proof.
  intros H. unfold conversion, Monolith.conversion. rewrite H.
  destruct (n3FormatFor ct url) as [f|]; [|eauto].
  destruct (n3_parse P f base text); [done|eauto].
Qed.

(** X25: as long as the two copies of the format detector agree on the
    file of the version that the registry resolves, a pass of the
    monolithic script and a pass of the modules over the same mirror
    end alike: the same verdict, status, final URL and links to the
    artifact, and the same artifact below the prefix. *)
Theorem X25_scripts_agree (P : Platform) (v : VocabItem) (w : World) :
  (forall latest,
     resolve P (prefix v) = Some latest ->
     n3FormatFor_monolith (fr_contentType (fetched P latest)) (fileURL latest)
     = n3FormatFor (fr_contentType (fetched P latest)) (fileURL latest)) ->
  let r := fst (processOne P v w) in
  let r' := fst (Monolith.pass P v w) in
  ok r' = ok r /\ status r' = status r /\ skipped r' = skipped r
  /\ finalUrl r' = finalUrl r
  /\ fileByPrefix r' = fileByPrefix r /\ fileByUri r' = fileByUri r
  /\ files (snd (Monolith.pass P v w)) !! prefixOntPath v
     = files (snd (processOne P v w)) !! prefixOntPath v.
Proof.
  intros Hfmt r r'. subst r r'. rewrite monolith_run.
  destruct (pass_cases P v w)
    as [[Hn ->]|[(l & Hl & Hvalid & ->)|(l & tr & Hl & Hmiss & Hrun)]].
  - by rewrite Hn.
  - rewrite Hl. apply isUpToDate_spec in Hvalid. by rewrite Hvalid.
  - rewrite Hl.
    destruct (isUpToDate (hasFile_at w v) (meta_at w v) l) eqn:E;
      [by apply isUpToDate_spec in E|].
    cbv zeta in Hrun. rewrite Hrun. clear Hrun.
    destruct (monolith_refetch_run P v l (started v w))
      as (meta & tr' & -> & _).
    destruct (monolith_download_run P v l (fetched P l)
                (mkWorld (files (started v w))
                   (trace (started v w) ++ [EvFetchText (fileURL l)])))
      as (tr'' & ->).
    specialize (Hfmt l Hl).
    set (w0 := mkWorld (files w)
                 (trace (started v w) ++ [EvFetchText (fileURL l)])).
    cbn [fst snd files fetched_result ok status skipped finalUrl
         fileByPrefix fileByUri].
    assert (forall (m : gmap Path FileContent) (a b : FileContent),
              <[uriMetaPath v := a]> (<[prefixMetaPath v := b]> m)
                !! prefixOntPath v = m !! prefixOntPath v) as Hmeta.
    { intros m a b.
      by rewrite !lookup_insert_ne by (symmetry; apply ont_path_ne_meta). }
    rewrite !Hmeta.
    destruct (download_inputs P v l (fetched P l))
      as [H|[(text & reason & Hok & Ht & Hc)|(text & store & ttl & Hok & Ht & Hc)]].
    + rewrite (download_failed _ _ _ _ w0 H). cbn [fst snd files].
      destruct H as [H|H]; rewrite H; [done|].
      by destruct (fr_ok (fetched P l)).
    + rewrite (download_unconvertible _ _ _ _ w0 _ _ Hok Ht Hc).
      rewrite Hok, Ht. pose proof (conversion_agree P text _ (uri v) _ Hfmt)
        as Ha. rewrite Hc in Ha. destruct Ha as [reason' ->]. done.
    + destruct (download_converted_run _ _ _ _ w0 _ _ _ Hok Ht Hc)
        as (w1 & tr1 & Hw1 & ->).
      rewrite Hok, Ht. pose proof (conversion_agree P text _ (uri v) _ Hfmt)
        as Ha. rewrite Hc in Ha. rewrite Ha.
      cbn [fst snd files Monolith.d_convertOk Monolith.d_fileByPrefix
           Monolith.d_fileByUri convertOk fileByPrefix' fileByUri'].
      split_and!; [done..|].
      assert (is_Some (files w1 !! prefixOntPath v)) as [c Hc1].
      { rewrite Hw1. apply lookup_insert_Some_mono.
        rewrite lookup_insert_eq. eauto. }
      trans (Some c).
      * rewrite <- Hc1, Hw1. done.
      * symmetry. rewrite lookup_insert_ne.
        -- by apply termLinks_keep, termLinks_keep.
        -- intros H. apply (f_equal last) in H. unfold prefixOntPath in H.
           rewrite !path_last in H by done. done.
Qed.

Lemma X25_witness :
  ok (fst (Monolith.pass good ex empty_world))
  = ok (fst (processOne good ex empty_world)).
Proof.
  assert (forall latest,
            resolve good (prefix ex) = Some latest ->
            n3FormatFor_monolith (fr_contentType (fetched good latest))
              (fileURL latest)
            = n3FormatFor (fr_contentType (fetched good latest))
                (fileURL latest)) as Hfmt.
  { intros latest H. vm_compute in H. injection H as <-. reflexivity. }
  destruct (X25_scripts_agree good ex empty_world Hfmt) as (H & _).
  exact H.
Defined.

(* ===================================================================== *)
(** * The workers that interleave                                         *)
(* ===================================================================== *)

Import Steps.

Lemma uninterrupted_await {A} (c : M A) (w : World) :
  uninterrupted (await c) w = c w.
Proof. cbn. by destruct (c w). Qed.

Lemma uninterrupted_andThen {A B} (t : Task A) (k : A -> Task B) (w : World) :
  uninterrupted (andThen t k) w
  = let r := uninterrupted t w in uninterrupted (k (fst r)) (snd r).
Proof.
  revert w. induction t as [a|effect rest IH]; intros w; [done|].
  cbn. apply IH.
Qed.

Lemma robust_andThen {A B} I G (Q : B -> Prop) (t : Task A)
  (k : A -> Task B) :
  robust I G (fun a => robust I G Q (k a)) t -> robust I G Q (andThen t k).
Proof.
  induction t as [a|effect rest IH]; cbn; [done|].
  intros H w Hw. destruct (H w Hw) as (HI & HG & Hr). split_and!; [done..|].
  by apply IH.
Qed.

Lemma robust_await {A} I G (Q : A -> Prop) (c : M A) :
  (forall w, I w -> I (snd (c w)) /\ G w (snd (c w)) /\ Q (fst (c w))) ->
  robust I G Q (await c).
Proof. intros H w Hw. cbn. apply H, Hw. Qed.

Lemma robust_mono {A} (I : World -> Prop) (G G' : World -> World -> Prop)
  (Q Q' : A -> Prop) (t : Task A) :
  (forall w w', I w -> G w w' -> G' w w') -> (forall a, Q a -> Q' a) ->
  robust I G Q t -> robust I G' Q' t.
Proof.
  intros HG HQ. induction t as [a|effect rest IH]; cbn; [apply HQ|].
  intros H w Hw. destruct (H w Hw) as (HI & Hg & Hr).
  split_and!; [done|by apply HG|by apply IH].
Qed.

Lemma robust_and {A} (I : World -> Prop) (G : World -> World -> Prop)
  (Q Q' : A -> Prop) (t : Task A) :
  robust I G Q t -> robust I G Q' t -> robust I G (fun a => Q a /\ Q' a) t.
Proof.
  induction t as [a|effect rest IH]; cbn; [done|].
  intros H H' w Hw. destruct (H w Hw) as (HI & Hg & Hr).
  destruct (H' w Hw) as (_ & _ & Hr'). split_and!; [done..|]. by apply IH.
Qed.

(** Run without interruption, the functions of [Pool] are those of the
    modules. *)
Lemma steps_writeTinyTermFile (P : Platform) (kind : Kind) (t : string)
  (store : Store) (w : World) :
  uninterrupted (Pool.writeTinyTermFile P kind t store) w
  = writeTinyTermFile P kind t store w.
Proof.
  unfold Pool.writeTinyTermFile, writeTinyTermFile, Pool.ensureDir,
    Pool.fileExists, Pool.writeText, Pool.ensureDir.
  rewrite !uninterrupted_andThen, !uninterrupted_await. mrun.
  destruct (bool_decide _); [done|].
  destruct (definitional store t); [done|].
  rewrite !uninterrupted_andThen, !uninterrupted_await. by mrun.
Qed.

Lemma steps_termLinks (P : Platform) (kind : Kind) (store : Store)
  (iris : list string) (links : list TermInfo) (w : World) :
  uninterrupted (Pool.termLinks P kind store iris links) w
  = termLinks P kind store iris links w.
Proof.
  revert links w. induction iris as [|t iris IH]; intros links w; [done|].
  cbn [Pool.termLinks termLinks]. rewrite uninterrupted_andThen.
  rewrite steps_writeTinyTermFile. cbv zeta. unfold bind.
  destruct (writeTinyTermFile P kind t store w) as [[href|] w1];
    cbn [fst snd]; apply IH.
Qed.

Lemma steps_download (P : Platform) (v : VocabItem) (latest : Latest)
  (fr : FetchResult) (w : World) :
  uninterrupted (Pool.download P v latest fr) w = download P v latest fr w.
Proof.
  unfold Pool.download, download.
  destruct (fr_ok fr); [|done]. destruct (fr_text fr) as [text|]; [|done].
  unfold Pool.parseAndSerializeToTurtle.
  rewrite uninterrupted_andThen, uninterrupted_await. cbv zeta.
  unfold bind at 1.
  destruct (parseAndSerializeToTurtle P text (fr_contentType fr) (uri v)
              (fileURL latest) w) as [[store ttl|reason] w1];
    cbn [fst snd]; [|done].
  unfold Pool.writeText, Pool.ensureDir, Pool.writePerOntologyIndexHtml,
    Pool.writeHtml, Pool.ensureDir, writePerOntologyIndexHtml.
  rewrite !uninterrupted_andThen, !uninterrupted_await. mrun.
  rewrite !steps_termLinks. cbn [uninterrupted].
  destruct (termLinks P Classes store _ [] _) as [classLinks w2].
  cbn [fst snd].
  by destruct (termLinks P Properties store _ [] _) as [propLinks w3].
Qed.

Lemma steps_refetch (P : Platform) (v : VocabItem) (latest : Latest)
  (w : World) :
  uninterrupted (Pool.refetch P v latest) w = refetch P v latest w.
Proof.
  unfold Pool.refetch, refetch, Pool.fetchText.
  rewrite uninterrupted_andThen, uninterrupted_await. cbv zeta.
  unfold bind at 1. destruct (fetchText P (fileURL latest) w) as [fr w1].
  cbn [fst snd]. rewrite uninterrupted_andThen, steps_download. cbv zeta.
  unfold bind at 1. destruct (download P v latest fr w1) as [c w2].
  cbn [fst snd]. unfold Pool.writeJson, Pool.ensureDir.
  rewrite !uninterrupted_andThen, !uninterrupted_await. by mrun.
Qed.

Lemma steps_processOne (P : Platform) (v : VocabItem) (w : World) :
  uninterrupted (Pool.processOne P v) w = processOne P v w.
Proof.
  unfold Pool.processOne, processOne, Pool.ensureDir,
    Pool.extractLatestVersion, Pool.readJsonIfExists, Pool.fileExists.
  rewrite !uninterrupted_andThen, !uninterrupted_await. cbv zeta.
  unfold bind at 1. unfold bind at 1. unfold bind at 1.
  cbn [Fsutil.ensureDir emit fst snd].
  destruct (extractLatestVersion P (prefix v) _) as [r w1]. cbn [fst snd].
  destruct (match r with Returned l => l | Thrown _ => None end)
    as [latest|]; [|done].
  rewrite !uninterrupted_andThen, !uninterrupted_await. mrun.
  destruct (isUpToDate _ _ latest); [done|]. apply steps_refetch.
Qed.

Lemma robust_await_then {A B} I G (Q : B -> Prop) (c : M A)
  (k : A -> Task B) :
  (forall w, I w -> I (snd (c w)) /\ G w (snd (c w))
                    /\ robust I G Q (k (fst (c w)))) ->
  robust I G Q (andThen (await c) k).
Proof. intros H w Hw. cbn. apply H, Hw. Qed.

Lemma keeps_same (K : gmap Path FileContent) (w w' : World) :
  files w' = files w -> keeps K w -> keeps K w'.
Proof. intros E H p c Hp. rewrite E. by apply H. Qed.

Lemma keeps_put (K : gmap Path FileContent) (w : World) (p : Path)
  (c : FileContent) :
  K !! p = None -> keeps K w -> keeps K (snd (put_file p c w)).
Proof.
  intros Hp H q d Hq. cbn. rewrite lookup_insert_ne; [by apply H|].
  intros ->. congruence.
Qed.

Lemma no_summary_refl (w : World) : no_summary_since w w.
Proof. exists []. by rewrite app_nil_r. Qed.

Lemma no_summary_trans (w1 w2 w3 : World) :
  no_summary_since w1 w2 -> no_summary_since w2 w3 -> no_summary_since w1 w3.
Proof.
  intros (e1 & H1 & F1) (e2 & H2 & F2). exists (e1 ++ e2).
  split; [by rewrite H2, H1, app_assoc|]. by apply Forall_app.
Qed.

Lemma no_summary_emit (w : World) (e : Event) :
  is_summary e = false -> no_summary_since w (snd (emit e w)).
Proof. intros H. exists [e]. split; [done|]. by constructor. Qed.

Lemma no_summary_put (w : World) (p : Path) (c : FileContent) :
  is_summary (EvWriteFile p c) = false ->
  no_summary_since w (snd (put_file p c w)).
Proof. intros H. exists [EvWriteFile p c]. split; [done|]. by constructor. Qed.

Section Robust.
Context (K : gmap Path FileContent) (G : World -> World -> Prop).
Hypothesis G_quiet :
  forall w w', files w' = files w -> no_summary_since w w' -> G w w'.

(** An operation that leaves the files alone. *)
Lemma robust_quiet {A B} (Q : B -> Prop) (c : M A) (k : A -> Task B) :
  (forall w, files (snd (c w)) = files w
             /\ no_summary_since w (snd (c w))) ->
  (forall w, keeps K w -> robust (keeps K) G Q (k (fst (c w)))) ->
  robust (keeps K) G Q (andThen (await c) k).
Proof.
  intros Hc Hk. apply robust_await_then. intros w Hw.
  destruct (Hc w) as [Hf Hs]. split_and!.
  - by apply (keeps_same K w).
  - by apply G_quiet.
  - by apply Hk.
Qed.

Lemma robust_ensureDir {B} (Q : B -> Prop) (p : Path) (k : unit -> Task B) :
  robust (keeps K) G Q (k tt) ->
  robust (keeps K) G Q (andThen (Pool.ensureDir p) k).
Proof.
  intros Hk. apply robust_quiet.
  - intros w. split; [done|]. by apply no_summary_emit.
  - intros w _. cbn. exact Hk.
Qed.

(** [writeText], [writeJson] and [writeHtml]: the directory, then the
    file. *)
Lemma robust_write {B} (Q : B -> Prop) (p : Path) (c : FileContent)
  (k : unit -> Task B) :
  K !! p = None ->
  (forall w, G w (snd (put_file p c w))) ->
  robust (keeps K) G Q (k tt) ->
  robust (keeps K) G Q
    (andThen (andThen (Pool.ensureDir (dirname p))
                (fun _ => await (put_file p c))) k).
Proof.
  intros Hp Hput Hk. apply robust_andThen, robust_ensureDir.
  apply robust_await. intros w Hw. split_and!; [by apply keeps_put|done|].
  cbn. exact Hk.
Qed.
End Robust.

Section RobustTerms.
Context (P : Platform) (kind : Kind) (store : Store)
  (K : gmap Path FileContent).

Lemma term_step_quiet (iris : list string) (w w' : World) :
  files w' = files w -> no_summary_since w w' ->
  term_step P kind store iris w w'.
Proof. intros E H. split; [done|by left]. Qed.

Lemma term_step_mono (iris iris' : list string) (w w' : World) :
  (forall t, t ∈ iris -> t ∈ iris') ->
  term_step P kind store iris w w' -> term_step P kind store iris' w w'.
Proof.
  intros Hsub [Hs [E|(t & Ht & Hd & E)]]; (split; [done|]); [by left|].
  right. exists t. split_and!; [by apply Hsub|done|done].
Qed.

(** One call of [writeTinyTermFile] among the other workers: a link is
    returned unless the term has no quad that defines it. *)
Lemma robust_writeTinyTermFile (t : string) :
  robust (keeps K) (term_step P kind store [t])
    (fun href => match href with
                 | Some h => h = tiny_href kind t
                 | None => definitional store t = []
                 end)
    (Pool.writeTinyTermFile P kind t store).
Proof.
  unfold Pool.writeTinyTermFile. cbv zeta.
  apply robust_ensureDir; [apply term_step_quiet|].
  destruct (K !! path_join (path_join [] [kind_name kind]) [tiny_filename t])
    as [c0|] eqn:EK.
  - apply robust_quiet; [apply term_step_quiet| |].
    + intros w. split; [done|apply no_summary_refl].
    + intros w Hw. cbn [Fsutil.fileExists bind get_file ret fst snd].
      rewrite (Hw _ _ EK). by rewrite bool_decide_eq_true_2 by eauto.
  - apply robust_quiet; [apply term_step_quiet| |].
    + intros w. split; [done|apply no_summary_refl].
    + intros w Hw. cbn [Fsutil.fileExists bind get_file ret fst snd].
      destruct (bool_decide _); [done|].
      destruct (definitional store t) as [|q qs] eqn:Ed; [done|].
      unfold Pool.writeText.
      apply robust_write; [apply term_step_quiet|done| |done].
      intros w'. split; [by apply no_summary_put|]. right.
      exists t. split_and!; [left|by rewrite Ed|by rewrite Ed].
Qed.

Lemma robust_termLinks (iris : list string) (links : list TermInfo) :
  robust (keeps K) (term_step P kind store iris)
    (fun out =>
       exists kept,
         kept `sublist_of` iris
         /\ out = links ++ map (term_info kind store) kept
         /\ forall t, t ∈ iris -> definitional store t <> [] -> t ∈ kept)
    (Pool.termLinks P kind store iris links).
Proof.
  revert links. induction iris as [|t iris IH]; intros links.
  - cbn. exists []. split_and!; [done|by rewrite app_nil_r|].
    intros t Ht. inversion Ht.
  - cbn [Pool.termLinks]. apply robust_andThen.
    eapply robust_mono; [| |apply robust_writeTinyTermFile].
    + intros w w' _. apply term_step_mono.
      intros t' ->%list_elem_of_singleton. left.
    + intros [href|] Hh; cbv beta iota.
      * subst href. eapply robust_mono; [| |apply IH].
        -- intros w w' _. apply term_step_mono. intros t' Ht'. by right.
        -- intros out (kept & Hsub & -> & Hall). exists (t :: kept).
           split_and!.
           ++ by apply sublist_skip.
           ++ by rewrite <- app_assoc.
           ++ intros t' [->|Ht']%elem_of_cons Hd; [left|right; by apply Hall].
      * eapply robust_mono; [| |apply IH].
        -- intros w w' _. apply term_step_mono. intros t' Ht'. by right.
        -- intros out (kept & Hsub & -> & Hall). exists kept. split_and!.
           ++ by apply sublist_cons.
           ++ done.
           ++ intros t' [->|Ht']%elem_of_cons Hd; [done|by apply Hall].
Qed.
End RobustTerms.

(** X8: the loop of [processOne] over the terms of one kind, with the
    other workers at work between any two of its operations.  Every file
    the loop writes is the tiny file of one of the terms and holds the
    serialisation of the quads that define the term, of which there is
    one at least; no summary is written.  A file that is there, with the
    same content, whenever the loop looks or writes, is left as it is.
    The loop returns the links of a subsequence of the terms, in their
    order and with their summaries, and every term that has a quad that
    defines it is among them.  Run without interruption, the loop is
    [termLinks], and every term that has a quad that defines it has its
    tiny file afterwards. *)
Theorem X8_term_loop (P : Platform) (kind : Kind) (store : Store)
  (iris : list string) (K : gmap Path FileContent) :
  robust (keeps K) (term_step P kind store iris)
    (links_of_loop kind store iris)
    (Pool.termLinks P kind store iris [])
  /\ (forall w, uninterrupted (Pool.termLinks P kind store iris []) w
                = termLinks P kind store iris [] w)
  /\ forall w t,
       t ∈ iris -> definitional store t <> [] ->
       is_Some (files (snd (uninterrupted
                              (Pool.termLinks P kind store iris []) w))
                  !! tiny_path kind t).
Proof.
  split_and!; [|intros w; apply steps_termLinks|].
  - eapply robust_mono; [| |apply robust_termLinks]; [done|].
    intros out (kept & ? & -> & ?). by exists kept.
  - intros w t Ht Hd. rewrite steps_termLinks.
    apply termLinks_created; [done|]. by apply has_definition_true.
Qed.

Section RobustPass.
Context (P : Platform) (v : VocabItem) (K : gmap Path FileContent).
Hypothesis K_own : forall p, p ∈ own_paths v -> K !! p = None.

Lemma pass_step_quiet (w w' : World) :
  files w' = files w -> no_summary_since w w' -> pass_step v w w'.
Proof. intros E H. split; [done|by left]. Qed.

Lemma pass_step_put (w : World) (p : Path) (c : FileContent) :
  p ∈ own_paths v -> is_summary (EvWriteFile p c) = false ->
  pass_step v w (snd (put_file p c w)).
Proof.
  intros Hp Hc. split; [by apply no_summary_put|]. right.
  exists p, c. split; [done|by left].
Qed.

Lemma pass_step_term (kind : Kind) (store : Store) (iris : list string)
  (w w' : World) :
  term_step P kind store iris w w' -> pass_step v w w'.
Proof.
  intros [Hs [E|(t & _ & _ & E)]]; (split; [done|]); [by left|].
  right. eexists _, _. split; [exact E|]. right. by eexists _, _, _.
Qed.

Lemma own_paths_elem :
  prefixOntPath v ∈ own_paths v /\ uriOntPath v ∈ own_paths v
  /\ prefixMetaPath v ∈ own_paths v /\ uriMetaPath v ∈ own_paths v
  /\ path_join (prefixDir_of v) ["index.html"] ∈ own_paths v.
Proof. unfold own_paths. split_and!; set_solver. Qed.

Lemma robust_download (latest : Latest) (fr : FetchResult) :
  robust (keeps K) (pass_step v) (fun _ => True)
    (Pool.download P v latest fr).
Proof.
  destruct own_paths_elem as (H1 & H2 & _ & _ & H5).
  unfold Pool.download.
  destruct (fr_ok fr); [|done]. destruct (fr_text fr) as [text|]; [|done].
  unfold Pool.parseAndSerializeToTurtle.
  apply robust_quiet; [apply pass_step_quiet| |].
  { intros w. split; [done|]. by apply no_summary_emit. }
  intros w _. cbn [parseAndSerializeToTurtle bind emit ret fst snd].
  destruct (conversion P text (fr_contentType fr) (uri v) (fileURL latest))
    as [store ttl|reason]; [|done].
  unfold Pool.writeText.
  apply robust_write;
    [apply pass_step_quiet|by apply K_own|intros w'; by apply pass_step_put|].
  apply robust_write;
    [apply pass_step_quiet|by apply K_own|intros w'; by apply pass_step_put|].
  cbv zeta. apply robust_andThen.
  eapply robust_mono; [| |apply robust_termLinks].
  { intros w1 w2 _. apply pass_step_term. }
  intros classLinks _. apply robust_andThen.
  eapply robust_mono; [| |apply robust_termLinks].
  { intros w1 w2 _. apply pass_step_term. }
  intros propLinks _.
  unfold Pool.writePerOntologyIndexHtml, Pool.writeHtml.
  apply robust_write;
    [apply pass_step_quiet|by apply K_own|intros w'; by apply pass_step_put|].
  done.
Qed.

Lemma robust_refetch (latest : Latest) :
  resolve P (prefix v) = Some latest ->
  robust (keeps K) (pass_step v) (pass_result P v)
    (Pool.refetch P v latest).
Proof.
  intros Hres. destruct own_paths_elem as (_ & _ & H3 & H4 & _).
  unfold Pool.refetch, Pool.fetchText.
  apply robust_quiet; [apply pass_step_quiet| |].
  { intros w. split; [done|]. by apply no_summary_emit. }
  intros w _. apply robust_andThen.
  eapply robust_mono; [| |apply robust_download]; [done|].
  intros c _. cbv zeta. unfold Pool.writeJson.
  apply robust_write;
    [apply pass_step_quiet|by apply K_own|intros w'; by apply pass_step_put|].
  apply robust_write;
    [apply pass_step_quiet|by apply K_own|intros w'; by apply pass_step_put|].
  cbn. unfold pass_result. rewrite Hres. done.
Qed.

(** A pass among the other workers. *)
Lemma robust_processOne :
  robust (keeps K) (pass_step v) (pass_result P v) (Pool.processOne P v).
Proof.
  unfold Pool.processOne.
  apply robust_ensureDir; [apply pass_step_quiet|].
  apply robust_ensureDir; [apply pass_step_quiet|].
  unfold Pool.extractLatestVersion.
  apply robust_quiet; [apply pass_step_quiet| |].
  { intros w. rewrite extractLatestVersion_run. split; [done|].
    by apply no_summary_emit. }
  intros w _. cbv zeta. rewrite resolve_run.
  destruct (resolve P (prefix v)) as [latest|] eqn:Hres.
  - unfold Pool.readJsonIfExists, Pool.fileExists.
    apply robust_quiet; [apply pass_step_quiet| |].
    { intros w'. split; [done|apply no_summary_refl]. }
    intros w1 _.
    apply robust_quiet; [apply pass_step_quiet| |].
    { intros w'. split; [done|apply no_summary_refl]. }
    intros w2 _.
    destruct (isUpToDate _ _ latest); [|by apply robust_refetch].
    cbn. unfold pass_result. rewrite Hres. done.
  - cbn. unfold pass_result. rewrite Hres. done.
Qed.
End RobustPass.

Lemma omap_insert {A B} (f : A -> option B) (l : list A) (j : nat) (a b : A) :
  l !! j = Some a ->
  option_list (f a) ++ omap f (<[j := b]> l)
  ≡ₚ option_list (f b) ++ omap f l.
Proof.
  intros Hj. rewrite (insert_take_drop l j b) by (by eapply lookup_lt_Some).
  rewrite <- (take_drop_middle l j a Hj) at 3.
  rewrite !omap_app. simpl omap.
  change (list_omap A B f (drop (S j) l)) with (omap f (drop (S j) l)).
  destruct (f a), (f b); cbn; solve_Permutation.
Qed.

Lemma sum_weight_insert (l : list Pool.Worker) (j : nat)
  (a b : Pool.Worker) :
  l !! j = Some a ->
  sum_list_with weight (<[j := b]> l) + weight a
  = sum_list_with weight l + weight b.
Proof.
  intros Hj. rewrite (insert_take_drop l j b) by (by eapply lookup_lt_Some).
  pose proof (take_drop_middle l j a Hj) as E.
  set (l1 := take j l) in *. set (l2 := drop (S j) l) in *.
  rewrite <- E, !sum_list_with_app. cbn. lia.
Qed.

Lemma elem_of_insert_inv {A} (l : list A) (j : nat) (b x : A) :
  x ∈ <[j := b]> l -> x = b \/ x ∈ l.
Proof.
  intros (i & Hi)%list_elem_of_lookup_1. rewrite list_lookup_insert in Hi.
  destruct (decide _); [left; congruence|right].
  by eapply list_elem_of_lookup_2.
Qed.

Lemma settled_spec (s : Pool.State) :
  Pool.settled s = true <-> Forall (fun k => k = Pool.Finished) (Pool.pool s).
Proof.
  unfold Pool.settled. rewrite forallb_forall, Forall_forall.
  split; intros H k Hk.
  - apply list_elem_of_In, H in Hk. by destruct k.
  - apply list_elem_of_In, H in Hk. by subst k.
Qed.

Lemma turn_length (P : Platform) (vocabs : list VocabItem) (j : nat)
  (s : Pool.State) :
  length (Pool.pool (Pool.turn P vocabs j s)) = length (Pool.pool s).
Proof.
  unfold Pool.turn.
  destruct (Pool.pool s !! j) as [[|v [r|effect rest]|]|]; [|..|done|done];
    [destruct (vocabs !! Pool.next s)|..]; cbn; by rewrite length_insert.
Qed.

Lemma turns_length (P : Platform) (vocabs : list VocabItem)
  (schedule : list nat) (s : Pool.State) :
  length (Pool.pool (Pool.turns P vocabs schedule s)) = length (Pool.pool s).
Proof.
  revert s. induction schedule as [|j schedule IH]; intros s; [done|].
  cbn. unfold Pool.turns in IH. by rewrite IH, turn_length.
Qed.

Lemma turns_app (P : Platform) (vocabs : list VocabItem)
  (s1 s2 : list nat) (s : Pool.State) :
  Pool.turns P vocabs (s1 ++ s2) s
  = Pool.turns P vocabs s2 (Pool.turns P vocabs s1 s).
Proof. unfold Pool.turns. by rewrite fold_left_app. Qed.

Lemma taken_settled (l : list Pool.Worker) :
  Forall (fun k => k = Pool.Finished) l -> omap taken l = [].
Proof. induction 1 as [|k l -> _ IH]; [done|]. exact IH. Qed.

Section PoolFacts.
Context (P : Platform) (vocabs : list VocabItem).
Context (I : World -> Prop) (G : World -> World -> Prop)
  (Q : VocabItem -> ResultItem -> Prop).
Hypothesis G_refl : forall w, G w w.
Hypothesis G_trans : forall w1 w2 w3, G w1 w2 -> G w2 w3 -> G w1 w3.
Hypothesis pass_robust :
  forall v, v ∈ vocabs -> robust I G (Q v) (Pool.processOne P v).

Lemma inv_start (CONCURRENCY : nat) (w0 : World) :
  I w0 -> pool_inv vocabs I G Q w0 (Pool.start CONCURRENCY w0).
Proof.
  intros H0. unfold pool_inv, Pool.start. cbn. split_and!; [done|done| | |].
  - by apply Forall_replicate.
  - by intros [? _]%elem_of_replicate.
  - exists []. split; [constructor|]. cbn. rewrite take_0.
    induction CONCURRENCY as [|n IH]; [done|]. exact IH.
Qed.

Lemma inv_turn (w0 : World) (j : nat) (s : Pool.State) :
  pool_inv vocabs I G Q w0 s ->
  pool_inv vocabs I G Q w0 (Pool.turn P vocabs j s).
Proof.
  intros (HI & HG & Hok & Hfin & pushed & Hres & Hperm). unfold Pool.turn.
  destruct (Pool.pool s !! j) as [[|v [r|effect rest]|]|] eqn:Ej;
    [|..|by unfold pool_inv; eauto 10|by unfold pool_inv; eauto 10].
  - destruct (vocabs !! Pool.next s) as [v|] eqn:Ev;
      unfold pool_inv; cbn; split_and!; try done.
    + apply Forall_insert; [done|]. cbn. split.
      * by eapply list_elem_of_lookup_2.
      * apply pass_robust. by eapply list_elem_of_lookup_2.
    + intros [?|H]%elem_of_insert_inv; [done|]. apply Hfin in H. lia.
    + exists pushed. split; [done|].
      rewrite (take_S_r _ _ _ Ev), <- Hperm.
      pose proof (omap_insert taken _ j _
                    (Pool.Awaiting v (Pool.processOne P v)) Ej) as Hp.
      cbn in Hp. rewrite Hp. solve_Permutation.
    + by apply Forall_insert.
    + intros _. apply lookup_ge_None in Ev. lia.
    + exists pushed. split; [done|].
      apply lookup_ge_None in Ev.
      rewrite take_ge by lia. rewrite take_ge in Hperm by lia.
      pose proof (omap_insert taken _ j _ Pool.Finished Ej) as Hp.
      cbn in Hp. by rewrite Hp.
  - rewrite Forall_forall in Hok.
    destruct (Hok _ (list_elem_of_lookup_2 _ _ _ Ej)) as [Hv Hr]. cbn in Hr.
    unfold pool_inv; cbn; split_and!; try done.
    + apply Forall_insert; [by apply Forall_forall|done].
    + intros [?|H]%elem_of_insert_inv; [done|]. by apply Hfin.
    + exists (pushed ++ [v]). split.
      * apply Forall2_app; [done|]. by repeat constructor.
      * rewrite <- Hperm.
        pose proof (omap_insert taken _ j _ Pool.AtLoopHead Ej) as Hp.
        cbn in Hp. rewrite <- Hp. solve_Permutation.
  - rewrite Forall_forall in Hok.
    destruct (Hok _ (list_elem_of_lookup_2 _ _ _ Ej)) as [Hv Hr]. cbn in Hr.
    destruct (Hr _ HI) as (HI' & HG' & Hrest).
    unfold pool_inv; cbn; split_and!; [done|by eapply G_trans| | |].
    + apply Forall_insert; [by apply Forall_forall|done].
    + intros [?|H]%elem_of_insert_inv; [done|]. by apply Hfin.
    + exists pushed. split; [done|]. rewrite <- Hperm.
      pose proof (omap_insert taken _ j _
                    (Pool.Awaiting v (rest (Pool.world s))) Ej) as Hp.
      cbn in Hp. apply (inj (cons v)) in Hp. by rewrite Hp.
Qed.

Lemma inv_turns (w0 : World) (schedule : list nat) (s : Pool.State) :
  pool_inv vocabs I G Q w0 s ->
  pool_inv vocabs I G Q w0 (Pool.turns P vocabs schedule s).
Proof.
  revert s. induction schedule as [|j schedule IH]; intros s H; [done|].
  cbn. apply IH. by apply inv_turn.
Qed.

(** When the workers have returned: one result for every vocabulary. *)
Lemma inv_settled (w0 : World) (s : Pool.State) :
  pool_inv vocabs I G Q w0 s -> Pool.pool s <> [] ->
  Pool.settled s = true ->
  I (Pool.world s) /\ G w0 (Pool.world s)
  /\ exists pushed, pushed ≡ₚ vocabs /\ Forall2 Q pushed (Pool.results s).
Proof.
  intros (HI & HG & _ & Hfin & pushed & Hres & Hperm) Hne Hs.
  split_and!; [done..|]. exists pushed. split; [|done].
  apply settled_spec in Hs.
  pose proof (taken_settled _ Hs) as E.
  rewrite E, app_nil_r in Hperm. rewrite Hperm, take_ge; [done|].
  apply Hfin. destruct (Pool.pool s) as [|k l]; [done|].
  apply Forall_cons in Hs as [-> _]. left.
Qed.
End PoolFacts.

(** A worker that awaits a pass can go on, turn after turn, until the
    pass has returned and its result is pushed; if no other worker takes
    a turn in between, the pass is the one run without interruption. *)
Lemma finish_pass (P : Platform) (vocabs : list VocabItem)
  (t : Task ResultItem) (s : Pool.State) (j : nat) (v : VocabItem) :
  Pool.pool s !! j = Some (Pool.Awaiting v t) ->
  exists n,
    Pool.turns P vocabs (replicate n j) s
    = Pool.mkState (Pool.next s)
        (Pool.results s ++ [fst (uninterrupted t (Pool.world s))])
        (snd (uninterrupted t (Pool.world s)))
        (<[j := Pool.AtLoopHead]> (Pool.pool s)).
Proof.
  revert s. induction t as [r|effect rest IH]; intros s Hj.
  - exists 1. cbn. unfold Pool.turn. by rewrite Hj.
  - destruct (IH (Pool.world s) (Pool.turn P vocabs j s)) as [n Hn].
    { unfold Pool.turn. rewrite Hj. cbn. apply list_lookup_insert_eq.
      by eapply lookup_lt_Some. }
    exists (S n). cbn [replicate]. change (Pool.turns P vocabs (j :: ?l) s)
      with (Pool.turns P vocabs l (Pool.turn P vocabs j s)).
    rewrite Hn. unfold Pool.turn. rewrite Hj. cbn.
    by rewrite list_insert_insert_eq.
Qed.

Lemma unsettled_worker (l : list Pool.Worker) :
  forallb (fun k => match k with Pool.Finished => true | _ => false end) l
  = false ->
  exists j k, l !! j = Some k /\ 0 < weight k.
Proof.
  induction l as [|k l IH]; [done|]. cbn. destruct k as [|v t|]; cbn.
  - intros _. exists 0, Pool.AtLoopHead. split; [done|cbn; lia].
  - intros _. exists 0, (Pool.Awaiting v t). split; [done|cbn; lia].
  - intros (j & k & Hj & Hk)%IH. by exists (S j), k.
Qed.

(** The workers can always go on until all of them have returned. *)
Lemma can_settle (P : Platform) (vocabs : list VocabItem) (n : nat)
  (s : Pool.State) :
  work_left vocabs s <= n ->
  exists schedule, Pool.settled (Pool.turns P vocabs schedule s) = true.
Proof.
  revert s. induction n as [|n IH]; intros s Hn;
    (destruct (Pool.settled s) eqn:Es; [by exists []|]);
    apply unsettled_worker in Es as (j & k & Hj & Hk);
    pose proof (sum_weight_insert (Pool.pool s) j k) as Hsum;
    unfold work_left in *.
  - specialize (Hsum k Hj). rewrite list_insert_id in Hsum by done.
    assert (weight k <= sum_list_with weight (Pool.pool s)) as Hle.
    { rewrite <- (take_drop_middle _ _ _ Hj), sum_list_with_app. cbn. lia. }
    lia.
  - destruct k as [|v t|]; [| |cbn in Hk; lia].
    + destruct (IH (Pool.turn P vocabs j s)) as [schedule Hs].
      { unfold Pool.turn. rewrite Hj.
        destruct (vocabs !! Pool.next s) as [v|] eqn:Ev; cbn.
        - apply lookup_lt_Some in Ev.
          specialize (Hsum (Pool.Awaiting v (Pool.processOne P v)) Hj).
          cbn in Hsum. lia.
        - specialize (Hsum Pool.Finished Hj). cbn in Hsum. lia. }
      by exists (j :: schedule).
    + destruct (finish_pass P vocabs t s j v Hj) as [m Hm].
      destruct (IH (Pool.turns P vocabs (replicate m j) s))
        as [schedule Hs].
      { rewrite Hm. cbn. specialize (Hsum Pool.AtLoopHead Hj).
        cbn in Hsum. lia. }
      exists (replicate m j ++ schedule). by rewrite turns_app.
Qed.


Lemma pool_steps_refl (vocabs : list VocabItem) (w : World) :
  pool_steps vocabs w w.
Proof. split; [apply no_summary_refl|done]. Qed.

Lemma pool_steps_trans (vocabs : list VocabItem) (w1 w2 w3 : World) :
  pool_steps vocabs w1 w2 -> pool_steps vocabs w2 w3 ->
  pool_steps vocabs w1 w3.
Proof.
  intros [Hs Hf] [Hs' Hf']. split; [by eapply no_summary_trans|].
  intros p Hp Ht. by rewrite Hf', Hf.
Qed.

Lemma pass_pool_step (vocabs : list VocabItem) (v : VocabItem)
  (w w' : World) :
  v ∈ vocabs -> pass_step v w w' -> pool_steps vocabs w w'.
Proof.
  intros Hv [Hs Hf]. split; [done|]. intros p Hp Ht.
  destruct Hf as [->|(q & c & -> & [Hq|(kind & t & text & -> & _)])];
    [done| |].
  - apply lookup_insert_ne. intros <-. by apply (Hp v).
  - apply lookup_insert_ne. intros <-. by apply (Ht kind t).
Qed.

(** What holds of the pool after any turns of the workers. *)
Lemma pool_invariant (P : Platform) (CONCURRENCY : nat)
  (vocabs : list VocabItem) (schedule : list nat)
  (K : gmap Path FileContent) (w : World) :
  (forall v p, v ∈ vocabs -> p ∈ own_paths v -> K !! p = None) ->
  keeps K w ->
  pool_inv vocabs (keeps K) (pool_steps vocabs) (pass_result P) w
    (Pool.turns P vocabs schedule (Pool.start CONCURRENCY w)).
Proof.
  intros HK Hw. apply inv_turns.
  - apply pool_steps_trans.
  - intros v Hv. eapply robust_mono; [| |apply robust_processOne].
    + intros w1 w2 _. by apply pass_pool_step.
    + done.
    + intros p. by apply HK.
  - apply inv_start; [apply pool_steps_refl|done].
Qed.

Lemma pool_settled (P : Platform) (CONCURRENCY : nat)
  (vocabs : list VocabItem) (schedule : list nat) (w : World) :
  0 < CONCURRENCY ->
  let s := Pool.turns P vocabs schedule (Pool.start CONCURRENCY w) in
  Pool.settled s = true ->
  pool_steps vocabs w (Pool.world s)
  /\ (exists pushed,
        pushed ≡ₚ vocabs /\ Forall2 (pass_result P) pushed (Pool.results s))
  /\ forall p c, (forall v, v ∈ vocabs -> p ∉ own_paths v) ->
                 files w !! p = Some c ->
                 files (Pool.world s) !! p = Some c.
Proof.
  intros HC s Hs.
  assert (Pool.pool s <> []) as Hne.
  { intros E. apply (f_equal length) in E. subst s.
    rewrite turns_length in E. unfold Pool.start in E. cbn in E.
    rewrite length_replicate in E. lia. }
  split_and!.
  - destruct (inv_settled vocabs (keeps ∅) (pool_steps vocabs)
                (pass_result P) w s) as (_ & H & _); try done.
    by apply pool_invariant.
  - destruct (inv_settled vocabs (keeps ∅) (pool_steps vocabs)
                (pass_result P) w s) as (_ & _ & H); try done.
    by apply pool_invariant.
  - intros p c Hp Hc.
    destruct (inv_settled vocabs (keeps {[p := c]}) (pool_steps vocabs)
                (pass_result P) w s) as (H & _); try done.
    + apply pool_invariant.
      * intros v q Hv Hq. apply lookup_singleton_ne. intros <-.
        by apply (Hp v).
      * by intros q d [<- <-]%lookup_singleton_Some.
    + apply H. apply lookup_singleton_eq.
Qed.

Lemma pool_can_settle (P : Platform) (CONCURRENCY : nat)
  (vocabs : list VocabItem) (schedule : list nat) (w : World) :
  exists more,
    Pool.settled
      (Pool.turns P vocabs (schedule ++ more) (Pool.start CONCURRENCY w))
    = true.
Proof.
  destruct (can_settle P vocabs _
              (Pool.turns P vocabs schedule (Pool.start CONCURRENCY w))
              (le_n _)) as [more H].
  exists more. by rewrite turns_app.
Qed.

(** The part of [run] before the workers writes no file and no summary,
    and has the list of [fetchLovList]. *)
Lemma setup_run (P : Platform) (w : World) :
  fst (setup P w) = fst (fetchLovList P w)
  /\ files (snd (setup P w)) = files w
  /\ no_summary_since w (snd (setup P w)).
Proof.
  unfold setup, fetchLovList, fetchJson. mrun. split_and!; [done..|].
  eexists. cbn [trace]. rewrite <- !app_assoc. split; [reflexivity|].
  cbn [app]. by repeat constructor.
Qed.


Lemma pool_run_eq (P : Platform) (CONCURRENCY : nat) (schedule : list nat)
  (w : World) :
  Pool.run P CONCURRENCY schedule w
  = match fst (fetchLovList P w) with
    | Thrown msg => Some (Thrown msg, snd (setup P w))
    | Returned vocabs =>
        let s := Pool.turns P vocabs schedule
                   (Pool.start CONCURRENCY (snd (setup P w))) in
        if Pool.settled s
        then Some (Returned tt,
                   snd (writeIndexes P (Pool.results s) (Pool.world s)))
        else None
    end.
Proof.
  destruct (setup_run P w) as (<- & _). unfold Pool.run.
  by destruct (setup P w) as [[vocabs|msg] w0].
Qed.



(** A robust task run without interruption. *)
Lemma robust_uninterrupted {A} (I : World -> Prop)
  (G : World -> World -> Prop) (Q : A -> Prop) (t : Task A) (w : World) :
  robust I G Q t -> I w ->
  Q (fst (uninterrupted t w)) /\ I (snd (uninterrupted t w)).
Proof.
  revert w. induction t as [a|effect rest IH]; intros w; cbn; [done|].
  intros H Hw. destruct (H w Hw) as (HI & _ & Hr). by apply IH.
Qed.

Lemma processOne_result (P : Platform) (v : VocabItem) (w : World) :
  pass_result P v (fst (processOne P v w)).
Proof.
  rewrite <- steps_processOne.
  apply (robust_uninterrupted (keeps ∅) (pass_step v)); [|done].
  by apply robust_processOne.
Qed.

Lemma Forall2_elem_of_l {A B} (R : A -> B -> Prop) (l : list A) (k : list B)
  (x : A) :
  Forall2 R l k -> x ∈ l -> exists y, y ∈ k /\ R x y.
Proof.
  induction 1 as [|a b l k Hab _ IH]; [by intros ?%elem_of_nil|].
  intros [->|Hx]%elem_of_cons.
  - exists b. split; [left|done].
  - destruct (IH Hx) as (y & Hy & HR). exists y. split; [by right|done].
Qed.

(** C4: when the registry answers for a vocabulary, [extractLatestVersion]
    returns none exactly when no version has a file location and a string
    time stamp that parses, and else returns one of these versions, whose
    parsed time is maximal among them; it throws exactly when the registry
    call fails, and writes no file.  [processOne] works with the version
    returned; when none is returned or the call throws it records the
    same skip and writes no file; whatever the number of workers and their
    interleaving, the skipped vocabulary has its record among the results,
    every vocabulary has a result, and [run] returns normally. *)
Theorem C4_latest_version (P : Platform) (v : VocabItem) (w : World) :
  let r := fst (extractLatestVersion P (prefix v) w) in
  (forall st ct url info,
     http_info P (LOV_INFO_URL (prefix v)) = Response st ct url (Some info) ->
     res_ok st = true ->
     (r = Returned None <->
      forall x l ms, x ∈ versions_of info -> ~ usable_as P x l ms)
     /\ (forall l, r = Returned (Some l) ->
           exists x ms,
             x ∈ versions_of info /\ usable_as P x l ms
             /\ forall x' l' ms',
                  x' ∈ versions_of info -> usable_as P x' l' ms' ->
                  (ms' <= ms)%Z)
     /\ exists o, r = Returned o)
  /\ (registry_fails P (prefix v) <-> exists msg, r = Thrown msg)
  /\ files (snd (extractLatestVersion P (prefix v) w)) = files w
  /\ (forall l, r = Returned (Some l) ->
        r_lovLatestFileURL (fst (processOne P v w)) = Some (fileURL l)
        /\ r_lovLatestIssued (fst (processOne P v w)) = Some (issued l))
  /\ (r = Returned None \/ (exists msg, r = Thrown msg) ->
      fst (processOne P v w) = unresolved_result v
      /\ files (snd (processOne P v w)) = files w
      /\ forall CONCURRENCY vocabs schedule w0,
           0 < CONCURRENCY -> v ∈ vocabs ->
           let s := Pool.turns P vocabs schedule
                      (Pool.start CONCURRENCY w0) in
           Pool.settled s = true ->
           unresolved_result v ∈ Pool.results s
           /\ length (Pool.results s) = length vocabs)
  /\ (forall CONCURRENCY schedule w0 listed,
        fst (fetchLovList P w0) = Returned listed ->
        (forall out w',
           Pool.run P CONCURRENCY schedule w0 = Some (out, w') ->
           out = Returned tt)
        /\ exists more,
             is_Some (Pool.run P CONCURRENCY (schedule ++ more) w0)).
Proof.
  intros r. pose proof (resolve_run P (prefix v) w) as Hres. fold r in Hres.
  assert (r = fst (extractLatestVersion P (prefix v) w)) as Er by done.
  rewrite extractLatestVersion_run in Er. cbn [fst] in Er.
  split_and!.
  - intros st ct url info E Hok. rewrite E, Hok in Er. rewrite Er.
    split_and!.
    + rewrite <- latest_of_None. split; [by intros [= ->]|by intros ->].
    + intros l [= H]. by apply latest_of_Some.
    + eauto.
  - unfold registry_fails. rewrite Er.
    destruct (http_info P (LOV_INFO_URL (prefix v))) as [msg|st ct u body].
    + split; eauto.
    + destruct (res_ok st).
      * destruct body as [info|].
        -- split; [by intros [?|?]|by intros [? ?]].
        -- split; eauto.
      * split; eauto.
  - by rewrite extractLatestVersion_run.
  - intros l El. rewrite El in Hres.
    pose proof (processOne_result P v w) as [_ H].
    by rewrite <- Hres in H.
  - intros Hnone.
    assert (resolve P (prefix v) = None) as E.
    { rewrite <- Hres. by destruct Hnone as [->|[msg ->]]. }
    assert (processOne P v w = (unresolved_result v, started v w)) as Ep
      by (by rewrite processOne_run, E).
    rewrite Ep. split_and!; [done|done|].
    intros CONCURRENCY vocabs schedule w0 HC Hv s Hs.
    destruct (pool_settled P CONCURRENCY vocabs schedule w0 HC Hs)
      as (_ & (pushed & Hperm & Hall) & _).
    split.
    + rewrite <- Hperm in Hv.
      destruct (Forall2_elem_of_l _ _ _ _ Hall Hv) as (y & Hy & _ & Hr).
      rewrite E in Hr. by subst y.
    + subst s. by rewrite <- (Forall2_length _ _ _ Hall), Hperm.
  - intros CONCURRENCY schedule w0 listed E. split.
    + intros out w'. rewrite pool_run_eq, E. cbv zeta.
      destruct (Pool.settled _); [|done]. by intros [= <- _].
    + destruct (pool_can_settle P CONCURRENCY listed schedule
                  (snd (setup P w0))) as [more H].
      exists more. rewrite pool_run_eq, E. cbv zeta. by rewrite H.
Qed.

(** Of the four versions of [ex], the one of 2023 is returned: it is
    usable, and later than the one of 2022. *)
Lemma C4_witness :
  exists x ms,
    x ∈ versions_of (ex_info ttl_url)
    /\ usable_as good x (mkLatest ttl_url ex_issued) ms
    /\ (1640995200000 <= ms)%Z.
Proof.
  destruct (C4_latest_version good ex empty_world) as (H & _).
  destruct (H 200%Z (Some "application/json") (LOV_INFO_URL "ex")
              (ex_info ttl_url) eq_refl eq_refl) as (_ & Hsome & _).
  destruct (Hsome (mkLatest ttl_url ex_issued) eq_refl)
    as (x & ms & Hx & Hu & Hmax).
  exists x, ms. split_and!; [done|done|].
  apply (Hmax (mkVersion (Some ttl_url) (Some "2022-01-01"))
           (mkLatest ttl_url "2022-01-01")).
  - left.
  - by split_and!.
Defined.



